(** * Non-null optional field plugin: shape compiler and value validator

    A shallow embedding of [NonNullOptionalFieldPlugin.ts].  The plugin
    compiles, per GraphQL input type, a [ValidationType] describing which
    fields carry the [nonNullOptional] flag, and at request time walks the
    supplied arguments against that shape, collecting every explicit
    [null] found at a flagged field into an error map.

    Conventions of the embedding:
    - a JavaScript object that is only enumerated and read is the list of
      its own enumerable properties in [Object.keys] order; the keys of
      such a list are pairwise distinct in every object JavaScript can
      build, which the lemmas that need it take as [wfValue];
    - the shape objects are mutable and shared (the cache hands out the
      same object to every user of a type, also to the type itself when
      it is recursive), so they live in a store and are named by their
      location;
    - the recursion of the shape compiler follows the type graph, which
      may be cyclic: it is written with a fuel argument and proved to
      return for enough fuel;
    - the functions the plugin imports are written out from their library:
      [set] is lodash's [baseSet] with [assignValue] and [isIndex],
      [JSON.stringify] and [Object.keys] follow ECMAScript, [getNamedType]
      and the type predicates follow graphql-js;
    - a lookup by key ([o[key]], [key in o]) in a list of properties
      sees the own properties of the object; the theorems that depend on
      it are about names that no object inherits (not [constructor],
      [toString], ...: [namesOwn], [ownNames], [argsOwn]).  The module
      [InStore] has the arguments and the error map as objects of one
      heap with their prototypes, and there [set] finds what an object
      inherits;
    - of a number the walk only asks whether it is falsy, so a number is
      an integer, falsy when it is [0]. *)

From Stdlib Require Import ZArith NArith String Ascii List.
From Stdlib Require Import DecimalString DecimalN DecimalFacts.
From stdpp Require Import base gmap strings list.

Open Scope string_scope.
Open Scope list_scope.

(** ** JavaScript values reaching the resolver *)

#[local] Unset Elimination Schemes.

Inductive JsValue : Type :=
| VUndefined
| VNull
| VBool (b : bool)
| VNumber (n : Z)
| VString (s : string)
| VArray (elements : list JsValue)
| VObject (props : list (string * JsValue)).

#[local] Set Elimination Schemes.

(** [value && ...]: the falsy values are [undefined], [null], [false],
    [0] and the empty string; arrays and objects are always truthy. *)
Definition truthy (value : JsValue) : bool :=
  match value with
  | VUndefined | VNull => false
  | VBool b => b
  | VNumber n => negb (n =? 0)%Z
  | VString s => negb (String.eqb s "")
  | VArray _ | VObject _ => true
  end.

(** [subValue === null] *)
Definition isNull (value : JsValue) : bool :=
  match value with VNull => true | _ => false end.

(** [o[key]] on an object given by its property list. *)
Fixpoint getProp {A : Type} (props : list (string * A)) (key : string) : option A :=
  match props with
  | [] => None
  | (k, v) :: rest => if String.eqb k key then Some v else getProp rest key
  end.

(** [o[key] = v]: an existing property keeps its place, a new one goes last. *)
Fixpoint setProp {A : Type} (props : list (string * A)) (key : string) (v : A)
  : list (string * A) :=
  match props with
  | [] => [(key, v)]
  | (k, w) :: rest =>
      if String.eqb k key then (k, v) :: rest else (k, w) :: setProp rest key v
  end.

(** ** Array indices as strings *)

(** The decimal numeral of a number, as [Number.prototype.toString] and
    the canonical numeric strings of JavaScript write it. *)
Definition decimal (n : N) : string := NilEmpty.string_of_uint (N.to_uint n).

(** [index.toString()] *)
Definition toString (index : nat) : string := decimal (N.of_nat index).

(** The number written by a string that lodash's [reIsUint] accepts: the
    digit 0 alone, or a nonzero digit followed by any digits.  These are
    the strings that are the decimal numeral of the number they read as. *)
Definition parseUint (s : string) : option N :=
  match NilEmpty.uint_of_string s with
  | Some d =>
      let n := N.of_uint d in
      if String.eqb (decimal n) s then Some n else None
  | None => None
  end.

(** lodash's [isIndex] on a string: [reIsUint] and below [MAX_SAFE_INTEGER]. *)
Definition isIndex (s : string) : bool :=
  match parseUint s with
  | Some n => (n <? 9007199254740991)%N
  | None => false
  end.

(** The keys JavaScript treats as elements of an array: canonical numeric
    strings below [2^32 - 1]. *)
Definition arrayIndexN (s : string) : option N :=
  match parseUint s with
  | Some n => if (n <? 4294967295)%N then Some n else None
  | None => None
  end.

Definition arrayIndex (s : string) : option nat := N.to_nat <$> arrayIndexN s.

(** ** The error map *)

(** The map that [validate] fills through lodash's [set]: the terminal
    marker [null], plain objects, and arrays.  An array has elements,
    some of which may be holes, and like every JavaScript object may also
    carry properties that are not indices. *)
#[local] Unset Elimination Schemes.

Inductive ErrorMap : Type :=
| ENull
| EObject (props : list (string * ErrorMap))
| EArray (items : list (option ErrorMap)) (props : list (string * ErrorMap)).

#[local] Set Elimination Schemes.

Definition isObject (e : ErrorMap) : bool :=
  match e with ENull => false | _ => true end.

(** [arr[i] = v]: the array grows to hold index [i], leaving holes. *)
Definition setItem (items : list (option ErrorMap)) (i : nat) (v : ErrorMap)
  : list (option ErrorMap) :=
  if decide (i < length items) then <[i := Some v]> items
  else items ++ replicate (i - length items) None ++ [Some v].

(** [nested[key]], for the keys an error map gets from shapes whose field
    names are not properties of [Object.prototype] ([namesOwn], below):
    the own property.  lodash reads [nested[key]] through the prototype
    chain, so for [constructor] and the other inherited names it finds the
    inherited function and continues in it: the theorems that depend on
    the difference assume [namesOwn], and [InStore.getKey], below, reads
    along the chain. *)
Definition getKey (nested : ErrorMap) (key : string) : option ErrorMap :=
  match nested with
  | ENull => None
  | EObject props => getProp props key
  | EArray items props =>
      match arrayIndex key with
      | Some i => default None (items !! i)
      | None => getProp props key
      end
  end.

(** [assignValue(nested, key, newValue)] *)
Definition assignValue (nested : ErrorMap) (key : string) (newValue : ErrorMap)
  : ErrorMap :=
  match nested with
  | ENull => ENull
  | EObject props => EObject (setProp props key newValue)
  | EArray items props =>
      match arrayIndex key with
      | Some i => EArray (setItem items i newValue) props
      | None => EArray items (setProp props key newValue)
      end
  end.

(** lodash's [baseSet]: walk the path, keep the objects that are already
    there, put an array where the next key is an index and an object
    elsewhere, and assign the value at the last key. *)
Fixpoint baseSet (nested : ErrorMap) (path : list string) (value : ErrorMap)
  : ErrorMap :=
  match path with
  | [] => nested
  | key :: rest =>
      match rest with
      | [] => assignValue nested key value
      | next :: _ =>
          let newValue :=
            match getKey nested key with
            | Some objValue =>
                if isObject objValue then objValue
                else if isIndex next then EArray [] [] else EObject []
            | None => if isIndex next then EArray [] [] else EObject []
            end in
          assignValue nested key (baseSet newValue rest value)
      end
  end.

(** [set(object, path, value)] *)
Definition set (object : ErrorMap) (path : list string) (value : ErrorMap)
  : ErrorMap :=
  if isObject object then baseSet object path value else object.

(** [Object.keys(errorMap)] is only asked for its length, which the order
    of the keys does not change.  An array lists its filled indices, then
    its other properties. *)
Definition Object_keys (e : ErrorMap) : list string :=
  match e with
  | ENull => []
  | EObject props => props.*1
  | EArray items props =>
      omap id (imap (fun i x => (fun _ : ErrorMap => toString i) <$> x) items)
        ++ props.*1
  end.

(** ** [JSON.stringify] of an error map *)

Definition dquote : string := String (ascii_of_nat 34) EmptyString.

Definition hexDigit (n : nat) : string :=
  String.substring n 1 "0123456789abcdef".

(** One character of a JSON string literal. *)
Definition quoteChar (c : ascii) : string :=
  let n := nat_of_ascii c in
  if Nat.eqb n 34 then "\" +:+ dquote
  else if Nat.eqb n 92 then "\\"
  else if Nat.eqb n 8 then "\b"
  else if Nat.eqb n 9 then "\t"
  else if Nat.eqb n 10 then "\n"
  else if Nat.eqb n 12 then "\f"
  else if Nat.eqb n 13 then "\r"
  else if Nat.ltb n 32 then "\u00" +:+ hexDigit (Nat.div n 16) +:+ hexDigit (Nat.modulo n 16)
  else String c EmptyString.

Fixpoint quoteBody (s : string) : string :=
  match s with
  | EmptyString => EmptyString
  | String c rest => quoteChar c +:+ quoteBody rest
  end.

Definition quote (s : string) : string := dquote +:+ quoteBody s +:+ dquote.

(** The order in which an ordinary object lists its own keys: the array
    indices in ascending order, then the other keys in creation order. *)
Fixpoint insertByIndex {A : Type} (n : N) (x : A) (l : list (N * A))
  : list (N * A) :=
  match l with
  | [] => [(n, x)]
  | (m, y) :: rest =>
      if (n <? m)%N then (n, x) :: l else (m, y) :: insertByIndex n x rest
  end.

Definition ownPropertyOrder {A : Type} (members : list (string * A))
  : list (string * A) :=
  let indexed :=
    omap (fun kv : string * A => (fun n => (n, kv)) <$> arrayIndexN kv.1) members in
  let named :=
    List.filter (fun kv : string * A =>
                   match arrayIndexN kv.1 with Some _ => false | None => true end)
                members in
  (foldr (fun nkv acc => insertByIndex nkv.1 nkv.2 acc) [] indexed).*2 ++ named.

(** A hole of an array is written [null]; the properties of an array that
    are not elements are not written at all. *)
Fixpoint JSON_stringify (e : ErrorMap) : string :=
  match e with
  | ENull => "null"
  | EObject props =>
      let members :=
        List.map (fun kv : string * ErrorMap => (kv.1, JSON_stringify kv.2)) props in
      "{" +:+ String.concat ","
                (List.map (fun ks : string * string => quote ks.1 +:+ ":" +:+ ks.2)
                          (ownPropertyOrder members))
          +:+ "}"
  | EArray items _ =>
      "[" +:+ String.concat ","
                (List.map (fun x : option ErrorMap =>
                             match x with
                             | Some v => JSON_stringify v
                             | None => "null"
                             end) items)
          +:+ "]"
  end.

(** ** Validation shapes *)

(** Shapes are objects shared by reference; [loc] names one in the store. *)
Abbreviation loc := nat.

Record ValidationConfig := { nonNullOptional : option bool }.

Record ValidationField := { config : option ValidationConfig; type : loc }.

Record ValidationType := { fields : option (list (string * ValidationField)) }.

Abbreviation Heap := (list ValidationType).

(** [validationType.fields?.[key]] *)
Definition lookupField (h : Heap) (validationType : loc) (key : string)
  : option ValidationField :=
  match h !! validationType with
  | Some {| fields := Some fs |} => getProp fs key
  | _ => None
  end.

(** [subValidationField?.config?.nonNullOptional], as a condition. *)
Definition flagged (subValidationField : option ValidationField) : bool :=
  match subValidationField with
  | Some {| config := Some {| nonNullOptional := Some true |} |} => true
  | _ => false
  end.

(** ** The value validator *)

(** [array.forEach((x, index) => ...)] and [Object.keys(o).forEach(key => ...)]
    over a state that the callback updates. *)
Fixpoint forEachIndexed {A St : Type} (f : A -> nat -> St -> St)
  (xs : list A) (index : nat) (s : St) : St :=
  match xs with
  | [] => s
  | x :: rest => forEachIndexed f rest (S index) (f x index s)
  end.

Fixpoint forEachKey {A St : Type} (f : string -> A -> St -> St)
  (props : list (string * A)) (s : St) : St :=
  match props with
  | [] => s
  | (key, x) :: rest => forEachKey f rest (f key x s)
  end.

Fixpoint validate (h : Heap) (value : JsValue) (validationType : option loc)
  (path : list string) (errorMap : ErrorMap) {struct value} : ErrorMap :=
  match validationType with
  | Some vt =>
      if truthy value then
        match value with
        | VArray elements =>
            forEachIndexed
              (fun subValue index errorMap =>
                 validate h subValue validationType (path ++ [toString index]) errorMap)
              elements 0 errorMap
        | VObject props =>
            forEachKey
              (fun key subValue errorMap =>
                 let subValidationField := lookupField h vt key in
                 let subPath := path ++ [key] in
                 let errorMap :=
                   if isNull subValue && flagged subValidationField
                   then set errorMap subPath ENull
                   else errorMap in
                 validate h subValue (type <$> subValidationField) subPath errorMap)
              props errorMap
        | _ => errorMap
        end
      else errorMap
  | None => errorMap
  end.

(** The paths at which a walk calls [set], in the order of the calls and
    relative to the path of the walked value. *)
Fixpoint relViolations (h : Heap) (value : JsValue) (validationType : option loc)
  {struct value} : list (list string) :=
  match validationType with
  | Some vt =>
      if truthy value then
        match value with
        | VArray elements =>
            forEachIndexed
              (fun subValue index acc =>
                 acc ++ ((toString index ::.)
                           <$> relViolations h subValue validationType))
              elements 0 []
        | VObject props =>
            forEachKey
              (fun key subValue acc =>
                 let subValidationField := lookupField h vt key in
                 acc ++ (if isNull subValue && flagged subValidationField
                         then [[key]] else [])
                     ++ ((key ::.)
                           <$> relViolations h subValue (type <$> subValidationField)))
              props []
        | _ => []
        end
      else []
  | None => []
  end.

Definition violations (h : Heap) (value : JsValue) (validationType : option loc)
  (path : list string) : list (list string) :=
  (path ++.) <$> relViolations h value validationType.

(** The violations found at and below one key of an object. *)
Definition keyViolations (h : Heap) (vt : loc) (key : string) (subValue : JsValue)
  : list (list string) :=
  (if isNull subValue && flagged (lookupField h vt key) then [[key]] else [])
  ++ ((key ::.) <$> relViolations h subValue (type <$> lookupField h vt key)).

(** ** GraphQL input types, as the compiler reads them *)

Inductive GraphQLInputType : Type :=
| NamedType (name : string)
| ListType (ofType : GraphQLInputType)
| NonNullType (ofType : GraphQLInputType).

Definition isNamedType (t : GraphQLInputType) : bool :=
  match t with NamedType _ => true | _ => false end.

Definition isListType (t : GraphQLInputType) : bool :=
  match t with ListType _ => true | _ => false end.

Definition isNonNullType (t : GraphQLInputType) : bool :=
  match t with NonNullType _ => true | _ => false end.

(** [getNamedType] strips every list and non-null layer. *)
Fixpoint typeName (t : GraphQLInputType) : string :=
  match t with
  | NamedType name => name
  | ListType ofType | NonNullType ofType => typeName ofType
  end.

Definition getNamedType (t : GraphQLInputType) : GraphQLInputType :=
  NamedType (typeName t).

(** An input field: its declared type and the value found at
    [extensions?.nexus?.config?.nonNullOptional]. *)
Record InputField := {
  fieldType : GraphQLInputType;
  extNonNullOptional : option bool
}.

(** What a name stands for: an input object with its fields in declaration
    order, or a type without fields (scalar, enum). *)
Inductive TypeDefinition : Type :=
| InputObjectType (getFields : list (string * InputField))
| LeafType.

Abbreviation Schema := (gmap string TypeDefinition).

(** [isInputObjectType(type)], giving [type.getFields()]. *)
Definition inputObjectFields (schema : Schema) (t : GraphQLInputType)
  : option (list (string * InputField)) :=
  match t with
  | NamedType name =>
      match schema !! name with
      | Some (InputObjectType fs) => Some fs
      | _ => None
      end
  | _ => None
  end.

(** A flag value used as a condition. *)
Definition flagSet (flag : option bool) : bool :=
  match flag with Some true => true | _ => false end.

(** ** The shape compiler *)

(** The state of one plugin instance: the shape objects and the cache. *)
Record State := {
  heap : Heap;
  validationTypeCache : gmap string loc
}.

Definition initialState : State := {| heap := []; validationTypeCache := ∅ |}.

(** Computations over the plugin state that may run out of fuel. *)
Definition M (A : Type) : Type := State -> option (A * State).

#[global] Instance M_ret : MRet M := fun A x st => Some (x, st).

#[global] Instance M_bind : MBind M := fun A B f c st =>
  match c st with
  | Some (x, st') => f x st'
  | None => None
  end.

(** [{ ... }]: a new object. *)
Definition alloc (o : ValidationType) : M loc := fun st =>
  Some (length (heap st),
        {| heap := heap st ++ [o]; validationTypeCache := validationTypeCache st |}).

(** [validationTypeCache[name] = node] *)
Definition cacheInsert (name : string) (node : loc) : M unit := fun st =>
  Some (tt, {| heap := heap st;
               validationTypeCache := <[name := node]> (validationTypeCache st) |}).

(** [name in validationTypeCache], giving [validationTypeCache[name]], for
    a name that is not a property of [Object.prototype]: the cache is a
    plain object, and for [constructor], [toString] and the other names
    every object inherits ([isInherited], below) the test of the source
    succeeds without an entry of the cache's own.  The model covers the
    own entries; the theorems that depend on the difference assume that
    the type names are not inherited ([ownNames], [argsOwn]). *)
Definition cacheLookup (name : string) : M (option loc) := fun st =>
  Some (validationTypeCache st !! name, st).

(** [validationType.fields = fields] for a new, empty [fields]. *)
Definition initFields (validationType : loc) : M unit := fun st =>
  Some (tt, {| heap := <[validationType := {| fields := Some [] |}]> (heap st);
               validationTypeCache := validationTypeCache st |}).

(** [fields[key] = field], for the [fields] object of [validationType]. *)
Definition assignField (validationType : loc) (key : string)
  (field : ValidationField) : M unit := fun st =>
  let old := match heap st !! validationType with
             | Some {| fields := Some fs |} => fs
             | _ => []
             end in
  Some (tt, {| heap := <[validationType :=
                           {| fields := Some (setProp old key field) |}]> (heap st);
               validationTypeCache := validationTypeCache st |}).

(** [subValidationType.fields], as a condition. *)
Definition hasFields (validationType : loc) : M bool := fun st =>
  Some (match heap st !! validationType with
        | Some {| fields := Some _ |} => true
        | _ => false
        end, st).

(** [Object.keys(o).forEach(key => ...)] for a callback that runs in [M]. *)
Fixpoint forEachM {A : Type} (f : string -> A -> M unit)
  (props : list (string * A)) : M unit :=
  match props with
  | [] => mret tt
  | (key, x) :: rest => _ ← f key x; forEachM f rest
  end.

Definition ValidationMapper : Type := GraphQLInputType -> loc -> M loc.

(** A named type is looked up in the cache; on a miss its node enters the
    cache before the mapper fills it.  A wrapper gets a node of its own,
    which the mapper does not use. *)
Definition cacheEnhancer (mapper : ValidationMapper) (type : GraphQLInputType)
  : M loc :=
  match type with
  | NamedType name =>
      cached ← cacheLookup name;
      match cached with
      | Some node => mret node
      | None =>
          validationNode ← alloc {| fields := None |};
          _ ← cacheInsert name validationNode;
          mapper type validationNode
      end
  | _ =>
      fresh ← alloc {| fields := None |};
      mapper type fresh
  end.

(** The function given to [cacheEnhancer]; [getValidationType] is the
    enhanced function itself, which the body calls back. *)
Definition validationMapper (schema : Schema)
  (getValidationType : GraphQLInputType -> M loc) : ValidationMapper :=
  fun type validationType =>
    if isListType type || isNonNullType type then
      getValidationType (getNamedType type)
    else
      match inputObjectFields schema type with
      | Some inputFieldMap =>
          let inputFieldKeyList :=
            List.filter (fun kf : string * InputField =>
                           flagSet (extNonNullOptional kf.2)) inputFieldMap in
          if (0 <? length inputFieldKeyList)%nat then
            _ ← initFields validationType;
            _ ← forEachM
                  (fun key subInputField =>
                     subValidationType ← getValidationType (fieldType subInputField);
                     let nonNullOptional := extNonNullOptional subInputField in
                     assignField validationType key
                       {| type := subValidationType;
                          config := Some {| nonNullOptional := nonNullOptional |} |})
                  inputFieldKeyList;
            mret validationType
          else mret validationType
      | None => mret validationType
      end.

Fixpoint getValidationType (schema : Schema) (fuel : nat)
  (type : GraphQLInputType) : M loc :=
  match fuel with
  | 0 => fun _ => None
  | S fuel' =>
      cacheEnhancer (validationMapper schema (getValidationType schema fuel')) type
  end.

(** The arguments of a field: name and declared type, in declaration order. *)
Definition GraphQLFieldConfigArgumentMap : Type := list (string * GraphQLInputType).

(** The loop of [createArgsValidationType] over the arguments, filling
    [fields]. *)
Fixpoint collectArgs (schema : Schema) (fuel : nat)
  (argMap : GraphQLFieldConfigArgumentMap)
  (fields : list (string * ValidationField))
  : M (list (string * ValidationField)) :=
  match argMap with
  | [] => mret fields
  | (key, type) :: rest =>
      subValidationType ← getValidationType schema fuel type;
      b ← hasFields subValidationType;
      collectArgs schema fuel rest
        (if b : bool
         then setProp fields key {| type := subValidationType; config := None |}
         else fields)
  end.

Definition createArgsValidationType (schema : Schema) (fuel : nat)
  (argMap : option GraphQLFieldConfigArgumentMap) : M (option loc) :=
  match argMap with
  | Some argMap =>
      fields ← collectArgs schema fuel argMap [];
      if (0 <? length fields)%nat then
        node ← alloc {| fields := Some fields |};
        mret (Some node)
      else mret None
  | None => mret None
  end.

(** ** The resolver wrapper *)

(** What a call of the wrapper does: it throws, or it calls the
    continuation, recorded with the arguments of that call, and returns
    the continuation's result. *)
Inductive ResolverResult (Root Ctx Info Res : Type) : Type :=
| Thrown (message : string)
| Continued (root : Root) (args : JsValue) (ctx : Ctx) (info : Info) (result : Res).

Arguments Thrown {Root Ctx Info Res} message.
Arguments Continued {Root Ctx Info Res} root args ctx info result.

(** The text before the error map in the message of the thrown error. *)
Definition messagePrefix : string :=
  "following arguments violated nonNullOptional constrain: ".

Definition violationMessage (errorMap : ErrorMap) : string :=
  messagePrefix +:+ JSON_stringify errorMap.

(** The function that [onCreateFieldResolver] returns, closed over
    [argsValidationType]; [h] is the store at the time of the request. *)
Definition fieldResolver {Root Ctx Info Res : Type} (h : Heap)
  (argsValidationType : loc) (root : Root) (args : JsValue) (ctx : Ctx)
  (info : Info) (next : Root -> JsValue -> Ctx -> Info -> Res)
  : ResolverResult Root Ctx Info Res :=
  let errorMap := validate h args (Some argsValidationType) ["args"] (EObject []) in
  if (0 <? length (Object_keys errorMap))%nat
  then Thrown (violationMessage errorMap)
  else Continued root args ctx info (next root args ctx info).

(** [onCreateFieldResolver(config)], given [config.fieldConfig?.args]: the
    shape that the returned wrapper is closed over, or [None] when the
    hook returns [undefined] and no wrapper is installed. *)
Definition onCreateFieldResolver (schema : Schema) (fuel : nat)
  (args : option GraphQLFieldConfigArgumentMap) : M (option loc) :=
  argsValidationType ← createArgsValidationType schema fuel args;
  match argsValidationType with
  | Some shape => mret (Some shape)
  | None => mret None
  end.

(** ** Induction on values *)

Section JsValue_nested_induction.
Variable P : JsValue -> Prop.
Hypothesis Hundefined : P VUndefined.
Hypothesis Hnull : P VNull.
Hypothesis Hbool : forall b, P (VBool b).
Hypothesis Hnumber : forall n, P (VNumber n).
Hypothesis Hstring : forall s, P (VString s).
Hypothesis Harray : forall elements, Forall P elements -> P (VArray elements).
Hypothesis Hobject :
  forall props, Forall (fun kv => P kv.2) props -> P (VObject props).

Fixpoint JsValue_nested_ind (value : JsValue) : P value :=
  match value with
  | VUndefined => Hundefined
  | VNull => Hnull
  | VBool b => Hbool b
  | VNumber n => Hnumber n
  | VString s => Hstring s
  | VArray elements =>
      Harray elements
        ((fix go (l : list JsValue) : Forall P l :=
            match l with
            | [] => List.Forall_nil P
            | x :: rest => List.Forall_cons P x rest (JsValue_nested_ind x) (go rest)
            end) elements)
  | VObject props =>
      Hobject props
        ((fix go (l : list (string * JsValue)) : Forall (fun kv => P kv.2) l :=
            match l with
            | [] => List.Forall_nil _
            | kv :: rest =>
                List.Forall_cons (fun kv => P kv.2) kv rest (JsValue_nested_ind kv.2) (go rest)
            end) props)
  end.
End JsValue_nested_induction.


(** ** Reading the error map *)

(** The node found by following a path with [nested[key]]. *)
Fixpoint getPath (e : ErrorMap) (path : list string) : option ErrorMap :=
  match path with
  | [] => Some e
  | key :: rest =>
      match getKey e key with
      | Some child => getPath child rest
      | None => None
      end
  end.

(** The node found by following a path in the text that [JSON.stringify]
    writes: only the elements of an array are written, a hole is not a
    node of the map. *)
Definition jsonChild (e : ErrorMap) (key : string) : option ErrorMap :=
  match e with
  | ENull => None
  | EObject props => getProp props key
  | EArray items _ =>
      match arrayIndex key with
      | Some i => default None (items !! i)
      | None => None
      end
  end.

Fixpoint jsonGet (e : ErrorMap) (path : list string) : option ErrorMap :=
  match path with
  | [] => Some e
  | key :: rest =>
      match jsonChild e key with
      | Some child => jsonGet child rest
      | None => None
      end
  end.

(** ** What [set] does below a position *)

(** The node that [baseSet] continues in when it finds [cur] at a key and
    the next key of the path is [next]. *)
Definition objOrFresh (cur : option ErrorMap) (next : string) : ErrorMap :=
  match cur with
  | Some objValue =>
      if isObject objValue then objValue
      else if isIndex next then EArray [] [] else EObject []
  | None => if isIndex next then EArray [] [] else EObject []
  end.

(** The content of a position that held [cur], after [set] has written
    [null] at the relative path [q] below it. *)
Definition setUnder (cur : option ErrorMap) (q : list string) : ErrorMap :=
  match q with
  | [] => ENull
  | next :: _ => baseSet (objOrFresh cur next) q ENull
  end.

Definition setAllUnder (cur : option ErrorMap) (qs : list (list string))
  : option ErrorMap :=
  fold_left (fun c q => Some (setUnder c q)) qs cur.

(** ** The error map of a value, in closed form *)

(** An array built by [set] ends at its last filled index. *)
Definition dropTrailingHoles {A : Type} (items : list (option A))
  : list (option A) :=
  foldr (fun x acc =>
           match x, acc with
           | None, [] => []
           | _, _ => x :: acc
           end) [] items.

(** Follows the spec-side reading of the walk: the part of the error map
    that the violations of a value build at the position of that value,
    [None] when the value has no violation.  [validate_errorTree] below
    proves that [validate] builds exactly this. *)
Fixpoint errorTree (h : Heap) (value : JsValue) (validationType : option loc)
  {struct value} : option ErrorMap :=
  match validationType with
  | Some vt =>
      if truthy value then
        match value with
        | VArray elements =>
            match dropTrailingHoles
                    ((fun subValue => errorTree h subValue validationType)
                       <$> elements) with
            | [] => None
            | items => Some (EArray items [])
            end
        | VObject props =>
            match omap
                    (fun kv : string * JsValue =>
                       let subValidationField := lookupField h vt kv.1 in
                       if isNull kv.2 && flagged subValidationField
                       then Some (kv.1, ENull)
                       else (fun t => (kv.1, t))
                              <$> errorTree h kv.2 (type <$> subValidationField))
                    props with
            | [] => None
            | members => Some (EObject members)
            end
        | _ => None
        end
      else None
  | None => None
  end.

(** The member that one key of an object adds to the error map. *)
Definition errorMember (h : Heap) (vt : loc) (kv : string * JsValue)
  : option (string * ErrorMap) :=
  if isNull kv.2 && flagged (lookupField h vt kv.1)
  then Some (kv.1, ENull)
  else (fun t => (kv.1, t)) <$> errorTree h kv.2 (type <$> lookupField h vt kv.1).

Definition arrayNode (items : list (option ErrorMap)) : option ErrorMap :=
  match items with
  | [] => None
  | _ => Some (EArray items [])
  end.

Definition objectNode (members : list (string * ErrorMap)) : option ErrorMap :=
  match members with
  | [] => None
  | _ => Some (EObject members)
  end.

(** ** Well-formed inputs *)

(** The values JavaScript can build: the keys of an object are pairwise
    distinct, and an array has fewer than [2^32] elements. *)
Fixpoint wfValue (value : JsValue) : bool :=
  match value with
  | VArray elements =>
      (N.of_nat (length elements) <=? 4294967295)%N && forallb wfValue elements
  | VObject props =>
      bool_decide (NoDup props.*1)
      && forallb (fun kv : string * JsValue => wfValue kv.2) props
  | _ => true
  end.

(** The field names of a shape are GraphQL names, which start with a letter
    or an underscore: none of them is an index. *)
Definition namesOk (h : Heap) : bool :=
  forallb (fun cell : ValidationType =>
             match fields cell with
             | Some fs => forallb (fun kf : string * ValidationField =>
                                     negb (isIndex kf.1)) fs
             | None => true
             end) h.

(** ** Invariants of the plugin state *)

(** The named types of the schema that the cache does not hold yet. *)
Definition uncached (schema : Schema) (st : State) : nat :=
  size (dom schema ∖ dom (validationTypeCache st)).

(** How a run of the compiler changes the state: the cache keeps its
    entries, the store keeps its objects, and every new cache entry names
    an object made during the run. *)
Definition extends (st st' : State) : Prop :=
  validationTypeCache st ⊆ validationTypeCache st'
  /\ heap st `prefix_of` heap st'
  /\ (forall name node,
         validationTypeCache st' !! name = Some node ->
         validationTypeCache st !! name = Some node \/ length (heap st) <= node).

(** A named type has a field with the flag. *)
Definition hasFlag (schema : Schema) (name : string) : bool :=
  match schema !! name with
  | Some (InputObjectType fs) =>
      existsb (fun kf : string * InputField => flagSet (extNonNullOptional kf.2)) fs
  | _ => false
  end.

(** A declared field of a named type that carries the flag. *)
Definition flaggedField (schema : Schema) (name key : string) : Prop :=
  exists fs field,
    schema !! name = Some (InputObjectType fs)
    /\ (key, field) ∈ fs
    /\ flagSet (extNonNullOptional field) = true.

(** The cache names objects of the store; a cached shape has fields only
    when its type has a field with the flag, and each of its entries is
    for such a field. *)
Definition cacheSound (schema : Schema) (st : State) : Prop :=
  forall name node,
    validationTypeCache st !! name = Some node ->
    node < length (heap st)
    /\ (forall fs, heap st !! node = Some {| fields := Some fs |} ->
                   hasFlag schema name = true
                   /\ (forall key field, (key, field) ∈ fs ->
                                         flaggedField schema name key)).

(** A type has a constrained field beneath it: one of its fields has the
    flag, or the type of one of its fields has such a field beneath it. *)
Inductive constrained (schema : Schema) : string -> Prop :=
| constrained_here name fs key field :
    schema !! name = Some (InputObjectType fs) ->
    (key, field) ∈ fs ->
    flagSet (extNonNullOptional field) = true ->
    constrained schema name
| constrained_below name fs key field :
    schema !! name = Some (InputObjectType fs) ->
    (key, field) ∈ fs ->
    constrained schema (typeName (fieldType field)) ->
    constrained schema name.

(** The names of the fields of a schema and of the arguments of an
    operation are GraphQL names: no index among them. *)
Definition schemaNamesOk (schema : Schema) : Prop :=
  forall name fs key field,
    schema !! name = Some (InputObjectType fs) ->
    (key, field) ∈ fs -> isIndex key = false.

Definition argsNamesOk (argMap : GraphQLFieldConfigArgumentMap) : Prop :=
  forall key type, (key, type) ∈ argMap -> isIndex key = false.

(** ** Example shapes and schemas *)

(** The shape [{a: {config: {nonNullOptional: true}}, b: {}}]: cell 0 has
    the two fields, both of the empty shape in cell 1; only [a] is flagged. *)
Definition shapeAB : Heap :=
  [ {| fields :=
         Some [("a", {| config := Some {| nonNullOptional := Some true |};
                        type := 1 |});
               ("b", {| config := None; type := 1 |})] |};
    {| fields := None |} ].

(** A recursive input type: [Node] has a flagged field of its own type. *)
Definition nodeSchema : Schema :=
  {[ "Node" :=
       InputObjectType
         [("next", {| fieldType := NamedType "Node";
                      extNonNullOptional := Some true |})] ]}.

(** The state after compiling [Node]: one object, whose field [next] names
    the object itself. *)
Definition nodeState : State :=
  {| heap :=
       [{| fields :=
             Some [("next", {| config := Some {| nonNullOptional := Some true |};
                               type := 0 |})] |}];
     validationTypeCache := {[ "Node" := 0 ]} |}.

(** [Outer] has a field without the flag whose type [Inner] has a flagged
    field; [Plain] has no flagged field anywhere. *)
Definition nestedSchema : Schema :=
  <[ "Outer" :=
       InputObjectType
         [("inner", {| fieldType := NamedType "Inner";
                       extNonNullOptional := None |})] ]>
  (<[ "Inner" :=
        InputObjectType
          [("x", {| fieldType := NamedType "String";
                    extNonNullOptional := Some true |})] ]>
  {[ "Plain" :=
       InputObjectType
         [("y", {| fieldType := ListType (NamedType "String");
                   extNonNullOptional := None |})] ]}).

(** The state after compiling [Inner], and after compiling [Outer] next. *)
Definition innerState : State :=
  {| heap :=
       [{| fields :=
             Some [("x", {| config := Some {| nonNullOptional := Some true |};
                            type := 1 |})] |};
        {| fields := None |}];
     validationTypeCache := <[ "Inner" := 0 ]> {[ "String" := 1 ]} |}.

Definition outerState : State :=
  {| heap := heap innerState ++ [{| fields := None |}];
     validationTypeCache := <[ "Outer" := 2 ]> (validationTypeCache innerState) |}.

(** The shape of an operation with one argument [xs], a list of the
    objects that [shapeAB] describes: cell 2 is the shape of the arguments. *)
Definition shapeArgs : Heap :=
  shapeAB ++ [ {| fields := Some [("xs", {| config := None; type := 0 |})] |} ].

(** ** The input-field hook *)

(** [o.key] and [o?.key] for the keys the plugin reads: of an object its
    property, [undefined] when there is none; [undefined] of everything
    else. *)
Definition getMember (o : JsValue) (key : string) : JsValue :=
  match o with
  | VObject props => default VUndefined (getProp props key)
  | _ => VUndefined
  end.

(** [{...o}]: the own enumerable properties of [o]; of an array its
    elements and of a string its characters, under their indices. *)
Definition spread (o : JsValue) : list (string * JsValue) :=
  match o with
  | VObject props => props
  | VArray elements => imap (fun i x => (toString i, x)) elements
  | VString s =>
      imap (fun i c => (toString i, VString (String c EmptyString)))
           (list_ascii_of_string s)
  | _ => []
  end.

(** A Nexus input field definition, as the object it is. *)
Abbreviation NexusInputFieldDef := (list (string * JsValue)).

(** ['nonNullOptional' in field] *)
Definition containsNonNullOptional (field : NexusInputFieldDef) : bool :=
  bool_decide ("nonNullOptional" ∈ field.*1).

(** [onAddInputField(field)]: the field with its [nonNullOptional] copied
    to [extensions.nexus.config.nonNullOptional], every other property of
    the four objects on the way spread into the copy. *)
Definition onAddInputField (field : NexusInputFieldDef) : NexusInputFieldDef :=
  if containsNonNullOptional field then
    let extensions := getMember (VObject field) "extensions" in
    let nexus := getMember extensions "nexus" in
    let config := getMember nexus "config" in
    setProp field "extensions"
      (VObject
         (setProp (spread extensions) "nexus"
            (VObject
               (setProp (spread nexus) "config"
                  (VObject
                     (setProp (spread config) "nonNullOptional"
                        (getMember (VObject field) "nonNullOptional")))))))
  else field.

(** [field.extensions?.nexus?.config?.nonNullOptional], the expression by
    which [getValidationType] reads the flag of a field. *)
Definition readNonNullOptional (field : JsValue) : JsValue :=
  getMember (getMember (getMember (getMember field "extensions") "nexus") "config")
    "nonNullOptional".

(** ** Reading values and shapes along a path *)

(** The value found in [value] by following a path of keys and indices. *)
Fixpoint valueAt (value : JsValue) (q : list string) : option JsValue :=
  match q with
  | [] => Some value
  | key :: rest =>
      match value with
      | VObject props =>
          match getProp props key with
          | Some x => valueAt x rest
          | None => None
          end
      | VArray elements =>
          match arrayIndex key with
          | Some i =>
              match elements !! i with
              | Some x => valueAt x rest
              | None => None
              end
          | None => None
          end
      | _ => None
      end
  end.

(** The field of the shape that describes the last key of a path, when
    the walk of [validate] gets there: a list keeps the shape it is walked
    with, a key of an object moves to the shape of its field. *)
Fixpoint fieldAt (h : Heap) (validationType : option loc) (value : JsValue)
  (q : list string) : option ValidationField :=
  match q with
  | [] => None
  | key :: rest =>
      match validationType with
      | None => None
      | Some vt =>
          match value with
          | VObject props =>
              let field := lookupField h vt key in
              match rest with
              | [] => field
              | _ =>
                  match getProp props key with
                  | Some x => fieldAt h (type <$> field) x rest
                  | None => None
                  end
              end
          | VArray elements =>
              match arrayIndex key with
              | Some i =>
                  match elements !! i with
                  | Some x => fieldAt h validationType x rest
                  | None => None
                  end
              | None => None
              end
          | _ => None
          end
      end
  end.

(** A value with an explicit [null] somewhere in it. *)
Fixpoint containsNull (value : JsValue) : bool :=
  match value with
  | VNull => true
  | VArray elements => existsb containsNull elements
  | VObject props => existsb (fun kv : string * JsValue => containsNull kv.2) props
  | _ => false
  end.

(** ** More invariants of the plugin state *)

(** Every shape named by a field of a stored shape is in the store. *)
Definition heapClosed (h : Heap) : Prop :=
  forall node fs key field,
    h !! node = Some {| fields := Some fs |} ->
    (key, field) ∈ fs -> type field < length h.

(** The fields of an input object type have pairwise distinct names. *)
Definition schemaWf (schema : Schema) : Prop :=
  forall name fs, schema !! name = Some (InputObjectType fs) -> NoDup fs.*1.

(** The shape at [node] has, for every flagged field of the type [name],
    an entry with the flag of the field and the cached shape of the named
    type of the field. *)
Definition completeCell (schema : Schema) (st : State) (name : string) (node : loc)
  : Prop :=
  forall fs key field,
    schema !! name = Some (InputObjectType fs) ->
    (key, field) ∈ fs ->
    flagSet (extNonNullOptional field) = true ->
    exists sub,
      validationTypeCache st !! typeName (fieldType field) = Some sub
      /\ lookupField (heap st) node key
         = Some {| config := Some {| nonNullOptional := extNonNullOptional field |};
                   type := sub |}.

(** Every cached shape is complete, but for the types in [pending], whose
    shapes are being filled. *)
Definition cacheComplete (schema : Schema) (pending : gset string) (st : State)
  : Prop :=
  forall name node,
    validationTypeCache st !! name = Some node ->
    name ∉ pending ->
    completeCell schema st name node.

(** The state between two calls of the plugin: sound, closed, and with no
    shape left to fill. *)
Definition stateOk (schema : Schema) (st : State) : Prop :=
  cacheSound schema st /\ heapClosed (heap st) /\ cacheComplete schema ∅ st.

(** The cache names objects of the store. *)
Definition cacheBounded (st : State) : Prop :=
  forall name node,
    validationTypeCache st !! name = Some node -> node < length (heap st).

(** ** Names that every object inherits *)

(** The properties of [Object.prototype]: a lookup [o[key]] or a test
    [key in o] on a plain object succeeds for them without a property of
    the object's own, and an assignment to [__proto__] sets no property. *)
Definition objectPrototypeKeys : list string :=
  ["constructor"; "hasOwnProperty"; "isPrototypeOf"; "propertyIsEnumerable";
   "toLocaleString"; "toString"; "valueOf"; "__proto__"; "__defineGetter__";
   "__defineSetter__"; "__lookupGetter__"; "__lookupSetter__"].

Definition isInherited (key : string) : bool :=
  existsb (String.eqb key) objectPrototypeKeys.

(** No field name of a shape is an inherited name. *)
Definition namesOwn (h : Heap) : bool :=
  forallb (fun cell : ValidationType =>
             match fields cell with
             | Some fs => forallb (fun kf : string * ValidationField =>
                                     negb (isInherited kf.1)) fs
             | None => true
             end) h.

(** No field of an input object type of the schema has an inherited name,
    or a type with an inherited name. *)
Definition ownNames (schema : Schema) : Prop :=
  forall name fs key field,
    schema !! name = Some (InputObjectType fs) ->
    (key, field) ∈ fs ->
    isInherited key = false /\ isInherited (typeName (fieldType field)) = false.

(** The same for the arguments of an operation. *)
Definition argsOwn (argMap : GraphQLFieldConfigArgumentMap) : Prop :=
  forall key argType,
    (key, argType) ∈ argMap ->
    isInherited key = false /\ isInherited (typeName argType) = false.

(** ** Later calls of the resolver hook *)

(** The states that calls of [onCreateFieldResolver], for any fields, lead
    to from a state. *)
Inductive hookCalls (schema : Schema) : State -> State -> Prop :=
| hookCalls_none st : hookCalls schema st st
| hookCalls_call st fuel args result st' st'' :
    onCreateFieldResolver schema fuel args st = Some (result, st') ->
    hookCalls schema st' st'' ->
    hookCalls schema st st''.

(** ** Induction on error maps *)

Section ErrorMap_nested_induction.
Variable P : ErrorMap -> Prop.
Hypothesis Hnull : P ENull.
Hypothesis Hobject :
  forall props, Forall (fun kv : string * ErrorMap => P kv.2) props ->
                P (EObject props).
Hypothesis Harray :
  forall items props,
    Forall (fun x : option ErrorMap =>
              match x with Some v => P v | None => True end) items ->
    Forall (fun kv : string * ErrorMap => P kv.2) props ->
    P (EArray items props).

Fixpoint ErrorMap_nested_ind (e : ErrorMap) : P e :=
  match e with
  | ENull => Hnull
  | EObject props =>
      Hobject props
        ((fix go (l : list (string * ErrorMap)) : Forall (fun kv => P kv.2) l :=
            match l with
            | [] => List.Forall_nil _
            | kv :: rest =>
                List.Forall_cons (fun kv => P kv.2) kv rest
                  (ErrorMap_nested_ind kv.2) (go rest)
            end) props)
  | EArray items props =>
      Harray items props
        ((fix go (l : list (option ErrorMap))
            : Forall (fun x => match x with Some v => P v | None => True end) l :=
            match l with
            | [] => List.Forall_nil _
            | x :: rest =>
                List.Forall_cons
                  (fun x => match x with Some v => P v | None => True end) x rest
                  (match x return match x with Some v => P v | None => True end with
                   | Some v => ErrorMap_nested_ind v
                   | None => I
                   end)
                  (go rest)
            end) items)
        ((fix go (l : list (string * ErrorMap)) : Forall (fun kv => P kv.2) l :=
            match l with
            | [] => List.Forall_nil _
            | kv :: rest =>
                List.Forall_cons (fun kv => P kv.2) kv rest
                  (ErrorMap_nested_ind kv.2) (go rest)
            end) props)
  end.
End ErrorMap_nested_induction.

(** ** Reading the serialized error map *)

(** The values of the JSON texts that [JSON.stringify] writes for an error
    map: [null], objects and arrays.  A hole of an array has become a
    [null] of the text. *)
#[local] Unset Elimination Schemes.

Inductive Json : Type :=
| JNull
| JObject (members : list (string * Json))
| JArray (elements : list Json).

#[local] Set Elimination Schemes.

(** What the text written for an error map denotes. *)
Fixpoint toJson (e : ErrorMap) : Json :=
  match e with
  | ENull => JNull
  | EObject props =>
      JObject (ownPropertyOrder
                 (List.map (fun kv : string * ErrorMap => (kv.1, toJson kv.2)) props))
  | EArray items _ =>
      JArray (List.map (fun x : option ErrorMap =>
                          match x with
                          | Some v => toJson v
                          | None => JNull
                          end) items)
  end.

Definition hexValue (c : ascii) : option nat :=
  let n := nat_of_ascii c in
  if Nat.leb 48 n && Nat.leb n 57 then Some (n - 48)
  else if Nat.leb 97 n && Nat.leb n 102 then Some (n - 87)
  else if Nat.leb 65 n && Nat.leb n 70 then Some (n - 55)
  else None.

(** The character that stands after a backslash, one-letter escapes. *)
Definition unescape (n : nat) : option ascii :=
  if Nat.eqb n 34 then Some (ascii_of_nat 34)
  else if Nat.eqb n 92 then Some (ascii_of_nat 92)
  else if Nat.eqb n 47 then Some (ascii_of_nat 47)
  else if Nat.eqb n 98 then Some (ascii_of_nat 8)
  else if Nat.eqb n 116 then Some (ascii_of_nat 9)
  else if Nat.eqb n 110 then Some (ascii_of_nat 10)
  else if Nat.eqb n 102 then Some (ascii_of_nat 12)
  else if Nat.eqb n 114 then Some (ascii_of_nat 13)
  else None.

Definition pushChar (c : ascii) (r : option (string * string))
  : option (string * string) :=
  match r with
  | Some (body, rest) => Some (String c body, rest)
  | None => None
  end.

(** A JSON string literal after its opening quote: the string it denotes
    and the text after its closing quote. *)
Fixpoint readString (s : string) : option (string * string) :=
  match s with
  | EmptyString => None
  | String c rest =>
      let n := nat_of_ascii c in
      if Nat.eqb n 34 then Some (EmptyString, rest)
      else if Nat.eqb n 92 then
        match rest with
        | EmptyString => None
        | String e rest1 =>
            if Nat.eqb (nat_of_ascii e) 117 then
              match rest1 with
              | String h1 (String h2 (String h3 (String h4 rest2))) =>
                  match hexValue h1, hexValue h2, hexValue h3, hexValue h4 with
                  | Some 0, Some 0, Some a, Some b =>
                      pushChar (ascii_of_nat (16 * a + b)) (readString rest2)
                  | _, _, _, _ => None
                  end
              | _ => None
              end
            else
              match unescape (nat_of_ascii e) with
              | Some d => pushChar d (readString rest1)
              | None => None
              end
        end
      else pushChar c (readString rest)
  end.

(** The members of an object after its opening brace, up to its closing
    brace; [parseValue] reads the value of a member. *)
Fixpoint parseMembers (parseValue : string -> option (Json * string))
  (n : nat) (s : string) : option (list (string * Json) * string) :=
  match n with
  | 0 => None
  | S n' =>
      match s with
      | EmptyString => None
      | String q rest =>
          if Nat.eqb (nat_of_ascii q) 34 then
            match readString rest with
            | Some (key, String colon rest1) =>
                if Nat.eqb (nat_of_ascii colon) 58 then
                  match parseValue rest1 with
                  | Some (v, String sep rest2) =>
                      if Nat.eqb (nat_of_ascii sep) 44 then
                        match parseMembers parseValue n' rest2 with
                        | Some (members, rest3) => Some ((key, v) :: members, rest3)
                        | None => None
                        end
                      else if Nat.eqb (nat_of_ascii sep) 125 then
                        Some ([(key, v)], rest2)
                      else None
                  | _ => None
                  end
                else None
            | _ => None
            end
          else None
      end
  end.

(** The elements of an array after its opening bracket, up to its closing
    bracket. *)
Fixpoint parseElements (parseValue : string -> option (Json * string))
  (n : nat) (s : string) : option (list Json * string) :=
  match n with
  | 0 => None
  | S n' =>
      match parseValue s with
      | Some (v, String sep rest) =>
          if Nat.eqb (nat_of_ascii sep) 44 then
            match parseElements parseValue n' rest with
            | Some (elements, rest1) => Some (v :: elements, rest1)
            | None => None
            end
          else if Nat.eqb (nat_of_ascii sep) 93 then Some ([v], rest)
          else None
      | _ => None
      end
  end.

(** One JSON value at the start of a text, and the text after it. *)
Fixpoint parseValue (fuel : nat) (s : string) : option (Json * string) :=
  match fuel with
  | 0 => None
  | S fuel' =>
      match s with
      | EmptyString => None
      | String c rest =>
          let n := nat_of_ascii c in
          if Nat.eqb n 110 then
            match rest with
            | String u (String l1 (String l2 rest1)) =>
                if Nat.eqb (nat_of_ascii u) 117 && Nat.eqb (nat_of_ascii l1) 108
                   && Nat.eqb (nat_of_ascii l2) 108
                then Some (JNull, rest1) else None
            | _ => None
            end
          else if Nat.eqb n 123 then
            match rest with
            | EmptyString => None
            | String c1 rest1 =>
                if Nat.eqb (nat_of_ascii c1) 125 then Some (JObject [], rest1)
                else
                  match parseMembers (parseValue fuel') fuel' rest with
                  | Some (members, rest2) => Some (JObject members, rest2)
                  | None => None
                  end
            end
          else if Nat.eqb n 91 then
            match rest with
            | EmptyString => None
            | String c1 rest1 =>
                if Nat.eqb (nat_of_ascii c1) 93 then Some (JArray [], rest1)
                else
                  match parseElements (parseValue fuel') fuel' rest with
                  | Some (elements, rest2) => Some (JArray elements, rest2)
                  | None => None
                  end
            end
          else None
      end
  end.

(** The value that a JSON text of the kind [JSON.stringify] writes for an
    error map denotes; the whole text must be read. *)
Definition JSON_parse (fuel : nat) (text : string) : option Json :=
  match parseValue fuel text with
  | Some (json, EmptyString) => Some json
  | _ => None
  end.

(** The JSON value holds [null] at a path of keys and indices. *)
Fixpoint nullAt (json : Json) (path : list string) : bool :=
  match path with
  | [] => match json with JNull => true | _ => false end
  | key :: rest =>
      match json with
      | JNull => false
      | JObject members =>
          existsb (fun kv : string * Json => String.eqb kv.1 key && nullAt kv.2 rest)
                  members
      | JArray elements =>
          match arrayIndex key with
          | Some i =>
              match elements !! i with
              | Some v => nullAt v rest
              | None => false
              end
          | None => false
          end
      end
  end.

(** ** The walk over arguments that live in the JavaScript heap *)


(** [validate] and the wrapper once more, now with the objects they touch
    in one heap: the arguments of the request are objects of the heap, the
    error map is an object of the same heap, and lodash's [set] reads the
    objects it walks through along their prototype chain, writes to them,
    and allocates the ones it makes.  Here an assignment could reach the
    arguments, and a lookup finds what every object inherits; what the
    walk leaves alone and what it loses are theorems.

    The heap holds plain objects, arrays and functions.  The prototype of
    a plain object is [Object.prototype], that of an array
    [Array.prototype] and then [Object.prototype], that of a function
    [Function.prototype] and then [Object.prototype]; the three prototype
    objects are objects of the heap, named by the realm.  Assignment
    makes or changes an own property: the properties here are writable
    data properties, so the accessor [__proto__] and the [length] of an
    array are not keys of a path (a GraphQL name does not start with two
    underscores, and the keys a walk applies to an array are indices). *)
Module InStore.

Abbreviation addr := nat.

(** A JavaScript value: a primitive, or a reference to an object. *)
Inductive SValue : Type :=
| SUndefined
| SNull
| SBool (b : bool)
| SNumber (n : Z)
| SString (s : string)
| SRef (a : addr).

(** An object of the heap with its own properties in [Object.keys] order:
    a plain object, an array with its elements, some of which may be
    holes, or a function. *)
Inductive SObject : Type :=
| SPlain (props : list (string * SValue))
| SArr (items : list (option SValue)) (props : list (string * SValue))
| SFunction (props : list (string * SValue)).

Abbreviation JsStore := (list SObject).

(** Where the heap has [Object.prototype], [Array.prototype] and
    [Function.prototype]. *)
Record Realm := {
  objectPrototype : addr;
  arrayPrototype : addr;
  functionPrototype : addr
}.

Definition truthy (value : SValue) : bool :=
  match value with
  | SUndefined | SNull => false
  | SBool b => b
  | SNumber n => negb (n =? 0)%Z
  | SString s => negb (String.eqb s EmptyString)
  | SRef _ => true
  end.

Definition isNull (value : SValue) : bool :=
  match value with SNull => true | _ => false end.

(** lodash's [isObject]: an object or a function. *)
Definition isObject (value : SValue) : bool :=
  match value with SRef _ => true | _ => false end.

(** The own property of the object at [a], when it has one of that name. *)
Definition ownProperty (σ : JsStore) (a : addr) (key : string) : option SValue :=
  match σ !! a with
  | Some (SPlain props) | Some (SFunction props) => getProp props key
  | Some (SArr items props) =>
      match arrayIndex key with
      | Some i => mjoin (items !! i)
      | None => getProp props key
      end
  | None => None
  end.

(** [o[key]] for the object at [a]: the own property, or else the
    property of that name found along the prototype chain, or else
    [undefined]. *)
Definition getKey (realm : Realm) (σ : JsStore) (a : addr) (key : string)
  : SValue :=
  match ownProperty σ a key with
  | Some v => v
  | None =>
      match σ !! a with
      | Some (SPlain _) =>
          if Nat.eqb a (objectPrototype realm) then SUndefined
          else default SUndefined (ownProperty σ (objectPrototype realm) key)
      | Some (SArr _ _) =>
          match ownProperty σ (arrayPrototype realm) key with
          | Some v => v
          | None => default SUndefined (ownProperty σ (objectPrototype realm) key)
          end
      | Some (SFunction _) =>
          match ownProperty σ (functionPrototype realm) key with
          | Some v => v
          | None => default SUndefined (ownProperty σ (objectPrototype realm) key)
          end
      | None => SUndefined
      end
  end.

(** [arr[i] = v]: the array grows to hold index [i], leaving holes. *)
Definition setItem (items : list (option SValue)) (i : nat) (v : SValue)
  : list (option SValue) :=
  if decide (i < length items) then <[i := Some v]> items
  else items ++ replicate (i - length items) None ++ [Some v].

(** [assignValue(object, key, value)]: [object[key] = value], an own
    property of the object. *)
Definition assignValue (σ : JsStore) (object : addr) (key : string)
  (value : SValue) : JsStore :=
  match σ !! object with
  | Some (SPlain props) => <[object := SPlain (setProp props key value)]> σ
  | Some (SFunction props) => <[object := SFunction (setProp props key value)]> σ
  | Some (SArr items props) =>
      match arrayIndex key with
      | Some i => <[object := SArr (setItem items i value) props]> σ
      | None => <[object := SArr items (setProp props key value)]> σ
      end
  | None => σ
  end.

(** lodash's [baseSet], from the object at [nested]: at a key that is not
    the last it keeps the object or function it finds there, own or
    inherited, and puts a new array or object elsewhere, assigns it, and
    continues in it; at the last key it assigns the value. *)
Fixpoint baseSet (realm : Realm) (σ : JsStore) (nested : addr)
  (path : list string) (value : SValue) : JsStore :=
  match path with
  | [] => σ
  | key :: rest =>
      match rest with
      | [] => assignValue σ nested key value
      | next :: _ =>
          match getKey realm σ nested key with
          | SRef objValue =>
              baseSet realm (assignValue σ nested key (SRef objValue))
                objValue rest value
          | _ =>
              let newValue := length σ in
              let σ := σ ++ [if isIndex next then SArr [] [] else SPlain []] in
              baseSet realm (assignValue σ nested key (SRef newValue))
                newValue rest value
          end
      end
  end.

(** [set(object, path, value)] *)
Definition set (realm : Realm) (σ : JsStore) (object : SValue)
  (path : list string) (value : SValue) : JsStore :=
  match object with
  | SRef a => baseSet realm σ a path value
  | _ => σ
  end.

(** [array.forEach] visits the indices below the length the array had at
    the start, and [Object.keys(o).forEach] the keys the object had at
    the start; the callback runs on the heap as it is by then. *)
Fixpoint forEachIndex (f : nat -> JsStore -> option JsStore) (n index : nat)
  (σ : JsStore) : option JsStore :=
  match n with
  | 0 => Some σ
  | S n' =>
      match f index σ with
      | Some σ' => forEachIndex f n' (S index) σ'
      | None => None
      end
  end.

Fixpoint forEachKey (f : string -> JsStore -> option JsStore)
  (keys : list string) (σ : JsStore) : option JsStore :=
  match keys with
  | [] => Some σ
  | key :: rest =>
      match f key σ with
      | Some σ' => forEachKey f rest σ'
      | None => None
      end
  end.

(** The element of the array at [a] at an index, unless it is a hole. *)
Definition element (σ : JsStore) (a : addr) (index : nat) : option SValue :=
  match σ !! a with
  | Some (SArr items _) => mjoin (items !! index)
  | _ => None
  end.

(** [validate(value, validationType, path, errorMap)]; the recursion
    follows the references of the heap, so it takes fuel.  A function is
    not an array and its [typeof] is not [object]. *)
Fixpoint validate (fuel : nat) (realm : Realm) (h : Heap) (value : SValue)
  (validationType : option loc) (path : list string) (errorMap : SValue)
  (σ : JsStore) : option JsStore :=
  match fuel with
  | 0 => None
  | S fuel' =>
      match validationType with
      | Some vt =>
          if truthy value then
            match value with
            | SRef a =>
                match σ !! a with
                | Some (SArr items _) =>
                    forEachIndex
                      (fun index σ =>
                         match element σ a index with
                         | Some subValue =>
                             validate fuel' realm h subValue validationType
                               (path ++ [toString index]) errorMap σ
                         | None => Some σ
                         end)
                      (length items) 0 σ
                | Some (SPlain props) =>
                    forEachKey
                      (fun key σ =>
                         let subValue := getKey realm σ a key in
                         let subValidationField := lookupField h vt key in
                         let subPath := path ++ [key] in
                         let σ :=
                           if isNull subValue && flagged subValidationField
                           then set realm σ errorMap subPath SNull
                           else σ in
                         validate fuel' realm h subValue
                           (type <$> subValidationField) subPath errorMap σ)
                      props.*1 σ
                | _ => Some σ
                end
            | _ => Some σ
            end
          else Some σ
      | None => Some σ
      end
  end.

(** The error map that [JSON.stringify] sees at a reference: a property
    whose value is a function is left out, an element that is a function
    is written like a hole. *)
Fixpoint readErrorMap (fuel : nat) (σ : JsStore) (value : SValue)
  : option ErrorMap :=
  match fuel with
  | 0 => None
  | S fuel' =>
      let isFunction (x : SValue) : bool :=
        match x with
        | SRef a => match σ !! a with Some (SFunction _) => true | _ => false end
        | _ => false
        end in
      let readProps :=
        fix go (props : list (string * SValue)) : option (list (string * ErrorMap)) :=
          match props with
          | [] => Some []
          | (key, x) :: rest =>
              if isFunction x then go rest
              else
                match readErrorMap fuel' σ x, go rest with
                | Some e, Some es => Some ((key, e) :: es)
                | _, _ => None
                end
          end in
      let readItems :=
        fix go (items : list (option SValue)) : option (list (option ErrorMap)) :=
          match items with
          | [] => Some []
          | None :: rest => (None ::.) <$> go rest
          | Some x :: rest =>
              if isFunction x then (None ::.) <$> go rest
              else
                match readErrorMap fuel' σ x, go rest with
                | Some e, Some es => Some (Some e :: es)
                | _, _ => None
                end
          end in
      match value with
      | SNull => Some ENull
      | SRef a =>
          match σ !! a with
          | Some (SPlain props) => EObject <$> readProps props
          | Some (SArr items props) =>
              match readItems items, readProps props with
              | Some es, Some ps => Some (EArray es ps)
              | _, _ => None
              end
          | _ => None
          end
      | _ => None
      end
  end.

(** [Object.keys(o).length] for the object at a reference. *)
Definition keyCount (σ : JsStore) (value : SValue) : nat :=
  match value with
  | SRef a =>
      match σ !! a with
      | Some (SPlain props) | Some (SFunction props) => length props
      | Some (SArr items props) => length (omap id items) + length props
      | None => 0
      end
  | _ => 0
  end.

(** What a call of the wrapper does, with the heap it leaves. *)
Inductive ResolverResult (Root Ctx Info Res : Type) : Type :=
| Thrown (message : string)
| Continued (root : Root) (args : SValue) (ctx : Ctx) (info : Info) (result : Res).

Arguments Thrown {Root Ctx Info Res} message.
Arguments Continued {Root Ctx Info Res} root args ctx info result.

(** The wrapper: [const errorMap = {}] is a new object of the heap; the
    continuation runs on the heap that the walk has left. *)
Definition fieldResolver {Root Ctx Info Res : Type} (fuel : nat) (realm : Realm)
  (h : Heap) (argsValidationType : loc) (root : Root) (args : SValue) (ctx : Ctx)
  (info : Info) (next : Root -> SValue -> Ctx -> Info -> JsStore -> Res)
  (σ : JsStore) : option (ResolverResult Root Ctx Info Res * JsStore) :=
  let errorMap := SRef (length σ) in
  let σ := σ ++ [SPlain []] in
  match validate fuel realm h args (Some argsValidationType) ["args"] errorMap σ with
  | Some σ' =>
      if (0 <? keyCount σ' errorMap)%nat then
        match readErrorMap fuel σ' errorMap with
        | Some e => Some (Thrown (violationMessage e), σ')
        | None => None
        end
      else Some (Continued root args ctx info (next root args ctx info σ'), σ')
  | None => None
  end.

(** The value at [v] in the heap is the tree [t], made of objects at or
    above [b]: the arguments of a request are such a tree, above the
    objects of the realm. *)
#[local] Unset Elimination Schemes.

Inductive represents (b : addr) (σ : JsStore) : SValue -> JsValue -> Prop :=
| represents_undefined : represents b σ SUndefined VUndefined
| represents_null : represents b σ SNull VNull
| represents_bool x : represents b σ (SBool x) (VBool x)
| represents_number n : represents b σ (SNumber n) (VNumber n)
| represents_string s : represents b σ (SString s) (VString s)
| represents_array a items props elements :
    b <= a ->
    σ !! a = Some (SArr items props) ->
    Forall2 (fun x t => exists v, x = Some v /\ represents b σ v t) items elements ->
    represents b σ (SRef a) (VArray elements)
| represents_object a sprops props :
    b <= a ->
    σ !! a = Some (SPlain sprops) ->
    Forall2 (fun (skv : string * SValue) (tkv : string * JsValue) =>
               skv.1 = tkv.1 /\ represents b σ skv.2 tkv.2) sprops props ->
    represents b σ (SRef a) (VObject props).

#[local] Set Elimination Schemes.

(** A reference that stays clear of the objects from [b] up to [n], which
    are the arguments. *)
Definition refsAround (b n : nat) (σ : JsStore) (value : SValue) : Prop :=
  match value with
  | SRef a => (a < b \/ n <= a) /\ a < length σ
  | _ => True
  end.

Definition cellRefs (b n : nat) (σ : JsStore) (cell : SObject) : Prop :=
  match cell with
  | SPlain props | SFunction props =>
      forall key v, (key, v) ∈ props -> refsAround b n σ v
  | SArr items props =>
      (forall v, Some v ∈ items -> refsAround b n σ v)
      /\ (forall key v, (key, v) ∈ props -> refsAround b n σ v)
  end.

(** The prototype objects are below [b]. *)
Definition realmBelow (realm : Realm) (b : nat) : Prop :=
  objectPrototype realm < b /\ arrayPrototype realm < b
  /\ functionPrototype realm < b.

(** The objects of the realm are the objects below [b], and none of them
    refers to an object from [b] up. *)
Definition realmOk (realm : Realm) (b : nat) (σ : JsStore) : Prop :=
  realmBelow realm b /\ b <= length σ
  /\ forall a cell, a < b -> σ !! a = Some cell -> cellRefs b (length σ) σ cell.



(** Where an example heap has its prototype objects. *)
Definition exampleRealm : Realm :=
  {| objectPrototype := 0; arrayPrototype := 2; functionPrototype := 3 |}.

(** A heap with the objects of a realm: [Object.prototype] with its
    properties [constructor] and [hasOwnProperty], the function [Object]
    with its own property [prototype], [Array.prototype],
    [Function.prototype] and the function [hasOwnProperty]. *)
Definition exampleRealmObjects : JsStore :=
  [ SPlain [("constructor", SRef 1); ("hasOwnProperty", SRef 4)];
    SFunction [("prototype", SRef 0)];
    SPlain [];
    SFunction [];
    SFunction [] ].

End InStore.

(** A schema with fields named like properties that every object
    inherits: [Outer] has the flagged fields [constructor], an [Inner],
    and [hasOwnProperty], a list of [Inner]; [Inner] has a flagged field
    [x]. *)
Definition inheritedNameSchema : Schema :=
  <[ "Outer" :=
       InputObjectType
         [("constructor", {| fieldType := NamedType "Inner";
                             extNonNullOptional := Some true |});
          ("hasOwnProperty", {| fieldType := ListType (NamedType "Inner");
                                extNonNullOptional := Some true |})] ]>
  {[ "Inner" :=
       InputObjectType
         [("x", {| fieldType := NamedType "String";
                   extNonNullOptional := Some true |})] ]}.

(** The shapes that the resolver hook compiles for an operation with the
    one argument [input : Outer] of that schema: cell 4 is the shape of
    the arguments, cell 0 that of [Outer], cell 1 that of [Inner]. *)
Definition inheritedNameShapes : Heap :=
  [ {| fields :=
         Some [("constructor", {| config := Some {| nonNullOptional := Some true |};
                                  type := 1 |});
               ("hasOwnProperty", {| config := Some {| nonNullOptional := Some true |};
                                     type := 1 |})] |};
    {| fields :=
         Some [("x", {| config := Some {| nonNullOptional := Some true |};
                        type := 2 |})] |};
    {| fields := None |};
    {| fields := None |};
    {| fields := Some [("input", {| config := None; type := 0 |})] |} ].

(** The arguments [{input: {constructor: {x: null}}}] as objects of a
    heap, the first of them at [b]. *)
Definition constructorArgs (b : nat) : InStore.JsStore :=
  [ InStore.SPlain [("input", InStore.SRef (b + 1))];
    InStore.SPlain [("constructor", InStore.SRef (b + 2))];
    InStore.SPlain [("x", InStore.SNull)] ].

(** The arguments [{input: {hasOwnProperty: [{x: 1}, {x: null}]}}] as
    objects of a heap, the first of them at [b]. *)
Definition hasOwnPropertyArgs (b : nat) : InStore.JsStore :=
  [ InStore.SPlain [("input", InStore.SRef (b + 1))];
    InStore.SPlain [("hasOwnProperty", InStore.SRef (b + 2))];
    InStore.SArr [Some (InStore.SRef (b + 3)); Some (InStore.SRef (b + 4))] [];
    InStore.SPlain [("x", InStore.SNumber 1)];
    InStore.SPlain [("x", InStore.SNull)] ].

(** * Properties *)

(** ** The walk as a list of [set] calls *)

Lemma forEachIndexed_collect {A B : Type} (g : nat -> A -> list B)
  (xs : list A) (index : nat) (acc : list B) :
  forEachIndexed (fun x i acc => acc ++ g i x) xs index acc
  = acc ++ mjoin (imap (fun j x => g (index + j) x) xs).
Proof.
  revert index acc. induction xs as [|x xs IH]; intros index acc; simpl.
  - by rewrite app_nil_r.
  - rewrite IH, Nat.add_0_r, <- app_assoc. do 3 f_equal.
    apply imap_ext. intros j y _. simpl. f_equal. lia.
Qed.

Lemma forEachKey_collect {A B : Type} (g : string -> A -> list B)
  (props : list (string * A)) (acc : list B) :
  forEachKey (fun key x acc => acc ++ g key x) props acc
  = acc ++ mjoin ((fun kv => g kv.1 kv.2) <$> props).
Proof.
  revert acc. induction props as [|[key x] props IH]; intros acc; simpl.
  - by rewrite app_nil_r.
  - by rewrite IH, <- app_assoc.
Qed.

Lemma forEachIndexed_fold {A B St : Type} (step : St -> B -> St)
  (f : A -> nat -> St -> St) (g : nat -> A -> list B)
  (xs : list A) (index : nat) (s : St) :
  Forall (fun x => forall i s, f x i s = fold_left step (g i x) s) xs ->
  forEachIndexed f xs index s
  = fold_left step (mjoin (imap (fun j x => g (index + j) x) xs)) s.
Proof.
  intros H. revert index s. induction H as [|x xs Hx _ IH]; intros index s; simpl.
  - done.
  - rewrite IH, Hx, fold_left_app, Nat.add_0_r. do 2 f_equal.
    apply imap_ext. intros j y _. simpl. f_equal. lia.
Qed.

Lemma forEachKey_fold {A B St : Type} (step : St -> B -> St)
  (f : string -> A -> St -> St) (g : string -> A -> list B)
  (props : list (string * A)) (s : St) :
  Forall (fun kv => forall k s, f k kv.2 s = fold_left step (g k kv.2) s) props ->
  forEachKey f props s
  = fold_left step (mjoin ((fun kv => g kv.1 kv.2) <$> props)) s.
Proof.
  intros H. revert s. induction H as [|[key x] props Hx _ IH]; intros s; simpl.
  - done.
  - by rewrite IH, Hx, fold_left_app.
Qed.

Lemma fmap_join {A B : Type} (f : A -> B) (ls : list (list A)) :
  f <$> mjoin ls = mjoin (fmap f <$> ls).
Proof.
  induction ls as [|l ls IH]; simpl; [done|]. by rewrite fmap_app, IH.
Qed.

Lemma relViolations_array h elements vt :
  relViolations h (VArray elements) (Some vt)
  = mjoin (imap (fun index subValue =>
                   (toString index ::.) <$> relViolations h subValue (Some vt))
                elements).
Proof.
  exact (forEachIndexed_collect
           (fun index subValue =>
              (toString index ::.) <$> relViolations h subValue (Some vt))
           elements 0 []).
Qed.

Lemma relViolations_object h props vt :
  relViolations h (VObject props) (Some vt)
  = mjoin ((fun kv => keyViolations h vt kv.1 kv.2) <$> props).
Proof.
  exact (forEachKey_collect (keyViolations h vt) props []).
Qed.

Lemma relViolations_falsy h value validationType :
  truthy value = false -> relViolations h value validationType = [].
Proof. intros H. destruct validationType, value; simpl in *; by try rewrite H. Qed.

Lemma relViolations_no_shape h value : relViolations h value None = [].
Proof. by destruct value. Qed.

Lemma violations_array h elements vt path :
  violations h (VArray elements) (Some vt) path
  = mjoin (imap (fun index subValue =>
                   violations h subValue (Some vt) (path ++ [toString index]))
                elements).
Proof.
  unfold violations. rewrite relViolations_array, fmap_join, fmap_imap.
  f_equal. apply imap_ext. intros i x _. simpl.
  rewrite <- list_fmap_compose. apply list_fmap_ext. intros _ q _. simpl.
  by rewrite <- app_assoc.
Qed.

Lemma violations_object h props vt path :
  violations h (VObject props) (Some vt) path
  = mjoin ((fun kv =>
              (if isNull kv.2 && flagged (lookupField h vt kv.1)
               then [path ++ [kv.1]] else [])
              ++ violations h kv.2 (type <$> lookupField h vt kv.1)
                   (path ++ [kv.1])) <$> props).
Proof.
  unfold violations. rewrite relViolations_object, fmap_join, <- list_fmap_compose.
  f_equal. apply list_fmap_ext. intros _ [k x] _. simpl. unfold keyViolations.
  rewrite fmap_app. f_equal.
  - by destruct (isNull x && flagged (lookupField h vt k)).
  - rewrite <- list_fmap_compose. apply list_fmap_ext. intros _ q _. simpl.
    by rewrite <- app_assoc.
Qed.

(** All that [validate] does is call [set] at the violations it finds, in
    order, on the error map it was given. *)
Lemma validate_violations h value :
  forall validationType path errorMap,
    validate h value validationType path errorMap
    = fold_left (fun em p => set em p ENull)
                (violations h value validationType path) errorMap.
Proof.
  induction value as [| | b | n | s | elements IH | props IH]
    using JsValue_nested_ind; intros [vt|] path errorMap;
    try (unfold violations; simpl; repeat case_match; done).
  - rewrite violations_array. simpl.
    rewrite (forEachIndexed_fold (fun em p => set em p ENull) _
               (fun index subValue =>
                  violations h subValue (Some vt) (path ++ [toString index]))).
    + done.
    + eapply Forall_impl; [exact IH|]. intros x Hx i s. apply Hx.
  - rewrite violations_object. simpl.
    rewrite (forEachKey_fold (fun em p => set em p ENull) _
               (fun key subValue =>
                  (if isNull subValue && flagged (lookupField h vt key)
                   then [path ++ [key]] else [])
                  ++ violations h subValue (type <$> lookupField h vt key)
                       (path ++ [key]))).
    + done.
    + eapply Forall_impl; [exact IH|]. intros [k x] Hx k' s. simpl in *.
      rewrite fold_left_app, Hx.
      by destruct (isNull x && flagged (lookupField h vt k')).
Qed.

(** ** Where violations are recorded *)

Lemma relViolations_cons h value validationType q :
  q ∈ relViolations h value validationType -> exists key rest, q = key :: rest.
Proof.
  destruct validationType as [vt|]; [|by rewrite relViolations_no_shape; inversion 1].
  destruct value; try (simpl; repeat case_match; by inversion 1).
  - rewrite relViolations_array. intros Hq.
    apply list_elem_of_join in Hq as (l & Hq & Hl).
    apply elem_of_lookup_imap in Hl as (i & x & -> & _).
    apply list_elem_of_fmap in Hq as (r & -> & _). eauto.
  - rewrite relViolations_object. intros Hq.
    apply list_elem_of_join in Hq as (l & Hq & Hl).
    apply list_elem_of_fmap in Hl as ([k x] & -> & _).
    unfold keyViolations in Hq. simpl in Hq.
    apply elem_of_app in Hq as [Hq|Hq].
    + destruct (isNull x && flagged _); [|by inversion Hq].
      apply list_elem_of_singleton in Hq as ->. eauto.
    + apply list_elem_of_fmap in Hq as (r & -> & _). eauto.
Qed.

Lemma keyViolations_head h vt key subValue q :
  q ∈ keyViolations h vt key subValue -> exists rest, q = key :: rest.
Proof.
  unfold keyViolations. intros Hq. apply elem_of_app in Hq as [Hq|Hq].
  - destruct (isNull subValue && flagged _); [|by inversion Hq].
    apply list_elem_of_singleton in Hq as ->. eauto.
  - apply list_elem_of_fmap in Hq as (r & -> & _). eauto.
Qed.

Lemma keyViolations_here h vt key subValue :
  [key] ∈ keyViolations h vt key subValue
  <-> subValue = VNull /\ flagged (lookupField h vt key) = true.
Proof.
  unfold keyViolations. rewrite elem_of_app. split.
  - intros [Hq|Hq].
    + destruct (isNull subValue) eqn:Hn; simpl in Hq; [|by inversion Hq].
      destruct (flagged _) eqn:Hf; [|by inversion Hq].
      by destruct subValue.
    + apply list_elem_of_fmap in Hq as (r & Hr & Hin).
      injection Hr as <-. by apply relViolations_cons in Hin as (? & ? & ?).
  - intros [-> ->]. left. simpl. by apply list_elem_of_singleton.
Qed.

Lemma object_violation_here h vt props key :
  [key] ∈ relViolations h (VObject props) (Some vt)
  <-> (key, VNull) ∈ props /\ flagged (lookupField h vt key) = true.
Proof.
  rewrite relViolations_object, list_elem_of_join. split.
  - intros (l & Hq & Hl).
    apply list_elem_of_fmap in Hl as ([k x] & -> & Hin). simpl in Hq.
    destruct (keyViolations_head _ _ _ _ _ Hq) as (r & Hr). injection Hr as <- _.
    apply keyViolations_here in Hq as [-> Hf]. done.
  - intros [Hin Hf]. exists (keyViolations h vt key VNull). split.
    + by apply keyViolations_here.
    + apply list_elem_of_fmap. by exists (key, VNull).
Qed.

Lemma NoDup_keys_lookup {A : Type} (props : list (string * A)) key x y :
  NoDup props.*1 -> (key, x) ∈ props -> (key, y) ∈ props -> x = y.
Proof.
  induction props as [|[k v] props IH]; simpl; [by inversion 2|].
  rewrite NoDup_cons. intros [Hk Hnd] Hx Hy.
  apply elem_of_cons in Hx as [Hx|Hx]; apply elem_of_cons in Hy as [Hy|Hy].
  - congruence.
  - injection Hx as <- <-. exfalso. apply Hk.
    apply list_elem_of_fmap. by exists (key, y).
  - injection Hy as <- <-. exfalso. apply Hk.
    apply list_elem_of_fmap. by exists (key, x).
  - by apply IH.
Qed.

Lemma object_violation_at_key h vt props path key :
  path ++ [key] ∈ violations h (VObject props) (Some vt) path
  <-> (key, VNull) ∈ props /\ flagged (lookupField h vt key) = true.
Proof.
  rewrite <- object_violation_here.
  unfold violations. rewrite list_elem_of_fmap. split.
  - intros (q & Hq & Hin). by apply app_inv_head in Hq as <-.
  - intros Hin. by exists [key].
Qed.

(** C10: a key bound to anything but [null] records no violation at its
    path, whatever the flag of its field; when the value is falsy the walk
    does not go below the key either, and leaves the error map as it is. *)
Theorem validate_only_null_is_a_violation h vt props path key value :
  NoDup props.*1 ->
  (key, value) ∈ props ->
  value <> VNull ->
  (path ++ [key] ∉ violations h (VObject props) (Some vt) path)
  /\ (truthy value = false ->
      (forall p, p ∈ violations h (VObject props) (Some vt) path ->
                 ~ (path ++ [key]) `prefix_of` p)
      /\ (forall validationType subPath errorMap,
             validate h value validationType subPath errorMap = errorMap)).
Proof.
  intros Hnd Hin Hnull. split.
  - intros Hv.
    apply object_violation_at_key in Hv as [Hv _].
    by rewrite (NoDup_keys_lookup _ _ _ _ Hnd Hin Hv) in Hnull.
  - intros Hfalsy. split.
    + intros p Hp [r Hr]. unfold violations in Hp.
      apply list_elem_of_fmap in Hp as (q & -> & Hq).
      rewrite <- app_assoc in Hr. apply app_inv_head in Hr. simpl in Hr.
      rewrite relViolations_object in Hq.
      apply list_elem_of_join in Hq as (l & Hq & Hl).
      apply list_elem_of_fmap in Hl as ([k x] & -> & Hkx). simpl in Hq.
      destruct (keyViolations_head _ _ _ _ _ Hq) as (r' & ->).
      injection Hr as -> ->.
      rewrite (NoDup_keys_lookup _ _ _ _ Hnd Hkx Hin) in Hq.
      unfold keyViolations in Hq.
      rewrite (relViolations_falsy _ _ _ Hfalsy) in Hq.
      destruct value; try done; simpl in Hq; by inversion Hq.
    + intros validationType subPath errorMap. rewrite validate_violations.
      unfold violations. by rewrite (relViolations_falsy _ _ _ Hfalsy).
Qed.

Lemma validate_only_null_is_a_violation_witness :
  NoDup [("a", VBool false)].*1
  /\ ("a", VBool false) ∈ [("a", VBool false)]
  /\ VBool false <> VNull
  /\ (["args"; "a"]
        ∉ violations shapeAB (VObject [("a", VBool false)]) (Some 0) ["args"]).
Proof.
  assert (Hnd : NoDup [("a", VBool false)].*1) by (vm_compute; apply NoDup_singleton).
  assert (Hin : ("a", VBool false) ∈ [("a", VBool false)]) by apply list_elem_of_here.
  assert (Hne : VBool false <> VNull) by discriminate.
  repeat split; try assumption.
  exact (proj1 (validate_only_null_is_a_violation shapeAB 0 _ ["args"] "a" _
                  Hnd Hin Hne)).
Defined.

Lemma parseUint_decimal n : parseUint (decimal n) = Some n.
Proof.
  unfold parseUint, decimal. rewrite NilEmpty.usu, DecimalN.Unsigned.of_to.
  by rewrite String.eqb_refl.
Qed.

Lemma parseUint_Some s n : parseUint s = Some n -> s = decimal n.
Proof.
  unfold parseUint. destruct (NilEmpty.uint_of_string s) as [d|]; [|done].
  destruct (String.eqb_spec (decimal (N.of_uint d)) s); [|done]. congruence.
Qed.

(** C7: walking a list, [validate] walks every element against the same
    shape, with the path extended by the decimal numeral of the element's
    index.  The list [[{a: null}, {a: "x"}]] against the shape flagging [a]
    gives one violation, at [args.0.a]. *)
Theorem validate_list_walks_elements_by_index :
  (forall h elements vt path errorMap,
      validate h (VArray elements) (Some vt) path errorMap
      = forEachIndexed
          (fun subValue index errorMap =>
             validate h subValue (Some vt) (path ++ [toString index]) errorMap)
          elements 0 errorMap)
  /\ (forall h elements vt path,
         violations h (VArray elements) (Some vt) path
         = mjoin (imap (fun index subValue =>
                          violations h subValue (Some vt) (path ++ [toString index]))
                       elements))
  /\ (forall index, parseUint (toString index) = Some (N.of_nat index))
  /\ toString 0 = "0" /\ toString 10 = "10"
  /\ violations shapeAB
       (VArray [VObject [("a", VNull)]; VObject [("a", VString "x")]])
       (Some 0) ["args"]
     = [["args"; "0"; "a"]]
  /\ validate shapeAB
       (VArray [VObject [("a", VNull)]; VObject [("a", VString "x")]])
       (Some 0) ["args"] (EObject [])
     = EObject [("args", EArray [Some (EObject [("a", ENull)])] [])].
Proof.
  split; [done|]. split; [apply violations_array|].
  split; [intros index; apply parseUint_decimal|]. by vm_compute.
Qed.

(** ** The shape compiler: how a run changes the state *)

Lemma extends_refl st : extends st st.
Proof. repeat split; [done|done|]. intros name node H. by left. Qed.

Lemma extends_trans st1 st2 st3 : extends st1 st2 -> extends st2 st3 -> extends st1 st3.
Proof.
  intros (Hc1 & Hh1 & Hn1) (Hc2 & Hh2 & Hn2). repeat split.
  - by etrans.
  - by etrans.
  - intros name node H. destruct (Hn2 _ _ H) as [H2|H2].
    + by apply Hn1.
    + right. apply prefix_length in Hh1. lia.
Qed.

Lemma extends_alloc o st l st' : alloc o st = Some (l, st') -> extends st st'.
Proof.
  intros [= <- <-]. repeat split; simpl; [done| by apply prefix_app_r |].
  intros name node H. by left.
Qed.

Lemma prefix_insert_ge {A : Type} (l0 l : list A) i x :
  l0 `prefix_of` l -> length l0 <= i -> l0 `prefix_of` <[i := x]> l.
Proof.
  intros [k ->] Hi. exists (<[i - length l0 := x]> k).
  by rewrite insert_app_r_alt.
Qed.

(** Steps of the mapper on the node it was given keep what came before
    the node. *)
Lemma extends_initFields st0 st node st' :
  extends st0 st -> length (heap st0) <= node ->
  initFields node st = Some (tt, st') -> extends st0 st'.
Proof.
  intros (Hc & Hh & Hn) Hnode [= <-]. repeat split; simpl; try done.
  by apply prefix_insert_ge.
Qed.

Lemma extends_assignField st0 st node key field st' :
  extends st0 st -> length (heap st0) <= node ->
  assignField node key field st = Some (tt, st') -> extends st0 st'.
Proof.
  intros (Hc & Hh & Hn) Hnode [= <-]. repeat split; simpl; try done.
  by apply prefix_insert_ge.
Qed.

Lemma forEachM_inv {A : Type} (I : State -> Prop) (f : string -> A -> M unit)
  (props : list (string * A)) :
  (forall key x st st', (key, x) ∈ props -> I st -> f key x st = Some (tt, st') -> I st') ->
  forall st st', I st -> forEachM f props st = Some (tt, st') -> I st'.
Proof.
  induction props as [|[key x] props IH]; intros Hf st st' HI; simpl.
  - by intros [= <-].
  - unfold mbind, M_bind. destruct (f key x st) as [[[] st1]|] eqn:Hfx; [|done].
    apply IH.
    + intros k y s s' Hin. apply Hf. by right.
    + eapply Hf; [|exact HI|exact Hfx]. by left.
Qed.

Lemma forEachM_total {A : Type} (I : State -> Prop) (f : string -> A -> M unit)
  (props : list (string * A)) :
  (forall key x st, (key, x) ∈ props -> I st ->
                    exists st', f key x st = Some (tt, st') /\ I st') ->
  forall st, I st -> exists st', forEachM f props st = Some (tt, st') /\ I st'.
Proof.
  induction props as [|[key x] props IH]; intros Hf st HI; simpl.
  - by exists st.
  - unfold mbind, M_bind.
    destruct (Hf key x st) as (st1 & -> & HI1); [by left|done|].
    apply IH; [|done]. intros k y s Hin. apply Hf. by right.
Qed.

(** A run of [getValidationType] extends the state, and its result is the
    cache entry of the named type under the wrappers. *)
Lemma getValidationType_extends schema fuel :
  forall type st node st',
    getValidationType schema fuel type st = Some (node, st') ->
    extends st st' /\ validationTypeCache st' !! typeName type = Some node.
Proof.
  induction fuel as [|fuel IH]; intros type st node st'; [done|].
  simpl. unfold cacheEnhancer.
  destruct type as [name|ofType|ofType].
  - (* a named type *)
    unfold mbind, M_bind, cacheLookup. simpl.
    destruct (validationTypeCache st !! name) as [cached|] eqn:Hcache.
    { intros [= <- <-]. split; [apply extends_refl|done]. }
    unfold validationMapper. simpl.
    set (st2 := {| heap := heap st ++ [{| fields := None |}];
                   validationTypeCache :=
                     <[name := length (heap st)]> (validationTypeCache st) |}).
    assert (Hst2 : extends st st2).
    { repeat split; simpl.
      - by apply insert_subseteq.
      - by apply prefix_app_r.
      - intros m l. destruct (decide (name = m)) as [->|Hne].
        + rewrite lookup_insert_eq. intros [= <-]. by right.
        + rewrite lookup_insert_ne by done. by left. }
    assert (Hname : validationTypeCache st2 !! name = Some (length (heap st)))
      by apply lookup_insert_eq.
    destruct (schema !! name) as [[fs|]|]; try (intros [= <- <-]; done).
    destruct (0 <? length _)%nat; [|intros [= <- <-]; done].
    unfold mbind, M_bind. simpl.
    match goal with |- context [forEachM ?f ?l ?s] =>
      destruct (forEachM f l s) as [[[] st3]|] eqn:Hloop; [|done] end.
    intros [= <- <-].
    eapply (forEachM_inv
              (fun s => extends st s
                        /\ validationTypeCache s !! name = Some (length (heap st))))
      in Hloop; [done| |].
    + intros key x s s' _ [Hs Hn]. unfold mbind, M_bind.
      destruct (getValidationType schema fuel (fieldType x) s)
        as [[sub s1]|] eqn:Hsub; [|done].
      intros Hassign. apply IH in Hsub as [Hs1 _].
      split.
      * eapply extends_assignField; [|done|exact Hassign].
        by eapply extends_trans.
      * injection Hassign as <-. simpl.
        destruct Hs1 as (Hc & _). by eapply lookup_weaken.
    + split; [|done]. eapply extends_initFields; [exact Hst2| |done].
      done.
  - (* a list *)
    unfold mbind, M_bind, alloc, validationMapper. simpl.
    intros H. apply IH in H as [H1 H2]. split; [|done].
    eapply extends_trans; [|exact H1]. by eapply extends_alloc.
  - (* a non-null type *)
    unfold mbind, M_bind, alloc, validationMapper. simpl.
    intros H. apply IH in H as [H1 H2]. split; [|done].
    eapply extends_trans; [|exact H1]. by eapply extends_alloc.
Qed.

(** ** More fuel gives the same result *)

Lemma forEachM_mono {A : Type} (f g : string -> A -> M unit)
  (props : list (string * A)) :
  (forall key x st r, f key x st = Some r -> g key x st = Some r) ->
  forall st r, forEachM f props st = Some r -> forEachM g props st = Some r.
Proof.
  intros Hfg. induction props as [|[key x] props IH]; intros st r; simpl; [done|].
  unfold mbind, M_bind. destruct (f key x st) as [[[] st1]|] eqn:Hf; [|done].
  rewrite (Hfg _ _ _ _ Hf). apply IH.
Qed.

Lemma validationMapper_mono schema (g1 g2 : GraphQLInputType -> M loc) :
  (forall type st r, g1 type st = Some r -> g2 type st = Some r) ->
  forall type node st r,
    validationMapper schema g1 type node st = Some r ->
    validationMapper schema g2 type node st = Some r.
Proof.
  intros Hg type node st r. unfold validationMapper.
  destruct (isListType type || isNonNullType type); [apply Hg|].
  destruct (inputObjectFields schema type) as [fs|]; [|done].
  destruct (0 <? length _)%nat; [|done].
  unfold mbind, M_bind. simpl.
  match goal with |- context [forEachM ?f ?l ?s] =>
    destruct (forEachM f l s) as [[[] st1]|] eqn:Hloop; [|done] end.
  intros <-.
  match goal with |- context [forEachM ?g ?l ?s] =>
    rewrite (forEachM_mono _ g l) with (r := (tt, st1)) (2 := Hloop); [done|] end.
  intros key x s r'. simpl. unfold mbind, M_bind.
  destruct (g1 (fieldType x) s) as [[sub s1]|] eqn:Hsub; [|done].
  by rewrite (Hg _ _ _ Hsub).
Qed.

Lemma getValidationType_fuel_mono schema fuel :
  forall type st r,
    getValidationType schema fuel type st = Some r ->
    forall fuel', fuel <= fuel' -> getValidationType schema fuel' type st = Some r.
Proof.
  induction fuel as [|fuel IH]; intros type st r Hrun [|fuel'] Hle;
    [done|done|lia|].
  simpl in *. unfold cacheEnhancer in *.
  assert (Hmapper : forall t node s r',
            validationMapper schema (getValidationType schema fuel) t node s = Some r' ->
            validationMapper schema (getValidationType schema fuel') t node s = Some r').
  { apply validationMapper_mono. intros t s r' Ht. apply (IH _ _ _ Ht). lia. }
  destruct type as [name|ofType|ofType]; unfold mbind, M_bind in *; simpl in *.
  - destruct (validationTypeCache st !! name); [done|]. by apply Hmapper.
  - by apply Hmapper.
  - by apply Hmapper.
Qed.


Lemma collectArgs_fuel_mono schema fuel fuel' argMap :
  fuel <= fuel' ->
  forall fields st r,
    collectArgs schema fuel argMap fields st = Some r ->
    collectArgs schema fuel' argMap fields st = Some r.
Proof.
  intros Hle. induction argMap as [|[key type] argMap IH]; intros fields st r;
    simpl; [done|].
  unfold mbind, M_bind.
  destruct (getValidationType schema fuel type st) as [[sub s1]|] eqn:Hsub; [|done].
  rewrite (getValidationType_fuel_mono _ _ _ _ _ Hsub fuel' Hle).
  unfold hasFields. simpl. apply IH.
Qed.

(** ** The shape compiler returns *)

Lemma uncached_extends schema st st' :
  extends st st' -> uncached schema st' <= uncached schema st.
Proof.
  intros (Hc & _). unfold uncached. apply subseteq_size.
  apply subseteq_dom in Hc. intros name.
  rewrite !elem_of_difference. intros [Hin Hnot]. split; [done|].
  intros Hold. apply Hnot, Hc, Hold.
Qed.

Lemma uncached_insert schema (h h' : Heap) (cache : gmap string loc) name node :
  is_Some (schema !! name) -> cache !! name = None ->
  uncached schema {| heap := h'; validationTypeCache := <[name := node]> cache |}
  < uncached schema {| heap := h; validationTypeCache := cache |}.
Proof.
  intros Hs Hc. unfold uncached. simpl. apply subset_size.
  rewrite dom_insert_L. apply elem_of_dom in Hs. apply not_elem_of_dom in Hc.
  split.
  - intros m. rewrite !elem_of_difference, elem_of_union.
    intros [Hin Hnot]. split; [done|]. intros Hold. apply Hnot. by right.
  - intros Hsub. specialize (Hsub name). rewrite !elem_of_difference in Hsub.
    destruct Hsub as [_ Hnew]; [done|]. apply Hnew.
    apply elem_of_union. left. by apply elem_of_singleton.
Qed.

Lemma getValidationType_total_aux schema fuel :
  forall type st,
    2 * uncached schema st + (if isNamedType type then 1 else 2) <= fuel ->
    is_Some (getValidationType schema fuel type st).
Proof.
  induction fuel as [|fuel IH]; intros type st Hfuel.
  { destruct (isNamedType type); lia. }
  simpl. unfold cacheEnhancer.
  destruct type as [name|ofType|ofType]; simpl in Hfuel.
  - unfold mbind, M_bind, cacheLookup. simpl.
    destruct (validationTypeCache st !! name) as [cached|] eqn:Hcache; [done|].
    unfold validationMapper. simpl.
    destruct (schema !! name) as [[fs|]|] eqn:Hschema; try done.
    destruct (0 <? length _)%nat; [|done].
    unfold mbind, M_bind. simpl.
    set (st3 := {| heap := <[length (heap st) := {| fields := Some [] |}]>
                             (heap st ++ [{| fields := None |}]);
                   validationTypeCache :=
                     <[name := length (heap st)]> (validationTypeCache st) |}).
    assert (Hst3 : 2 * uncached schema st3 + 2 <= fuel).
    { pose proof (uncached_insert schema (heap st) (heap st3)
                    (validationTypeCache st) name (length (heap st))
                    ltac:(by rewrite Hschema) Hcache) as Hlt.
      unfold uncached in *. destruct st as [h c]. subst st3. simpl in *. lia. }
    match goal with |- context [forEachM ?f ?l st3] =>
      destruct (forEachM_total
                  (fun s => uncached schema s <= uncached schema st3) f l)
        with (st := st3) as (st4 & -> & _); [|done|done] end.
    intros key x s _ Hs. unfold mbind, M_bind.
    destruct (IH (fieldType x) s) as [[sub s1] Hsub].
    { destruct (isNamedType _); lia. }
    rewrite Hsub. eexists. split; [done|].
    apply getValidationType_extends in Hsub as [Hsub _].
    apply (uncached_extends schema) in Hsub.
    exact (Nat.le_trans _ _ _ Hsub Hs).
  - unfold mbind, M_bind, alloc, validationMapper. simpl.
    apply IH. simpl. unfold uncached in *. simpl. lia.
  - unfold mbind, M_bind, alloc, validationMapper. simpl.
    apply IH. simpl. unfold uncached in *. simpl. lia.
Qed.

Lemma getValidationType_total schema type st fuel :
  2 * uncached schema st + 2 <= fuel ->
  is_Some (getValidationType schema fuel type st).
Proof.
  intros H. apply getValidationType_total_aux. destruct (isNamedType type); lia.
Qed.

(** On a cache miss the new node is in the cache, with no fields yet, when
    the mapper starts. *)
Lemma cacheEnhancer_miss mapper name st :
  validationTypeCache st !! name = None ->
  cacheEnhancer mapper (NamedType name) st
  = mapper (NamedType name) (length (heap st))
      {| heap := heap st ++ [{| fields := None |}];
         validationTypeCache :=
           <[name := length (heap st)]> (validationTypeCache st) |}.
Proof.
  intros H. unfold cacheEnhancer, mbind, M_bind, cacheLookup. simpl. by rewrite H.
Qed.

(** C4: compiling the shape of any type returns, also for a type that
    refers to itself: from any state, enough fuel gives a result, the same
    for any larger fuel.  On a
    cache miss the mapper starts with the new node already in the cache,
    and the shape of the recursive type [Node] is an object whose field
    [next] refers to the object itself. *)
Theorem getValidationType_terminates :
  (forall schema type st,
      exists fuel node st', forall fuel', fuel <= fuel' ->
        getValidationType schema fuel' type st = Some (node, st'))
  /\ (forall mapper name st,
         validationTypeCache st !! name = None ->
         cacheEnhancer mapper (NamedType name) st
         = mapper (NamedType name) (length (heap st))
             {| heap := heap st ++ [{| fields := None |}];
                validationTypeCache :=
                  <[name := length (heap st)]> (validationTypeCache st) |})
  /\ (forall fuel, 2 <= fuel ->
        getValidationType nodeSchema fuel (NamedType "Node") initialState
        = Some (0, nodeState)).
Proof.
  split; [|split].
  - intros schema type st.
    destruct (getValidationType_total schema type st (2 * uncached schema st + 2))
      as [[node st'] H]; [done|].
    exists (2 * uncached schema st + 2), node, st'. intros fuel' Hfuel.
    by apply (getValidationType_fuel_mono _ _ _ _ _ H).
  - apply cacheEnhancer_miss.
  - intros [|[|fuel]] Hfuel; [lia|lia|]. reflexivity.
Qed.

(** ** The cache hands out one object per named type *)

Lemma getValidationType_hit schema fuel name st node :
  validationTypeCache st !! name = Some node ->
  getValidationType schema (S fuel) (NamedType name) st = Some (node, st).
Proof.
  intros H. simpl. unfold cacheEnhancer, mbind, M_bind, cacheLookup. simpl.
  by rewrite H.
Qed.

Lemma getValidationType_wrapped_hit schema fuel type st node :
  validationTypeCache st !! typeName type = Some node ->
  exists st',
    getValidationType schema (S (S fuel)) type st = Some (node, st')
    /\ validationTypeCache st' = validationTypeCache st
    /\ heap st `prefix_of` heap st'.
Proof.
  intros H. destruct type as [name|ofType|ofType].
  - exists st. by rewrite (getValidationType_hit _ _ _ _ _ H).
  - eexists. split; [|split].
    + cbn [getValidationType]. unfold cacheEnhancer at 1.
      unfold mbind, M_bind, alloc, validationMapper. cbn [isListType orb].
      unfold getNamedType. apply getValidationType_hit. exact H.
    + done.
    + by apply prefix_app_r.
  - eexists. split; [|split].
    + cbn [getValidationType]. unfold cacheEnhancer at 1.
      unfold mbind, M_bind, alloc, validationMapper.
      cbn [isListType isNonNullType orb].
      unfold getNamedType. apply getValidationType_hit. exact H.
    + done.
    + by apply prefix_app_r.
Qed.

(** C5: once a type has been compiled, the cache holds the result under
    the name of the type, and every later call on that named type, or on
    any list or non-null wrapping of it, returns the same object and
    leaves the cache and the objects of the store as they are. *)
Theorem getValidationType_returns_cached_object schema fuel type st node st1 :
  getValidationType schema fuel type st = Some (node, st1) ->
  validationTypeCache st1 !! typeName type = Some node
  /\ (forall fuel', 1 <= fuel' ->
        getValidationType schema fuel' (NamedType (typeName type)) st1
        = Some (node, st1))
  /\ (forall type' fuel',
        typeName type' = typeName type -> 2 <= fuel' ->
        exists st2,
          getValidationType schema fuel' type' st1 = Some (node, st2)
          /\ validationTypeCache st2 = validationTypeCache st1
          /\ heap st1 `prefix_of` heap st2).
Proof.
  intros H. apply getValidationType_extends in H as [_ H].
  split; [done|]. split.
  - intros [|fuel'] Hfuel; [lia|]. by apply getValidationType_hit.
  - intros type' [|[|fuel']] Heq Hfuel; [lia|lia|].
    apply getValidationType_wrapped_hit. by rewrite Heq.
Qed.

Lemma getValidationType_returns_cached_object_witness :
  getValidationType nodeSchema 2 (NamedType "Node") initialState
  = Some (0, nodeState)
  /\ getValidationType nodeSchema 1 (NamedType "Node") nodeState
     = Some (0, nodeState)
  /\ exists st2,
       getValidationType nodeSchema 2 (NonNullType (ListType (NamedType "Node")))
         nodeState
       = Some (0, st2).
Proof.
  assert (H : getValidationType nodeSchema 2 (NamedType "Node") initialState
              = Some (0, nodeState)) by reflexivity.
  destruct (getValidationType_returns_cached_object
              nodeSchema 2 (NamedType "Node") initialState 0 nodeState H)
    as (_ & Hsame & Hwrapped).
  split; [exact H|]. split.
  - apply Hsame. lia.
  - destruct (Hwrapped (NonNullType (ListType (NamedType "Node"))) 2 eq_refl
                ltac:(lia)) as (st2 & H2 & _).
    by exists st2.
Defined.

(** ** Cached shapes follow the flags of their type *)

Lemma cacheSound_initial schema : cacheSound schema initialState.
Proof. intros name node H. simpl in H. by rewrite lookup_empty in H. Qed.

Lemma existsb_filter_length {A : Type} (f : A -> bool) (l : list A) :
  (0 <? length (List.filter f l))%nat = existsb f l.
Proof.
  induction l as [|x l IH]; simpl; [done|]. destruct (f x); simpl; [done|apply IH].
Qed.

Lemma cacheSound_alloc schema o st node st' :
  cacheSound schema st -> alloc o st = Some (node, st') -> cacheSound schema st'.
Proof.
  intros Hs [= <- <-] name l Hl. simpl in *. destruct (Hs _ _ Hl) as [Hlt Hfs].
  split.
  - rewrite length_app. simpl. lia.
  - intros fs. rewrite lookup_app_l by done. apply Hfs.
Qed.

Lemma setProp_elem {A : Type} (props : list (string * A)) key v k w :
  (k, w) ∈ setProp props key v -> (k, w) ∈ props \/ (k = key /\ w = v).
Proof.
  induction props as [|[k' u] props IH]; simpl.
  - intros H. apply list_elem_of_singleton in H as [= -> ->]. by right.
  - destruct (String.eqb_spec k' key) as [->|Hne]; intros H;
      apply elem_of_cons in H as [H|H].
    + injection H as -> ->. by right.
    + left. by right.
    + left. rewrite H. by left.
    + destruct (IH H) as [Hin|Heq]; [left; by right|by right].
Qed.

(** Writing to the node of [name] keeps the cache sound when no other name
    is cached at that node, [name] has a flagged field, and the entries
    written are for flagged fields of [name]. *)
Lemma cacheSound_write schema st node cell name :
  cacheSound schema st ->
  (forall m, validationTypeCache st !! m = Some node -> m = name) ->
  hasFlag schema name = true ->
  (forall fs key field, fields cell = Some fs -> (key, field) ∈ fs ->
                        flaggedField schema name key) ->
  cacheSound schema {| heap := <[node := cell]> (heap st);
                       validationTypeCache := validationTypeCache st |}.
Proof.
  intros Hs Honly Hflag Hcell m l Hl. simpl in *. destruct (Hs _ _ Hl) as [Hlt Hfs].
  split.
  - by rewrite length_insert.
  - intros fs. destruct (decide (l = node)) as [->|Hne].
    + rewrite list_lookup_insert_eq by done. intros [= ->].
      rewrite (Honly _ Hl). split; [done|]. intros key field. by apply Hcell.
    + rewrite list_lookup_insert_ne by done. apply Hfs.
Qed.

Lemma getValidationType_sound schema fuel :
  forall type st node st',
    cacheSound schema st ->
    getValidationType schema fuel type st = Some (node, st') ->
    cacheSound schema st'.
Proof.
  induction fuel as [|fuel IH]; intros type st node st' Hsound; [done|].
  simpl. unfold cacheEnhancer.
  destruct type as [name|ofType|ofType].
  - unfold mbind, M_bind, cacheLookup. simpl.
    destruct (validationTypeCache st !! name) as [cached|] eqn:Hcache.
    { by intros [= <- <-]. }
    unfold validationMapper. simpl.
    set (l0 := length (heap st)).
    set (st2 := {| heap := heap st ++ [{| fields := None |}];
                   validationTypeCache := <[name := l0]> (validationTypeCache st) |}).
    assert (Honly : forall m, validationTypeCache st2 !! m = Some l0 -> m = name).
    { intros m. simpl. destruct (decide (name = m)) as [->|Hne]; [done|].
      rewrite lookup_insert_ne by done. intros Hm.
      destruct (Hsound _ _ Hm) as [Hlt _]. unfold l0 in Hlt. lia. }
    assert (Hst2 : cacheSound schema st2).
    { intros m l. simpl. destruct (decide (name = m)) as [->|Hne].
      - rewrite lookup_insert_eq. intros [= <-]. split.
        + rewrite length_app. simpl. unfold l0. lia.
        + intros fs. unfold l0. by rewrite list_lookup_middle.
      - rewrite lookup_insert_ne by done. intros Hm.
        destruct (Hsound _ _ Hm) as [Hlt Hfs]. split.
        + rewrite length_app. simpl. lia.
        + intros fs. rewrite lookup_app_l by done. apply Hfs. }
    destruct (schema !! name) as [[fs|]|] eqn:Hschema;
      try (by intros [= <- <-]).
    rewrite existsb_filter_length.
    destruct (existsb _ fs) eqn:Hflag; [|by intros [= <- <-]].
    assert (Hname : hasFlag schema name = true).
    { unfold hasFlag. by rewrite Hschema. }
    unfold mbind, M_bind. simpl.
    match goal with |- context [forEachM ?f ?l ?s] =>
      destruct (forEachM f l s) as [[[] st3]|] eqn:Hloop; [|done] end.
    intros [= <- <-].
    eapply (forEachM_inv
              (fun s => cacheSound schema s
                        /\ (forall m, validationTypeCache s !! m = Some l0 -> m = name)
                        /\ validationTypeCache s !! name = Some l0
                        /\ l0 < length (heap s)))
      in Hloop; [by destruct Hloop| |].
    + intros key x s s' Hkey (Hs & Hso & Hsn & Hsl). unfold mbind, M_bind.
      destruct (getValidationType schema fuel (fieldType x) s)
        as [[sub s1]|] eqn:Hsub; [|done].
      intros [= <-].
      pose proof (IH _ _ _ _ Hs Hsub) as Hs1.
      apply getValidationType_extends in Hsub as [(Hc & Hh & Hn) _].
      assert (Honly1 : forall m, validationTypeCache s1 !! m = Some l0 -> m = name).
      { intros m Hm. destruct (Hn _ _ Hm) as [Hold|Hnew]; [by apply Hso|lia]. }
      assert (Hname1 : validationTypeCache s1 !! name = Some l0)
        by (by eapply lookup_weaken).
      split; [|split; [|split]]; try done.
      * apply (cacheSound_write schema s1 l0 _ name); try done.
        intros fs' k f [= <-] Hin. simpl in Hin.
        apply setProp_elem in Hin as [Hin|[-> _]].
        -- destruct (Hs1 _ _ Hname1) as [_ Hcell].
           destruct (heap s1 !! l0) as [[[old|]]|] eqn:Hold;
             try (by inversion Hin).
           by apply (proj2 (Hcell old eq_refl) k f).
        -- exists fs, x. split; [done|].
           apply list_elem_of_In, filter_In in Hkey as [Hkey Hx].
           split; [by apply list_elem_of_In|done].
      * simpl. rewrite length_insert. apply prefix_length in Hh. lia.
    + split; [|split; [|split]]; try done.
      * apply (cacheSound_write schema st2 l0 _ name); try done.
        intros fs' k f [= <-] Hin. inversion Hin.
      * simpl. apply lookup_insert_eq.
      * simpl. rewrite length_insert, length_app. simpl. unfold l0. lia.
  - unfold mbind, M_bind, validationMapper. simpl. apply IH.
    by eapply cacheSound_alloc.
  - unfold mbind, M_bind, validationMapper. simpl. apply IH.
    by eapply cacheSound_alloc.
Qed.

Lemma hasFlag_constrained schema name :
  hasFlag schema name = true -> constrained schema name.
Proof.
  unfold hasFlag. destruct (schema !! name) as [[fs|]|] eqn:Hs; try done.
  intros H. apply existsb_exists in H as ([key field] & Hin & Hflag).
  eapply constrained_here; [exact Hs| |exact Hflag]. by apply list_elem_of_In.
Qed.

(** Arguments whose types have no flagged field add nothing to [fields]. *)
Lemma collectArgs_unflagged schema fuel argMap :
  forall st fields,
    cacheSound schema st ->
    2 * uncached schema st + 2 <= fuel ->
    (forall key type, (key, type) ∈ argMap -> hasFlag schema (typeName type) = false) ->
    exists st',
      collectArgs schema fuel argMap fields st = Some (fields, st')
      /\ cacheSound schema st' /\ extends st st'.
Proof.
  induction argMap as [|[key type] argMap IH]; intros st fields Hs Hfuel Hargs.
  - exists st. split; [done|]. split; [done|apply extends_refl].
  - simpl. unfold mbind, M_bind.
    destruct (getValidationType_total schema type st fuel Hfuel) as [[sub s1] Hsub].
    rewrite Hsub. unfold hasFields. simpl.
    pose proof (getValidationType_sound _ _ _ _ _ _ Hs Hsub) as Hs1.
    pose proof (getValidationType_extends _ _ _ _ _ _ Hsub) as [Hext Hcached].
    assert (Hno : match heap s1 !! sub with
                  | Some {| fields := Some _ |} => true
                  | _ => false
                  end = false).
    { destruct (heap s1 !! sub) as [[[fs|]]|] eqn:Hcell; try done.
      destruct (Hs1 _ _ Hcached) as [_ Hfs].
      destruct (Hfs fs Hcell) as [Hflag _].
      by rewrite (Hargs key type) in Hflag by (by left). }
    rewrite Hno.
    destruct (IH s1 fields) as (st' & Hrest & Hs' & Hext'); try done.
    + pose proof (uncached_extends schema _ _ Hext). lia.
    + intros k t Hin. apply (Hargs k). by right.
    + exists st'. split; [done|]. split; [done|by eapply extends_trans].
Qed.

(** C6: when no argument of an operation has a constrained field beneath
    it, [createArgsValidationType] returns [undefined] and
    [onCreateFieldResolver] gives no wrapper, so nothing is validated when
    the operation runs.  The same holds for an operation without
    arguments. *)
Theorem no_constrained_field_no_wrapper schema st argMap :
  cacheSound schema st ->
  (forall key type, (key, type) ∈ argMap -> ~ constrained schema (typeName type)) ->
  (exists fuel st', forall fuel', fuel <= fuel' ->
     createArgsValidationType schema fuel' (Some argMap) st = Some (None, st')
     /\ onCreateFieldResolver schema fuel' (Some argMap) st = Some (None, st'))
  /\ (forall fuel, onCreateFieldResolver schema fuel None st = Some (None, st)).
Proof.
  intros Hs Hargs. split; [|done].
  destruct (collectArgs_unflagged schema (2 * uncached schema st + 2) argMap st []
              Hs (Nat.le_refl _))
    as (st' & Hcollect & _).
  { intros key type Hin. destruct (hasFlag schema (typeName type)) eqn:Hflag; [|done].
    exfalso. apply (Hargs _ _ Hin). by apply hasFlag_constrained. }
  exists (2 * uncached schema st + 2), st'. intros fuel Hfuel.
  apply (collectArgs_fuel_mono _ _ fuel _ Hfuel) in Hcollect.
  unfold onCreateFieldResolver, createArgsValidationType.
  unfold mbind, M_bind. by rewrite Hcollect.
Qed.

Lemma no_constrained_field_no_wrapper_witness :
  exists fuel st',
    onCreateFieldResolver nestedSchema fuel
      (Some [("filter", NonNullType (NamedType "Plain"))]) initialState
    = Some (None, st').
Proof.
  destruct (no_constrained_field_no_wrapper nestedSchema initialState
              [("filter", NonNullType (NamedType "Plain"))]
              (cacheSound_initial nestedSchema))
    as [(fuel & st' & H) _].
  - intros key type Hin. apply list_elem_of_singleton in Hin as [= -> ->].
    simpl. intros Hc.
    inversion Hc as [name fs k field Hname Hin Hflag
                    |name fs k field Hname Hin Hbelow]; subst;
      injection Hname as <-; apply list_elem_of_singleton in Hin as [= -> ->];
      [done|].
    simpl in Hbelow. inversion Hbelow; subst; done.
  - destruct (H fuel (Nat.le_refl _)) as (_ & Hst'). by exists fuel, st'.
Defined.

(** Only the flagged fields of a type get an entry in its shape. *)
Lemma getValidationType_entries_are_flagged schema fuel type st node st' :
  cacheSound schema st ->
  getValidationType schema fuel type st = Some (node, st') ->
  forall fs key field,
    heap st' !! node = Some {| fields := Some fs |} ->
    (key, field) ∈ fs ->
    flaggedField schema (typeName type) key.
Proof.
  intros Hs Hrun fs key field Hcell Hin.
  pose proof (getValidationType_sound _ _ _ _ _ _ Hs Hrun) as Hs'.
  apply getValidationType_extends in Hrun as [_ Hcached].
  destruct (Hs' _ _ Hcached) as [_ Hfs].
  by apply (proj2 (Hfs fs Hcell) key field).
Qed.

(** ** Field names of compiled shapes *)

Lemma namesOk_app h1 h2 : namesOk (h1 ++ h2) = namesOk h1 && namesOk h2.
Proof. unfold namesOk. apply forallb_app. Qed.

Lemma namesOk_insert h node cell :
  namesOk h = true ->
  match fields cell with
  | Some fs => forallb (fun kf : string * ValidationField => negb (isIndex kf.1)) fs
  | None => true
  end = true ->
  namesOk (<[node := cell]> h) = true.
Proof.
  unfold namesOk. rewrite !forallb_forall. intros Hh Hcell c Hin.
  apply list_elem_of_In, list_elem_of_lookup in Hin as [i Hi].
  destruct (decide (i = node)) as [->|Hne].
  - destruct (decide (node < length h)) as [Hlt|Hge].
    + rewrite list_lookup_insert_eq in Hi by done. by injection Hi as <-.
    + rewrite list_insert_ge in Hi by lia.
      apply Hh, list_elem_of_In. by eapply list_elem_of_lookup_2.
  - rewrite list_lookup_insert_ne in Hi by done.
    apply Hh, list_elem_of_In. by eapply list_elem_of_lookup_2.
Qed.

Lemma namesOk_cell h node fs :
  namesOk h = true -> h !! node = Some {| fields := Some fs |} ->
  forallb (fun kf : string * ValidationField => negb (isIndex kf.1)) fs = true.
Proof.
  unfold namesOk. rewrite forallb_forall. intros Hh Hcell.
  apply (Hh {| fields := Some fs |}), list_elem_of_In.
  by eapply list_elem_of_lookup_2.
Qed.

Lemma forallb_setProp {A : Type} (P : string * A -> bool) props key v :
  forallb P props = true -> P (key, v) = true ->
  forallb P (setProp props key v) = true.
Proof.
  intros Hprops Hv. induction props as [|[k w] props IH]; simpl in *.
  - by rewrite Hv.
  - apply andb_true_iff in Hprops as [Hk Hrest].
    destruct (String.eqb_spec k key) as [->|Hne]; simpl.
    + by rewrite Hv.
    + by rewrite Hk, IH.
Qed.

Lemma getValidationType_namesOk schema fuel :
  schemaNamesOk schema ->
  forall type st node st',
    namesOk (heap st) = true ->
    getValidationType schema fuel type st = Some (node, st') ->
    namesOk (heap st') = true.
Proof.
  intros Hschema. induction fuel as [|fuel IH]; intros type st node st' Hok; [done|].
  simpl. unfold cacheEnhancer.
  assert (Halloc : namesOk (heap st ++ [{| fields := None |}]) = true)
    by (by rewrite namesOk_app, Hok).
  destruct type as [name|ofType|ofType].
  - unfold mbind, M_bind, cacheLookup. simpl.
    destruct (validationTypeCache st !! name) as [cached|] eqn:Hcache.
    { by intros [= <- <-]. }
    unfold validationMapper. simpl.
    destruct (schema !! name) as [[fs|]|] eqn:Hname;
      try (by intros [= <- <-]).
    destruct (0 <? length _)%nat; [|by intros [= <- <-]].
    unfold mbind, M_bind. simpl.
    match goal with |- context [forEachM ?f ?l ?s] =>
      destruct (forEachM f l s) as [[[] st3]|] eqn:Hloop; [|done] end.
    intros [= <- <-].
    eapply (forEachM_inv (fun s => namesOk (heap s) = true)) in Hloop; [done| |].
    + intros key x s s' Hkey Hs. unfold mbind, M_bind.
      destruct (getValidationType schema fuel (fieldType x) s)
        as [[sub s1]|] eqn:Hsub; [|done].
      intros [= <-]. simpl. apply IH in Hsub; [|done].
      apply namesOk_insert; [done|]. simpl.
      apply forallb_setProp.
      * destruct (heap s1 !! length (heap st)) as [[[old|]]|] eqn:Hold; try done.
        by eapply namesOk_cell.
      * simpl. apply negb_true_iff.
        apply list_elem_of_In, filter_In in Hkey as [Hkey _].
        apply (Hschema name fs key x Hname). by apply list_elem_of_In.
    + simpl. by apply namesOk_insert.
  - unfold mbind, M_bind, validationMapper. simpl. by apply IH.
  - unfold mbind, M_bind, validationMapper. simpl. by apply IH.
Qed.

Lemma collectArgs_invariants schema fuel argMap :
  schemaNamesOk schema -> argsNamesOk argMap ->
  forall st fields result st',
    cacheSound schema st -> namesOk (heap st) = true ->
    forallb (fun kf : string * ValidationField => negb (isIndex kf.1)) fields = true ->
    collectArgs schema fuel argMap fields st = Some (result, st') ->
    cacheSound schema st' /\ namesOk (heap st') = true
    /\ forallb (fun kf : string * ValidationField => negb (isIndex kf.1)) result = true.
Proof.
  intros Hschema. induction argMap as [|[key type] argMap IH];
    intros Hargs st fields result st' Hs Hok Hfields; simpl.
  - by intros [= <- <-].
  - unfold mbind, M_bind.
    destruct (getValidationType schema fuel type st) as [[sub s1]|] eqn:Hsub; [|done].
    unfold hasFields. simpl. apply IH.
    + intros k t Hin. apply (Hargs k t). by right.
    + by eapply getValidationType_sound.
    + by eapply getValidationType_namesOk.
    + destruct (match heap s1 !! sub with
                | Some {| fields := Some _ |} => true
                | _ => false
                end); [|done].
      apply forallb_setProp; [done|]. simpl. apply negb_true_iff.
      apply (Hargs key type). by left.
Qed.

(** The shapes that the plugin compiles keep the state sound and have
    GraphQL names for their fields. *)
Lemma onCreateFieldResolver_invariants schema fuel args st result st' :
  schemaNamesOk schema ->
  (forall argMap, args = Some argMap -> argsNamesOk argMap) ->
  cacheSound schema st -> namesOk (heap st) = true ->
  onCreateFieldResolver schema fuel args st = Some (result, st') ->
  cacheSound schema st' /\ namesOk (heap st') = true.
Proof.
  intros Hschema Hargs Hs Hok. unfold onCreateFieldResolver, createArgsValidationType.
  destruct args as [argMap|]; unfold mbind, M_bind.
  - destruct (collectArgs schema fuel argMap [] st) as [[fs s1]|] eqn:Hcollect;
      [|done].
    apply (collectArgs_invariants schema fuel argMap Hschema (Hargs _ eq_refl))
      in Hcollect as (Hs1 & Hok1 & Hfs); try done.
    destruct (0 <? length fs)%nat; simpl.
    + intros [= <- <-]. simpl. split.
      * by eapply (cacheSound_alloc schema {| fields := Some fs |} s1).
      * rewrite namesOk_app, Hok1. simpl. by rewrite Hfs.
    + by intros [= <- <-].
  - simpl. by intros [= <- <-].
Qed.

(** ** Fields without the flag *)

(** C1, the part the code does not do: only the fields that carry the flag
    themselves get an entry ([getValidationType_entries_are_flagged] above
    has it for every schema).  [Inner] has a flagged field and a shape with
    that entry; [Outer] has a field of type [Inner] without the flag, and
    its compiled shape has no fields at all, so an operation taking an
    [Outer] gets no wrapper, while one taking an [Inner] directly does:
    [createArgsValidationType] keeps an argument for the fields of its
    shape alone. *)
Theorem getValidationType_omits_unflagged_field_of_constrained_type :
  getValidationType nestedSchema 3 (NamedType "Inner") initialState
  = Some (0, innerState)
  /\ fields <$> heap innerState !! 0
     = Some (Some [("x", {| config := Some {| nonNullOptional := Some true |};
                            type := 1 |})])
  /\ getValidationType nestedSchema 3 (NamedType "Outer") innerState
     = Some (2, outerState)
  /\ fields <$> heap outerState !! 2 = Some None
  /\ lookupField (heap outerState) 2 "inner" = None
  /\ onCreateFieldResolver nestedSchema 3
       (Some [("input", NamedType "Outer")]) outerState
     = Some (None, outerState)
  /\ onCreateFieldResolver nestedSchema 3
       (Some [("input", NamedType "Inner")]) outerState
     = Some (Some 3,
             {| heap := heap outerState
                          ++ [{| fields :=
                                   Some [("input", {| config := None; type := 0 |})] |}];
                validationTypeCache := validationTypeCache outerState |}).
Proof. repeat split; reflexivity. Qed.

(** ** Properties and elements of error-map nodes *)

Lemma getProp_setProp_eq {A : Type} (props : list (string * A)) key v :
  getProp (setProp props key v) key = Some v.
Proof.
  induction props as [|[k w] props IH]; simpl.
  - by rewrite String.eqb_refl.
  - destruct (String.eqb_spec k key) as [->|Hne]; simpl.
    + by rewrite String.eqb_refl.
    + by destruct (String.eqb_spec k key).
Qed.

Lemma setProp_setProp {A : Type} (props : list (string * A)) key v w :
  setProp (setProp props key v) key w = setProp props key w.
Proof.
  induction props as [|[k u] props IH]; simpl.
  - by rewrite String.eqb_refl.
  - destruct (String.eqb_spec k key) as [->|Hne]; simpl.
    + by rewrite String.eqb_refl.
    + destruct (String.eqb_spec k key); [done|]. by rewrite IH.
Qed.

Lemma setProp_id {A : Type} (props : list (string * A)) key v :
  getProp props key = Some v -> setProp props key v = props.
Proof.
  induction props as [|[k u] props IH]; simpl; [done|].
  destruct (String.eqb_spec k key) as [->|Hne].
  - by intros [= ->].
  - intros H. by rewrite IH.
Qed.

Lemma getProp_None {A : Type} (props : list (string * A)) key :
  getProp props key = None <-> key ∉ props.*1.
Proof.
  induction props as [|[k u] props IH]; simpl.
  - split; [intros _; by inversion 1|done].
  - rewrite not_elem_of_cons. destruct (String.eqb_spec k key) as [->|Hne].
    + split; [done|]. by intros [? _].
    + rewrite IH. split; [|by intros [_ ?]]. intros Hin. split; [|done].
      intros ->. by apply Hne.
Qed.

Lemma setProp_fresh {A : Type} (props : list (string * A)) key v :
  getProp props key = None -> setProp props key v = props ++ [(key, v)].
Proof.
  induction props as [|[k u] props IH]; simpl; [done|].
  destruct (String.eqb_spec k key) as [->|Hne]; [done|].
  intros H. by rewrite IH.
Qed.

Lemma getProp_Some_elem {A : Type} (props : list (string * A)) key v :
  getProp props key = Some v -> (key, v) ∈ props.
Proof.
  induction props as [|[k u] props IH]; simpl; [done|].
  destruct (String.eqb_spec k key) as [->|Hne].
  - intros [= ->]. by left.
  - intros H. right. by apply IH.
Qed.

Lemma getProp_NoDup {A : Type} (props : list (string * A)) key v :
  NoDup props.*1 -> (key, v) ∈ props -> getProp props key = Some v.
Proof.
  intros Hnd Hin. destruct (getProp props key) as [w|] eqn:Hget.
  - apply getProp_Some_elem in Hget.
    by rewrite (NoDup_keys_lookup _ _ _ _ Hnd Hin Hget).
  - apply getProp_None in Hget. exfalso. apply Hget.
    apply list_elem_of_fmap. by exists (key, v).
Qed.

Lemma setItem_lookup items i v : setItem items i v !! i = Some (Some v).
Proof.
  unfold setItem. case_decide as Hi.
  - by apply list_lookup_insert_eq.
  - rewrite lookup_app_r by lia. rewrite lookup_app_r; rewrite length_replicate; [|lia].
    by replace (i - length items - (i - length items)) with 0 by lia.
Qed.

Lemma setItem_length items i v : i < length (setItem items i v).
Proof.
  unfold setItem. case_decide as Hi.
  - by rewrite length_insert.
  - rewrite !length_app, length_replicate. simpl. lia.
Qed.

Lemma setItem_setItem items i v w :
  setItem (setItem items i v) i w = setItem items i w.
Proof.
  pose proof (setItem_length items i v) as Hlen.
  unfold setItem at 1. rewrite decide_True by done.
  unfold setItem. case_decide as Hi.
  - by rewrite list_insert_insert_eq.
  - rewrite insert_app_r_alt by lia. f_equal.
    rewrite insert_app_r_alt; rewrite length_replicate; [|lia]. f_equal.
    by replace (i - length items - (i - length items)) with 0 by lia.
Qed.

Lemma setItem_id items i v : items !! i = Some (Some v) -> setItem items i v = items.
Proof.
  intros H. unfold setItem. rewrite decide_True by (by eapply lookup_lt_Some).
  by apply list_insert_id.
Qed.

Lemma isObject_assignValue e key v : isObject (assignValue e key v) = isObject e.
Proof. destruct e; simpl; [done|done|]. by destruct (arrayIndex key). Qed.

Lemma getKey_assignValue e key v :
  isObject e = true -> getKey (assignValue e key v) key = Some v.
Proof.
  destruct e as [|props|items props]; simpl; [done| |]; intros _.
  - apply getProp_setProp_eq.
  - unfold arrayIndex. destruct (arrayIndexN key) as [n|] eqn:Hn; simpl.
    + unfold arrayIndex. rewrite Hn. simpl. by rewrite setItem_lookup.
    + unfold arrayIndex. rewrite Hn. simpl. apply getProp_setProp_eq.
Qed.

Lemma assignValue_assignValue e key v w :
  assignValue (assignValue e key v) key w = assignValue e key w.
Proof.
  destruct e as [|props|items props]; simpl; [done| |].
  - by rewrite setProp_setProp.
  - destruct (arrayIndex key) as [i|] eqn:Hi; simpl; rewrite Hi.
    + by rewrite setItem_setItem.
    + by rewrite setProp_setProp.
Qed.

Lemma assignValue_id e key v : getKey e key = Some v -> assignValue e key v = e.
Proof.
  destruct e as [|props|items props]; simpl; [done| |].
  - intros H. by rewrite setProp_id.
  - destruct (arrayIndex key) as [i|] eqn:Hi.
    + destruct (items !! i) as [[x|]|] eqn:Hx; simpl; try done.
      intros [= ->]. by rewrite setItem_id.
    + intros H. by rewrite setProp_id.
Qed.

(** ** [set] along a path *)

Lemma isObject_objOrFresh cur next : isObject (objOrFresh cur next) = true.
Proof.
  unfold objOrFresh. destruct cur as [[| |]|]; simpl; try done;
    by destruct (isIndex next).
Qed.

Lemma baseSet_cons e key q :
  baseSet e (key :: q) ENull = assignValue e key (setUnder (getKey e key) q).
Proof. destruct q as [|next q]; [done|]. simpl. by destruct (getKey e key). Qed.

Lemma baseSet_cons_cons e key next rest v :
  baseSet e (key :: next :: rest) v
  = assignValue e key (baseSet (objOrFresh (getKey e key) next) (next :: rest) v).
Proof. simpl. by destruct (getKey e key). Qed.

Lemma isObject_baseSet e path v :
  path <> [] -> isObject (baseSet e path v) = isObject e.
Proof.
  destruct path as [|key [|next rest]]; [done| |]; intros _.
  - apply isObject_assignValue.
  - rewrite baseSet_cons_cons. apply isObject_assignValue.
Qed.

Lemma isObject_setUnder cur q : q <> [] -> isObject (setUnder cur q) = true.
Proof.
  destruct q as [|next q]; [done|]. intros _. unfold setUnder.
  rewrite isObject_baseSet by done. apply isObject_objOrFresh.
Qed.

Lemma getPath_ENull path : path <> [] -> getPath ENull path = None.
Proof. by destruct path. Qed.

Lemma getPath_objOrFresh cur next rest :
  getPath (objOrFresh cur next) (next :: rest)
  = c ← cur; getPath c (next :: rest).
Proof.
  unfold objOrFresh. destruct cur as [[|props|items props]|]; simpl; try done;
    destruct (isIndex next); simpl; try done.
  all: by destruct (arrayIndex next).
Qed.

Lemma baseSet_app e path q :
  path <> [] ->
  baseSet e (path ++ q) ENull = baseSet e path (setUnder (getPath e path) q).
Proof.
  revert e. induction path as [|key path IH]; intros e Hne; [done|].
  destruct path as [|next rest].
  - simpl app. rewrite baseSet_cons. simpl. by destruct (getKey e key).
  - change ((key :: next :: rest) ++ q) with (key :: next :: (rest ++ q)).
    rewrite !baseSet_cons_cons.
    change (next :: rest ++ q) with ((next :: rest) ++ q).
    rewrite IH by done. rewrite getPath_objOrFresh.
    cbn [getPath]. by destruct (getKey e key).
Qed.

Lemma getPath_baseSet e path v :
  isObject e = true -> path <> [] -> getPath (baseSet e path v) path = Some v.
Proof.
  revert e. induction path as [|key path IH]; intros e He Hne; [done|].
  destruct path as [|next rest].
  - simpl. by rewrite getKey_assignValue.
  - rewrite baseSet_cons_cons. cbn [getPath]. rewrite getKey_assignValue by done.
    apply IH; [apply isObject_objOrFresh|done].
Qed.

Lemma baseSet_baseSet e path v w :
  path <> [] -> baseSet (baseSet e path v) path w = baseSet e path w.
Proof.
  revert e. induction path as [|key path IH]; intros e Hne; [done|].
  destruct path as [|next rest].
  - simpl. apply assignValue_assignValue.
  - rewrite !baseSet_cons_cons.
    destruct (isObject e) eqn:He; [|by destruct e].
    rewrite getKey_assignValue by done.
    rewrite assignValue_assignValue. f_equal.
    unfold objOrFresh at 1.
    rewrite isObject_baseSet by done. rewrite isObject_objOrFresh.
    by apply IH.
Qed.

Lemma baseSet_id e path v : path <> [] -> getPath e path = Some v -> baseSet e path v = e.
Proof.
  revert e. induction path as [|key path IH]; intros e Hne; [done|].
  destruct path as [|next rest].
  - simpl. destruct (getKey e key) eqn:Hk; [|done]. intros [= ->].
    by apply assignValue_id.
  - rewrite baseSet_cons_cons. cbn [getPath].
    destruct (getKey e key) as [c|] eqn:Hk; [|done]. intros Hc.
    assert (isObject c = true) as Hobj.
    { destruct c; [|done|done]. by simpl in Hc. }
    unfold objOrFresh. rewrite Hobj, IH by done. by apply assignValue_id.
Qed.

Lemma setAllUnder_Some c qs : is_Some (setAllUnder (Some c) qs).
Proof.
  revert c. induction qs as [|q qs IH]; intros c; [by eexists|]. apply IH.
Qed.

Lemma setAllUnder_nonempty cur qs : qs <> [] -> is_Some (setAllUnder cur qs).
Proof. destruct qs as [|q qs]; [done|]. intros _. apply setAllUnder_Some. Qed.

(** A run of [set] calls below one path rewrites the node at that path. *)
Lemma fold_set_under e path qs :
  isObject e = true -> path <> [] ->
  fold_left (fun em q => baseSet em (path ++ q) ENull) qs e
  = match setAllUnder (getPath e path) qs with
    | Some t => baseSet e path t
    | None => e
    end.
Proof.
  intros He Hne. revert e He. induction qs as [|q qs IH]; intros e He.
  - simpl. destruct (getPath e path) eqn:Hp; [|done]. by rewrite baseSet_id.
  - simpl. rewrite baseSet_app by done.
    rewrite IH by (by rewrite isObject_baseSet).
    rewrite getPath_baseSet by done.
    destruct (setAllUnder_Some (setUnder (getPath e path) q) qs) as [t Ht].
    unfold setAllUnder in *. rewrite Ht. by apply baseSet_baseSet.
Qed.

(** The same below one key of a position that held [cur]. *)
Lemma setAllUnder_key cur key qs :
  qs <> [] ->
  exists t,
    setAllUnder (getKey (objOrFresh cur key) key) qs = Some t
    /\ setAllUnder cur ((key ::.) <$> qs)
       = Some (assignValue (objOrFresh cur key) key t).
Proof.
  intros Hne.
  assert (Hfold : forall qs c, isObject c = true ->
            setAllUnder (Some c) ((key ::.) <$> qs)
            = Some (fold_left (fun em q => baseSet em ([key] ++ q) ENull) qs c)).
  { clear. induction qs as [|q qs IH]; intros c Hc; [done|].
    assert (Hstep : setUnder (Some c) (key :: q) = baseSet c ([key] ++ q) ENull).
    { unfold setUnder, objOrFresh. by rewrite Hc. }
    unfold setAllUnder in *. cbn [fmap list_fmap fold_left]. rewrite Hstep.
    apply IH. by rewrite isObject_baseSet. }
  destruct qs as [|q qs]; [done|].
  pose proof (isObject_objOrFresh cur key) as Hobj.
  destruct (setAllUnder_nonempty (getKey (objOrFresh cur key) key) (q :: qs))
    as [t Ht]; [done|].
  exists t. split; [done|].
  pose proof (fold_set_under (objOrFresh cur key) [key] (q :: qs) Hobj
                ltac:(done)) as Hf.
  cbn [getPath] in Hf.
  assert (Hget : match getKey (objOrFresh cur key) key with
                 | Some child => Some child
                 | None => None
                 end = getKey (objOrFresh cur key) key) by (by destruct getKey).
  rewrite Hget, Ht in Hf. cbn [fold_left baseSet] in Hf.
  change (setAllUnder cur ((key ::.) <$> q :: qs))
    with (setAllUnder (Some (baseSet (objOrFresh cur key) (key :: q) ENull))
            ((key ::.) <$> qs)).
  rewrite Hfold by (by rewrite isObject_baseSet). f_equal. exact Hf.
Qed.

(** ** Indices and holes *)

Lemma isIndex_toString i :
  (N.of_nat i < 9007199254740991)%N -> isIndex (toString i) = true.
Proof.
  intros H. unfold isIndex, toString. rewrite parseUint_decimal.
  by apply N.ltb_lt.
Qed.

Lemma arrayIndex_toString i :
  (N.of_nat i < 4294967295)%N -> arrayIndex (toString i) = Some i.
Proof.
  intros H. unfold arrayIndex, arrayIndexN, toString. rewrite parseUint_decimal.
  apply N.ltb_lt in H. rewrite H. simpl. by rewrite Nat2N.id.
Qed.

Lemma namesOk_lookupField h vt key field :
  namesOk h = true -> lookupField h vt key = Some field -> isIndex key = false.
Proof.
  unfold namesOk, lookupField. intros Hok.
  destruct (h !! vt) as [[[fs|]]|] eqn:Hcell; try done. intros Hget.
  rewrite forallb_forall in Hok.
  specialize (Hok _ (proj1 (list_elem_of_In _ _) (list_elem_of_lookup_2 _ _ _ Hcell))).
  simpl in Hok. rewrite forallb_forall in Hok.
  apply getProp_Some_elem, list_elem_of_In in Hget.
  specialize (Hok _ Hget). simpl in Hok. by apply negb_true_iff.
Qed.

Lemma dropTrailingHoles_snoc_None {A : Type} (xs : list (option A)) :
  dropTrailingHoles (xs ++ [None]) = dropTrailingHoles xs.
Proof. unfold dropTrailingHoles. by rewrite foldr_app. Qed.

Lemma dropTrailingHoles_snoc_Some {A : Type} (xs : list (option A)) t :
  dropTrailingHoles (xs ++ [Some t]) = xs ++ [Some t].
Proof.
  unfold dropTrailingHoles. rewrite foldr_app. simpl.
  induction xs as [|x xs IH]; [done|]. simpl. rewrite IH.
  destruct x; [done|]. by destruct xs.
Qed.

Lemma dropTrailingHoles_restore {A : Type} (xs : list (option A)) :
  dropTrailingHoles xs
    ++ replicate (length xs - length (dropTrailingHoles xs)) None = xs.
Proof.
  induction xs as [|x xs IH]; [done|].
  change (dropTrailingHoles (x :: xs))
    with (match x, dropTrailingHoles xs with
          | None, [] => []
          | _, _ => x :: dropTrailingHoles xs
          end).
  destruct x as [a|].
  - simpl. by rewrite IH.
  - destruct (dropTrailingHoles xs) as [|d ds] eqn:Hd.
    + simpl in *. rewrite Nat.sub_0_r in IH. by rewrite IH.
    + simpl in *. by rewrite IH.
Qed.

Lemma dropTrailingHoles_length {A : Type} (xs : list (option A)) :
  length (dropTrailingHoles xs) <= length xs.
Proof.
  pose proof (f_equal length (dropTrailingHoles_restore xs)) as H.
  rewrite length_app in H. lia.
Qed.

Lemma dropTrailingHoles_lookup {A : Type} (xs : list (option A)) i t :
  xs !! i = Some (Some t) -> dropTrailingHoles xs !! i = Some (Some t).
Proof.
  intros H. rewrite <- (dropTrailingHoles_restore xs) in H.
  destruct (decide (i < length (dropTrailingHoles xs))) as [Hi|Hi].
  - by rewrite lookup_app_l in H.
  - rewrite lookup_app_r in H by lia. apply lookup_replicate in H as [? _]. done.
Qed.

(** ** The error map in closed form *)

Lemma errorTree_array h elements vt :
  errorTree h (VArray elements) (Some vt)
  = arrayNode (dropTrailingHoles
                 ((fun subValue => errorTree h subValue (Some vt)) <$> elements)).
Proof. simpl. by destruct (dropTrailingHoles _). Qed.

Lemma errorTree_object h props vt :
  errorTree h (VObject props) (Some vt) = objectNode (omap (errorMember h vt) props).
Proof.
  simpl. change (omap _ props) with (omap (errorMember h vt) props).
  by destruct (omap _ props).
Qed.

Lemma errorMember_key h vt kv member :
  errorMember h vt kv = Some member -> member.1 = kv.1.
Proof.
  unfold errorMember. destruct (isNull kv.2 && flagged _).
  - by intros [= <-].
  - destruct (errorTree _ _ _); [|done]. by intros [= <-].
Qed.

Lemma errorMembers_keys h vt props key :
  key ∈ (omap (errorMember h vt) props).*1 -> key ∈ props.*1.
Proof.
  intros H. apply list_elem_of_fmap in H as (member & -> & H).
  apply list_elem_of_omap in H as (kv & Hkv & Hm).
  apply list_elem_of_fmap. exists kv. split; [|done].
  by apply errorMember_key in Hm.
Qed.

Lemma objOrFresh_arrayNode items key :
  isIndex key = true -> objOrFresh (arrayNode items) key = EArray items [].
Proof. intros H. unfold objOrFresh. destruct items; simpl; by rewrite ?H. Qed.

Lemma objOrFresh_objectNode members key :
  isIndex key = false -> objOrFresh (objectNode members) key = EObject members.
Proof. intros H. unfold objOrFresh. destruct members; simpl; by rewrite ?H. Qed.

Lemma arrayNode_snoc items x : arrayNode (items ++ [x]) = Some (EArray (items ++ [x]) []).
Proof. by destruct items. Qed.

Lemma objectNode_snoc members x :
  objectNode (members ++ [x]) = Some (EObject (members ++ [x])).
Proof. by destruct members. Qed.

Section closed_form.
Variable h : Heap.
Hypothesis Hnames : namesOk h = true.

(** The elements of a list, walked in order from an empty position. *)
Lemma setAllUnder_elements vt (elements : list JsValue) :
  (N.of_nat (length elements) <= 4294967295)%N ->
  Forall (fun x => setAllUnder None (relViolations h x (Some vt))
                   = errorTree h x (Some vt)) elements ->
  setAllUnder None
    (mjoin (imap (fun index subValue =>
                    (toString index ::.) <$> relViolations h subValue (Some vt))
                 elements))
  = arrayNode (dropTrailingHoles
                 ((fun x => errorTree h x (Some vt)) <$> elements)).
Proof.
  induction elements as [|x elements IH] using rev_ind; intros Hlen Hall; [done|].
  rewrite length_app in Hlen. simpl in Hlen.
  apply Forall_app in Hall as [Hall Hx]. apply List.Forall_inv in Hx.
  rewrite imap_app, join_app, fmap_app. simpl. rewrite app_nil_r, Nat.add_0_r.
  unfold setAllUnder in *. rewrite fold_left_app, IH by (done || lia).
  set (children := (fun x => errorTree h x (Some vt)) <$> elements).
  assert (Hchildren : length children = length elements)
    by (unfold children; by rewrite length_fmap).
  destruct (relViolations h x (Some vt)) as [|q qs] eqn:Hrel.
  - simpl in Hx. rewrite <- Hx. simpl.
    by rewrite dropTrailingHoles_snoc_None.
  - set (key := toString (length elements)).
    assert (Hkey : isIndex key = true) by (apply isIndex_toString; lia).
    assert (Hidx : arrayIndex key = Some (length elements))
      by (apply arrayIndex_toString; lia).
    destruct (setAllUnder_key (arrayNode (dropTrailingHoles children)) key (q :: qs))
      as (t & Ht & Hset); [done|].
    unfold setAllUnder in *. rewrite Hset.
    rewrite objOrFresh_arrayNode in * by done.
    pose proof (dropTrailingHoles_length children) as Hdrop.
    cbn [getKey] in Ht. rewrite Hidx in Ht.
    rewrite lookup_ge_None_2 in Ht by lia. cbn [default] in Ht.
    assert (Htree : errorTree h x (Some vt) = Some t)
      by (rewrite <- Hx; exact Ht).
    rewrite Htree. simpl. rewrite Hidx.
    rewrite dropTrailingHoles_snoc_Some, arrayNode_snoc. do 2 f_equal.
    unfold setItem. rewrite decide_False by lia.
    rewrite app_assoc. f_equal.
    rewrite <- Hchildren. apply dropTrailingHoles_restore.
Qed.

(** The keys of an object, walked in order from an empty position. *)
Lemma setAllUnder_members vt (props : list (string * JsValue)) :
  NoDup props.*1 ->
  Forall (fun kv => forall validationType,
              setAllUnder None (relViolations h kv.2 validationType)
              = errorTree h kv.2 validationType) props ->
  setAllUnder None (mjoin ((fun kv => keyViolations h vt kv.1 kv.2) <$> props))
  = objectNode (omap (errorMember h vt) props).
Proof.
  induction props as [|[key x] props IH] using rev_ind; intros Hnd Hall; [done|].
  rewrite fmap_app in Hnd. apply NoDup_app in Hnd as (Hnd & Hfresh & _).
  apply Forall_app in Hall as [Hall Hx]. apply List.Forall_inv in Hx.
  simpl in Hx.
  rewrite fmap_app, join_app, omap_app. simpl. rewrite app_nil_r.
  unfold setAllUnder in *. rewrite fold_left_app, IH by done.
  set (members := omap (errorMember h vt) props).
  assert (Hnew : getProp members key = None).
  { apply getProp_None. intros Hin. apply errorMembers_keys in Hin.
    apply (Hfresh _ Hin). simpl. by left. }
  unfold keyViolations, errorMember. simpl.
  destruct (isNull x && flagged (lookupField h vt key)) eqn:Hhere.
  - apply andb_true_iff in Hhere as [Hnull Hflag].
    destruct x; try done. rewrite relViolations_falsy by done.
    simpl. rewrite objectNode_snoc. f_equal.
    assert (Hkey : isIndex key = false).
    { destruct (lookupField h vt key) eqn:Hf; [|done].
      by eapply namesOk_lookupField. }
    rewrite objOrFresh_objectNode by done. simpl.
    by rewrite setProp_fresh.
  - simpl.
    destruct (relViolations h x (type <$> lookupField h vt key))
      as [|q qs] eqn:Hrel.
    + specialize (Hx (type <$> lookupField h vt key)). rewrite Hrel in Hx.
      simpl in Hx. rewrite <- Hx. simpl. by rewrite app_nil_r.
    + assert (Hkey : isIndex key = false).
      { destruct (lookupField h vt key) eqn:Hf.
        - by eapply namesOk_lookupField.
        - simpl in Hrel. by rewrite relViolations_no_shape in Hrel. }
      destruct (setAllUnder_key (objectNode members) key (q :: qs))
        as (t & Ht & Hset); [done|].
      unfold setAllUnder in *. rewrite Hset.
      rewrite objOrFresh_objectNode in * by done.
      cbn [getKey] in Ht. rewrite Hnew in Ht.
      specialize (Hx (type <$> lookupField h vt key)). rewrite Hrel in Hx.
      assert (Htree : errorTree h x (type <$> lookupField h vt key) = Some t)
        by (rewrite <- Hx; exact Ht).
      rewrite Htree. simpl.
      rewrite objectNode_snoc. by rewrite setProp_fresh.
Qed.

(** The [set] calls of a walk, run from an empty position, build the
    error tree of the walked value. *)
Lemma setAllUnder_errorTree value :
  wfValue value = true ->
  forall validationType,
    setAllUnder None (relViolations h value validationType)
    = errorTree h value validationType.
Proof.
  induction value as [| | b | n | s | elements IH | props IH]
    using JsValue_nested_ind; intros Hwf [vt|];
    try (simpl; repeat case_match; done).
  - rewrite relViolations_array, errorTree_array. simpl in Hwf.
    apply andb_true_iff in Hwf as [Hlen Hwf]. apply N.leb_le in Hlen.
    apply setAllUnder_elements; [done|].
    rewrite forallb_forall in Hwf. apply Forall_forall. intros x Hin.
    rewrite Forall_forall in IH. apply IH; [done|].
    apply Hwf. by apply list_elem_of_In.
  - rewrite relViolations_object, errorTree_object. simpl in Hwf.
    apply andb_true_iff in Hwf as [Hnd Hwf]. apply bool_decide_eq_true in Hnd.
    apply setAllUnder_members; [done|].
    rewrite forallb_forall in Hwf. apply Forall_forall. intros kv Hin.
    rewrite Forall_forall in IH. apply IH; [done|].
    apply Hwf. by apply list_elem_of_In.
Qed.
End closed_form.

(** ** Every violation is in the error map *)

Lemma errorMembers_NoDup h vt props :
  NoDup props.*1 -> NoDup (omap (errorMember h vt) props).*1.
Proof.
  induction props as [|kv props IH]; simpl; [done|].
  rewrite NoDup_cons. intros [Hfresh Hnd].
  destruct (errorMember h vt kv) as [member|] eqn:Hm; [|by apply IH].
  simpl. apply NoDup_cons. split; [|by apply IH].
  rewrite (errorMember_key _ _ _ _ Hm). intros Hin.
  by apply errorMembers_keys in Hin.
Qed.

Lemma fold_left_fmap {A B C : Type} (f : A -> C -> A) (g : B -> C) (l : list B) a :
  fold_left f (g <$> l) a = fold_left (fun a x => f a (g x)) l a.
Proof. revert a. induction l as [|x l IH]; intros a; simpl; [done|apply IH]. Qed.

Lemma fold_set_baseSet (e : ErrorMap) path qs :
  isObject e = true -> path <> [] ->
  fold_left (fun em q => set em (path ++ q) ENull) qs e
  = fold_left (fun em q => baseSet em (path ++ q) ENull) qs e.
Proof.
  intros He Hne. revert e He. induction qs as [|q qs IH]; intros e He; [done|].
  simpl. unfold set at 2. rewrite He. apply IH.
  rewrite isObject_baseSet; [done|]. by destruct path.
Qed.

(** The error map of a walk that starts from the empty map. *)
Lemma validate_from_empty h value validationType path :
  path <> [] ->
  validate h value validationType path (EObject [])
  = match setAllUnder None (relViolations h value validationType) with
    | Some t => set (EObject []) path t
    | None => EObject []
    end.
Proof.
  intros Hne. rewrite validate_violations. unfold violations.
  rewrite fold_left_fmap, fold_set_baseSet, fold_set_under by done.
  assert (Hnone : getPath (EObject []) path = None) by (by destruct path).
  by rewrite Hnone.
Qed.

Section marks.
Variable h : Heap.
Hypothesis Hnames : namesOk h = true.

Lemma errorTree_nonempty value validationType q :
  wfValue value = true ->
  q ∈ relViolations h value validationType ->
  is_Some (errorTree h value validationType).
Proof.
  intros Hwf Hq. rewrite <- (setAllUnder_errorTree h Hnames value Hwf).
  apply setAllUnder_nonempty. intros Hnil. rewrite Hnil in Hq. by inversion Hq.
Qed.

(** Every violation of a value is a [null] of its error tree. *)
Lemma errorTree_marks value :
  wfValue value = true ->
  forall validationType q t,
    q ∈ relViolations h value validationType ->
    errorTree h value validationType = Some t ->
    jsonGet t q = Some ENull.
Proof.
  induction value as [| | b | n | s | elements IH | props IH]
    using JsValue_nested_ind; intros Hwf [vt|] q t;
    try (simpl; repeat case_match; by inversion 1).
  - rewrite relViolations_array, errorTree_array. simpl in Hwf.
    apply andb_true_iff in Hwf as [Hlen Hwf]. apply N.leb_le in Hlen.
    rewrite forallb_forall in Hwf. rewrite Forall_forall in IH.
    intros Hq Ht. apply list_elem_of_join in Hq as (l & Hq & Hl).
    apply elem_of_lookup_imap in Hl as (i & x & -> & Hx).
    apply list_elem_of_fmap in Hq as (q' & -> & Hq').
    assert (Hin : x ∈ elements) by (by eapply list_elem_of_lookup_2).
    assert (Hwfx : wfValue x = true) by (by apply Hwf, list_elem_of_In).
    destruct (errorTree_nonempty x (Some vt) q' Hwfx Hq') as [t' Ht'].
    unfold arrayNode in Ht. destruct (dropTrailingHoles _) eqn:Hdrop; [done|].
    injection Ht as <-. rewrite <- Hdrop. cbn [jsonGet jsonChild].
    rewrite arrayIndex_toString
      by (apply lookup_lt_Some in Hx; lia).
    rewrite (dropTrailingHoles_lookup _ i t').
    + simpl. by apply (IH x Hin Hwfx (Some vt)).
    + by rewrite list_lookup_fmap, Hx, <- Ht'.
  - rewrite relViolations_object, errorTree_object. simpl in Hwf.
    apply andb_true_iff in Hwf as [Hnd Hwf]. apply bool_decide_eq_true in Hnd.
    rewrite forallb_forall in Hwf. rewrite Forall_forall in IH.
    intros Hq Ht. apply list_elem_of_join in Hq as (l & Hq & Hl).
    apply list_elem_of_fmap in Hl as ([key x] & -> & Hin). simpl in Hq.
    assert (Hwfx : wfValue x = true) by (by apply (Hwf (key, x)), list_elem_of_In).
    unfold objectNode in Ht. destruct (omap _ props) eqn:Hmembers; [done|].
    injection Ht as <-. rewrite <- Hmembers.
    assert (Hmember : forall member, errorMember h vt (key, x) = Some (key, member) ->
              jsonChild (EObject (omap (errorMember h vt) props)) key = Some member).
    { intros member Hm. simpl. apply getProp_NoDup; [by apply errorMembers_NoDup|].
      apply list_elem_of_omap. by exists (key, x). }
    unfold keyViolations in Hq. apply elem_of_app in Hq as [Hq|Hq].
    + destruct (isNull x && flagged (lookupField h vt key)) eqn:Hhere;
        [|by inversion Hq].
      apply list_elem_of_singleton in Hq as ->. cbn [jsonGet].
      rewrite (Hmember ENull); [done|]. unfold errorMember. simpl. by rewrite Hhere.
    + apply list_elem_of_fmap in Hq as (q' & -> & Hq').
      destruct (errorTree_nonempty x _ q' Hwfx Hq') as [t' Ht'].
      cbn [jsonGet]. rewrite (Hmember t').
      * by apply (IH (key, x) Hin Hwfx (type <$> lookupField h vt key)).
      * unfold errorMember. simpl.
        destruct (isNull x) eqn:Hnull.
        { destruct x; try done. rewrite relViolations_falsy in Hq' by done.
          inversion Hq'. }
        simpl. by rewrite Ht'.
Qed.

(** From the empty map, [validate] builds the error tree of the value at
    the path it was given. *)
Lemma validate_errorTree value validationType path :
  wfValue value = true -> path <> [] ->
  validate h value validationType path (EObject [])
  = match errorTree h value validationType with
    | Some t => set (EObject []) path t
    | None => EObject []
    end.
Proof.
  intros Hwf Hne. rewrite validate_from_empty by done.
  by rewrite setAllUnder_errorTree.
Qed.
End marks.

(** ** The [null]s of the error map at the keys of an object *)






(** ** The serialized error map can be read back *)

Lemma append_nil (b : string) : EmptyString +:+ b = b.
Proof. reflexivity. Qed.

Lemma append_cons (x : ascii) (a b : string) :
  String x a +:+ b = String x (a +:+ b).
Proof. reflexivity. Qed.

Lemma append_assoc (a b c : string) : (a +:+ b) +:+ c = a +:+ (b +:+ c).
Proof.
  induction a as [|x a IH]; [done|]. rewrite !append_cons. by f_equal.
Qed.

Lemma readString_quoteChar c s :
  readString (quoteChar c +:+ s) = pushChar c (readString s).
Proof.
  destruct c as [[] [] [] [] [] [] [] []]; reflexivity.
Qed.

Lemma readString_quoteBody key rest :
  readString (quoteBody key +:+ dquote +:+ rest) = Some (key, rest).
Proof.
  induction key as [|c key IH]; [done|].
  cbn [quoteBody]. by rewrite append_assoc, readString_quoteChar, IH.
Qed.

Lemma readString_quote key rest :
  exists text, quote key +:+ rest = String (ascii_of_nat 34) text
               /\ readString text = Some (key, rest).
Proof.
  exists (quoteBody key +:+ dquote +:+ rest). split.
  - unfold quote. by rewrite !append_assoc.
  - apply readString_quoteBody.
Qed.

Lemma insertByIndex_map {A B : Type} (f : A -> B) n x (l : list (N * A)) :
  insertByIndex n (f x) (List.map (fun ny => (ny.1, f ny.2)) l)
  = List.map (fun ny => (ny.1, f ny.2)) (insertByIndex n x l).
Proof.
  induction l as [|[m y] l IH]; simpl; [done|].
  destruct (n <? m)%N; simpl; [done|]. by rewrite IH.
Qed.

(** The order of the keys does not depend on the values. *)
Lemma ownPropertyOrder_map {A B : Type} (f : A -> B) (members : list (string * A)) :
  ownPropertyOrder (List.map (fun kv => (kv.1, f kv.2)) members)
  = List.map (fun kv => (kv.1, f kv.2)) (ownPropertyOrder members).
Proof.
  unfold ownPropertyOrder. rewrite List.map_app. f_equal.
  - set (g := fun nkv : N * (string * A) => (nkv.1, (nkv.2.1, f nkv.2.2))).
    assert (Hindexed :
              omap (fun kv : string * B => (fun n => (n, kv)) <$> arrayIndexN kv.1)
                (List.map (fun kv => (kv.1, f kv.2)) members)
              = List.map g
                  (omap (fun kv : string * A =>
                           (fun n => (n, kv)) <$> arrayIndexN kv.1) members)).
    { induction members as [|[k v] members IH]; simpl; [done|].
      destruct (arrayIndexN k) as [n|]; simpl; [|exact IH]. f_equal. exact IH. }
    rewrite Hindexed.
    generalize (omap (fun kv : string * A =>
                        (fun n => (n, kv)) <$> arrayIndexN kv.1) members).
    intros l.
    assert (Hfold :
              foldr (fun nkv acc => insertByIndex nkv.1 nkv.2 acc) [] (List.map g l)
              = List.map g
                  (foldr (fun nkv acc => insertByIndex nkv.1 nkv.2 acc) [] l)).
    { induction l as [|[n kv] l IH]; simpl; [done|]. rewrite IH.
      generalize (foldr (fun nkv acc => insertByIndex nkv.1 nkv.2 acc) [] l).
      intros sorted. induction sorted as [|[m y] sorted IHs]; simpl; [done|].
      destruct (n <? m)%N; simpl; [done|]. by rewrite IHs. }
    rewrite Hfold.
    generalize (foldr (fun nkv acc => insertByIndex nkv.1 nkv.2 acc) [] l).
    intros sorted. induction sorted as [|[m y] sorted IHs]; simpl; [done|].
    f_equal. exact IHs.
  - induction members as [|[k v] members IH]; simpl; [done|].
    destruct (arrayIndexN k); simpl; [done|]. by rewrite IH.
Qed.

Lemma elem_of_insertByIndex {A : Type} n (x : A) l ny :
  ny ∈ insertByIndex n x l <-> ny = (n, x) \/ ny ∈ l.
Proof.
  induction l as [|[m y] l IH]; simpl.
  - rewrite list_elem_of_singleton. split; [by left|]. intros [?|H]; [done|].
    inversion H.
  - destruct (n <? m)%N.
    + by rewrite elem_of_cons.
    + rewrite !elem_of_cons, IH. tauto.
Qed.

(** An object is written with the members it has. *)
Lemma elem_of_ownPropertyOrder {A : Type} (members : list (string * A)) kv :
  kv ∈ ownPropertyOrder members <-> kv ∈ members.
Proof.
  unfold ownPropertyOrder. rewrite elem_of_app.
  assert (Hsorted : forall l : list (N * (string * A)),
             kv ∈ (foldr (fun nkv acc => insertByIndex nkv.1 nkv.2 acc) [] l).*2
             <-> kv ∈ l.*2).
  { induction l as [|[n y] l IH]; simpl; [done|].
    rewrite elem_of_cons, <- IH, !list_elem_of_fmap. split.
    - intros ([m z] & -> & Hin). apply elem_of_insertByIndex in Hin as [[= -> ->]|Hin].
      + by left.
      + right. by exists (m, z).
    - intros [->|([m z] & -> & Hin)].
      + exists (n, y). split; [done|]. apply elem_of_insertByIndex. by left.
      + exists (m, z). split; [done|]. apply elem_of_insertByIndex. by right. }
  rewrite Hsorted. clear Hsorted.
  induction members as [|[k v] members IH]; simpl.
  - split; [intros [H|H]; inversion H|inversion 1].
  - rewrite elem_of_cons, <- IH. destruct (arrayIndexN k) as [n|] eqn:Hk; simpl.
    + rewrite elem_of_cons. tauto.
    + rewrite elem_of_cons. tauto.
Qed.

Lemma JSON_stringify_object props :
  JSON_stringify (EObject props)
  = "{" +:+ String.concat ","
              (List.map (fun ks : string * string => quote ks.1 +:+ ":" +:+ ks.2)
                 (List.map (fun kv : string * ErrorMap =>
                              (kv.1, JSON_stringify kv.2))
                    (ownPropertyOrder props)))
        +:+ "}".
Proof.
  rewrite <- (ownPropertyOrder_map JSON_stringify). reflexivity.
Qed.

Lemma JSON_stringify_array items props :
  JSON_stringify (EArray items props)
  = "[" +:+ String.concat ","
              (List.map (fun x : option ErrorMap =>
                           match x with
                           | Some v => JSON_stringify v
                           | None => "null"
                           end) items)
        +:+ "]".
Proof. reflexivity. Qed.

Lemma toJson_object props :
  toJson (EObject props)
  = JObject (List.map (fun kv : string * ErrorMap => (kv.1, toJson kv.2))
               (ownPropertyOrder props)).
Proof. rewrite <- (ownPropertyOrder_map toJson). reflexivity. Qed.

Lemma concat_cons_cons (sep x y : string) (l : list string) :
  String.concat sep (x :: y :: l) = x +:+ sep +:+ String.concat sep (y :: l).
Proof. reflexivity. Qed.

Lemma parseValue_null fuel rest :
  parseValue (S fuel) ("null" +:+ rest) = Some (JNull, rest).
Proof. reflexivity. Qed.

Lemma parseValue_object fuel c1 rest1 members rest2 :
  Nat.eqb (nat_of_ascii c1) 125 = false ->
  parseMembers (parseValue fuel) fuel (String c1 rest1) = Some (members, rest2) ->
  parseValue (S fuel) ("{" +:+ String c1 rest1) = Some (JObject members, rest2).
Proof.
  intros Hc Hmembers. rewrite append_cons, append_nil.
  cbn [parseValue]. cbv beta zeta.
  change (Nat.eqb (nat_of_ascii "{") 110) with false.
  change (Nat.eqb (nat_of_ascii "{") 123) with true.
  cbv iota. by rewrite Hc, Hmembers.
Qed.

Lemma parseValue_array fuel c1 rest1 elements rest2 :
  Nat.eqb (nat_of_ascii c1) 93 = false ->
  parseElements (parseValue fuel) fuel (String c1 rest1) = Some (elements, rest2) ->
  parseValue (S fuel) ("[" +:+ String c1 rest1) = Some (JArray elements, rest2).
Proof.
  intros Hc Helements. rewrite append_cons, append_nil.
  cbn [parseValue]. cbv beta zeta.
  change (Nat.eqb (nat_of_ascii "[") 110) with false.
  change (Nat.eqb (nat_of_ascii "[") 123) with false.
  change (Nat.eqb (nat_of_ascii "[") 91) with true.
  cbv iota. by rewrite Hc, Helements.
Qed.

Lemma parseMembers_last parseValue n text key rest1 v rest2 :
  readString text = Some (key, ":" +:+ rest1) ->
  parseValue rest1 = Some (v, "}" +:+ rest2) ->
  parseMembers parseValue (S n) (String (ascii_of_nat 34) text)
  = Some ([(key, v)], rest2).
Proof.
  rewrite !append_cons, !append_nil. intros Hkey Hv.
  cbn [parseMembers]. change (Nat.eqb (nat_of_ascii (ascii_of_nat 34)) 34) with true.
  cbv iota. rewrite Hkey. change (Nat.eqb (nat_of_ascii ":") 58) with true.
  cbv iota. rewrite Hv. reflexivity.
Qed.

Lemma parseMembers_more parseValue n text key rest1 v rest2 members rest3 :
  readString text = Some (key, ":" +:+ rest1) ->
  parseValue rest1 = Some (v, "," +:+ rest2) ->
  parseMembers parseValue n rest2 = Some (members, rest3) ->
  parseMembers parseValue (S n) (String (ascii_of_nat 34) text)
  = Some ((key, v) :: members, rest3).
Proof.
  rewrite !append_cons, !append_nil. intros Hkey Hv Hrest.
  cbn [parseMembers]. change (Nat.eqb (nat_of_ascii (ascii_of_nat 34)) 34) with true.
  cbv iota. rewrite Hkey. change (Nat.eqb (nat_of_ascii ":") 58) with true.
  cbv iota. rewrite Hv. change (Nat.eqb (nat_of_ascii ",") 44) with true.
  cbv iota. by rewrite Hrest.
Qed.

Lemma parseElements_last parseValue n s v rest :
  parseValue s = Some (v, "]" +:+ rest) ->
  parseElements parseValue (S n) s = Some ([v], rest).
Proof.
  rewrite append_cons, append_nil. intros Hv.
  cbn [parseElements]. rewrite Hv. reflexivity.
Qed.

Lemma parseElements_more parseValue n s v rest elements rest1 :
  parseValue s = Some (v, "," +:+ rest) ->
  parseElements parseValue n rest = Some (elements, rest1) ->
  parseElements parseValue (S n) s = Some (v :: elements, rest1).
Proof.
  rewrite append_cons, append_nil. intros Hv Hrest.
  cbn [parseElements]. rewrite Hv.
  change (Nat.eqb (nat_of_ascii ",") 44) with true. cbv iota. by rewrite Hrest.
Qed.

(** The members of an object, as written, are read back in their order. *)
Lemma parseMembers_stringify fuel (members : list (string * ErrorMap)) :
  Forall (fun kv : string * ErrorMap =>
            forall rest, parseValue fuel (JSON_stringify kv.2 +:+ rest)
                         = Some (toJson kv.2, rest)) members ->
  members <> [] ->
  forall n rest,
    length members <= n ->
    parseMembers (parseValue fuel) n
      (String.concat ","
         (List.map (fun ks : string * string => quote ks.1 +:+ ":" +:+ ks.2)
            (List.map (fun kv : string * ErrorMap => (kv.1, JSON_stringify kv.2))
               members))
       +:+ "}" +:+ rest)
    = Some (List.map (fun kv : string * ErrorMap => (kv.1, toJson kv.2)) members,
            rest).
Proof.
  induction members as [|[key v] members IH]; intros Hall Hne n rest Hn; [done|].
  apply List.Forall_cons_iff in Hall as [Hv Hall]. simpl in Hv.
  destruct n as [|n]; [simpl in Hn; lia|].
  destruct members as [|kv' members].
  - cbn [List.map String.concat fst snd].
    rewrite !append_assoc.
    destruct (readString_quote key (":" +:+ JSON_stringify v +:+ "}" +:+ rest))
      as (text & -> & Hkey).
    by apply (parseMembers_last _ _ _ key (JSON_stringify v +:+ "}" +:+ rest)
                (toJson v) rest).
  - cbn [List.map]. rewrite concat_cons_cons. cbn [fst snd].
    rewrite !append_assoc.
    match goal with |- context [String.concat "," ?l +:+ "}" +:+ rest] =>
      set (tail := String.concat "," l +:+ "}" +:+ rest) end.
    destruct (readString_quote key (":" +:+ JSON_stringify v +:+ "," +:+ tail))
      as (text & -> & Hkey).
    apply (parseMembers_more _ _ _ key (JSON_stringify v +:+ "," +:+ tail)
             (toJson v) tail
             (List.map (fun kv : string * ErrorMap => (kv.1, toJson kv.2))
                (kv' :: members)) rest); [done|apply Hv|].
    apply IH; [done|done|]. simpl in *. lia.
Qed.

Lemma parseElements_stringify fuel (items : list (option ErrorMap)) :
  Forall (fun x : option ErrorMap =>
            forall rest,
              parseValue fuel (match x with
                               | Some v => JSON_stringify v
                               | None => "null"
                               end +:+ rest)
              = Some (match x with Some v => toJson v | None => JNull end, rest))
         items ->
  items <> [] ->
  forall n rest,
    length items <= n ->
    parseElements (parseValue fuel) n
      (String.concat ","
         (List.map (fun x : option ErrorMap =>
                      match x with
                      | Some v => JSON_stringify v
                      | None => "null"
                      end) items)
       +:+ "]" +:+ rest)
    = Some (List.map (fun x : option ErrorMap =>
                        match x with Some v => toJson v | None => JNull end) items,
            rest).
Proof.
  induction items as [|x items IH]; intros Hall Hne n rest Hn; [done|].
  apply List.Forall_cons_iff in Hall as [Hx Hall].
  destruct n as [|n]; [simpl in Hn; lia|].
  destruct items as [|y items].
  - cbn [List.map String.concat]. by apply parseElements_last.
  - cbn [List.map]. rewrite concat_cons_cons. rewrite !append_assoc.
    eapply parseElements_more; [apply Hx|].
    apply IH; [done|done|]. simpl in *. lia.
Qed.

Lemma JSON_stringify_head e :
  exists c text,
    JSON_stringify e = String c text
    /\ Nat.eqb (nat_of_ascii c) 93 = false.
Proof.
  destruct e as [|props|items props].
  - by exists "n"%char, "ull".
  - rewrite JSON_stringify_object. by eexists "{"%char, _.
  - rewrite JSON_stringify_array. by eexists "["%char, _.
Qed.

Lemma Forall_common_fuel {A : Type} (Q : A -> nat -> Prop) (l : list A) :
  (forall x n m, Q x n -> n <= m -> Q x m) ->
  Forall (fun x => exists n, Q x n) l ->
  exists n, Forall (fun x => Q x n) l.
Proof.
  intros Hmono. induction 1 as [|x l [n Hx] _ [m IH]].
  - exists 0. by apply List.Forall_nil.
  - exists (n `max` m). apply List.Forall_cons.
    + apply (Hmono x n); [done|lia].
    + eapply Forall_impl; [exact IH|]. intros y Hy. apply (Hmono y m); [done|lia].
Qed.

(** Reading the text written for an error map gives the value the map
    denotes, and the text after it. *)
Lemma parseValue_stringify e :
  exists n, forall fuel, n <= fuel ->
    forall rest, parseValue fuel (JSON_stringify e +:+ rest) = Some (toJson e, rest).
Proof.
  induction e as [|props IH|items props IH _] using ErrorMap_nested_ind.
  - exists 1. intros [|fuel] Hfuel rest; [lia|]. apply parseValue_null.
  - assert (IH' : Forall (fun kv : string * ErrorMap =>
                            exists n, forall fuel, n <= fuel -> forall rest,
                              parseValue fuel (JSON_stringify kv.2 +:+ rest)
                              = Some (toJson kv.2, rest)) (ownPropertyOrder props)).
    { apply Forall_forall. intros kv Hin. rewrite Forall_forall in IH.
      apply IH. by apply elem_of_ownPropertyOrder. }
    apply (Forall_common_fuel
             (fun kv n => forall fuel, n <= fuel -> forall rest,
                parseValue fuel (JSON_stringify kv.2 +:+ rest)
                = Some (toJson kv.2, rest))) in IH' as [n Hn].
    2:{ intros kv a b Ha Hab fuel Hfuel. apply Ha. lia. }
    exists (S (n `max` length (ownPropertyOrder props))).
    intros [|fuel] Hfuel rest; [lia|].
    rewrite JSON_stringify_object, toJson_object.
    destruct (ownPropertyOrder props) as [|kv members] eqn:Hmembers.
    { reflexivity. }
    rewrite <- Hmembers in *. rewrite !append_assoc.
    assert (Htext : exists text,
               String.concat ","
                 (List.map (fun ks : string * string => quote ks.1 +:+ ":" +:+ ks.2)
                    (List.map (fun kv : string * ErrorMap =>
                                 (kv.1, JSON_stringify kv.2))
                       (ownPropertyOrder props)))
               +:+ "}" +:+ rest
               = String (ascii_of_nat 34) text).
    { rewrite Hmembers. destruct kv as [key v]. destruct members as [|kv' members].
      - cbn [List.map String.concat fst snd]. rewrite !append_assoc.
        destruct (readString_quote key (":" +:+ JSON_stringify v +:+ "}" +:+ rest))
          as (text & -> & _). by exists text.
      - cbn [List.map]. rewrite concat_cons_cons. cbn [fst snd].
        rewrite !append_assoc.
        match goal with |- context [quote key +:+ ?tail] =>
          destruct (readString_quote key tail) as (text & -> & _) end.
        by exists text. }
    destruct Htext as [text Htext].
    assert (Hread : parseMembers (parseValue fuel) fuel
                      (String (ascii_of_nat 34) text)
                    = Some (List.map (fun kv : string * ErrorMap =>
                                        (kv.1, toJson kv.2))
                              (ownPropertyOrder props), rest)).
    { rewrite <- Htext. apply parseMembers_stringify.
      - eapply Forall_impl; [exact Hn|]. intros kv0 Hkv rest0. apply Hkv. lia.
      - by rewrite Hmembers.
      - lia. }
    rewrite Htext. by apply parseValue_object.
  - assert (IH' : Forall (fun x : option ErrorMap =>
                            exists n, forall fuel, n <= fuel -> forall rest,
                              parseValue fuel
                                (match x with
                                 | Some v => JSON_stringify v
                                 | None => "null"
                                 end +:+ rest)
                              = Some (match x with
                                      | Some v => toJson v
                                      | None => JNull
                                      end, rest)) items).
    { eapply Forall_impl; [exact IH|]. intros [v|] Hx; [exact Hx|].
      exists 1. intros [|fuel] Hfuel rest; [lia|]. apply parseValue_null. }
    apply (Forall_common_fuel
             (fun x n => forall fuel, n <= fuel -> forall rest,
                parseValue fuel
                  (match x with
                   | Some v => JSON_stringify v
                   | None => "null"
                   end +:+ rest)
                = Some (match x with Some v => toJson v | None => JNull end, rest)))
      in IH' as [n Hn].
    2:{ intros x a b Ha Hab fuel Hfuel. apply Ha. lia. }
    exists (S (n `max` length items)).
    intros [|fuel] Hfuel rest; [lia|].
    rewrite JSON_stringify_array. cbn [toJson].
    destruct items as [|x items].
    { reflexivity. }
    rewrite !append_assoc.
    assert (Htext : exists c text,
               String.concat ","
                 (List.map (fun x : option ErrorMap =>
                              match x with
                              | Some v => JSON_stringify v
                              | None => "null"
                              end) (x :: items))
               +:+ "]" +:+ rest
               = String c text
               /\ Nat.eqb (nat_of_ascii c) 93 = false).
    { assert (Hhead : exists c text,
                 match x with Some v => JSON_stringify v | None => "null" end
                 = String c text
                 /\ Nat.eqb (nat_of_ascii c) 93 = false).
      { destruct x as [v|]; [apply JSON_stringify_head|].
        by exists "n"%char, "ull". }
      destruct Hhead as (c & text & Hx & Hc).
      destruct items as [|y items].
      - cbn [List.map String.concat]. rewrite Hx, append_cons. by eexists c, _.
      - cbn [List.map]. rewrite concat_cons_cons, Hx, !append_cons.
        by eexists c, _. }
    destruct Htext as (c & text & Htext & Hc).
    assert (Hread : parseElements (parseValue fuel) fuel (String c text)
                    = Some (List.map (fun x : option ErrorMap =>
                                        match x with
                                        | Some v => toJson v
                                        | None => JNull
                                        end) (x :: items), rest)).
    { rewrite <- Htext. apply parseElements_stringify.
      - eapply Forall_impl; [exact Hn|]. intros x0 Hx0 rest0. apply Hx0. lia.
      - done.
      - simpl in *. lia. }
    rewrite Htext. by apply parseValue_array.
Qed.

(** The whole text written for an error map reads back as the value the
    map denotes. *)
Lemma JSON_parse_stringify e :
  exists n, forall fuel, n <= fuel ->
    JSON_parse fuel (JSON_stringify e) = Some (toJson e).
Proof.
  destruct (parseValue_stringify e) as [n Hn]. exists n. intros fuel Hfuel.
  unfold JSON_parse.
  assert (Hnil : JSON_stringify e = JSON_stringify e +:+ EmptyString).
  { generalize (JSON_stringify e). intros s.
    induction s as [|c s IH]; [done|]. rewrite append_cons. by f_equal. }
  rewrite Hnil. by rewrite (Hn fuel Hfuel).
Qed.

(** A [null] of the error map is a [null] of the value its text denotes. *)
Lemma jsonGet_nullAt e path :
  jsonGet e path = Some ENull -> nullAt (toJson e) path = true.
Proof.
  revert e. induction path as [|key rest IH]; intros e.
  - cbn [jsonGet]. by intros [= ->].
  - cbn [jsonGet]. destruct (jsonChild e key) as [child|] eqn:Hchild; [|done].
    intros Hrest. apply IH in Hrest.
    destruct e as [|props|items props]; [done| |].
    + simpl in Hchild. apply getProp_Some_elem in Hchild.
      rewrite toJson_object. cbn [nullAt]. apply existsb_exists.
      exists (key, toJson child). split.
      * apply list_elem_of_In.
        apply (list_elem_of_fmap_2 (fun kv : string * ErrorMap => (kv.1, toJson kv.2))
                 _ (key, child)).
        by apply elem_of_ownPropertyOrder.
      * simpl. by rewrite String.eqb_refl.
    + simpl in Hchild. cbn [toJson nullAt].
      destruct (arrayIndex key) as [i|]; [|done].
      destruct (items !! i) as [[v|]|] eqn:Hi; try done.
      simpl in Hchild. injection Hchild as ->.
      change (List.map ?f items) with (f <$> items).
      by rewrite list_lookup_fmap, Hi.
Qed.

(** ** The resolver wrapper *)

Lemma validate_args h args validationType :
  validate h args validationType ["args"] (EObject [])
  = match setAllUnder None (relViolations h args validationType) with
    | Some t => EObject [("args", t)]
    | None => EObject []
    end.
Proof. by rewrite validate_from_empty. Qed.

Lemma violations_nil h value validationType path :
  violations h value validationType path = []
  <-> relViolations h value validationType = [].
Proof.
  unfold violations. split; [apply fmap_nil_inv|]. by intros ->.
Qed.

Lemma validate_args_keys h args validationType :
  Object_keys (validate h args validationType ["args"] (EObject [])) <> []
  <-> violations h args validationType ["args"] <> [].
Proof.
  rewrite validate_args, violations_nil.
  destruct (relViolations h args validationType) as [|q qs] eqn:Hrel.
  - simpl. naive_solver.
  - destruct (setAllUnder_nonempty None (q :: qs)) as [t ->]; [done|].
    simpl. naive_solver.
Qed.

(** X15: the wrapper throws exactly when the walk over the arguments leaves
    a non-empty error map, which is exactly when the walk found a
    violation; otherwise it calls the continuation and returns its
    result.  For arguments whose objects have distinct keys and shapes
    whose field names are GraphQL names that no object inherits, the
    message is the prefix followed by the text that [JSON.stringify]
    writes for the error map, and that text, read back as JSON, holds
    [null] at the path of every violation that the walk found, not only
    at the first. *)
Theorem fieldResolver_throws_iff_violation {Root Ctx Info Res : Type}
  (h : Heap) (argsValidationType : loc) (root : Root) (args : JsValue)
  (ctx : Ctx) (info : Info) (next : Root -> JsValue -> Ctx -> Info -> Res) :
  let errorMap := validate h args (Some argsValidationType) ["args"] (EObject []) in
  let found := violations h args (Some argsValidationType) ["args"] in
  let result := fieldResolver h argsValidationType root args ctx info next in
  ((exists message, result = Thrown message) <-> Object_keys errorMap <> [])
  /\ (Object_keys errorMap <> [] <-> found <> [])
  /\ (Object_keys errorMap = [] ->
      result = Continued root args ctx info (next root args ctx info))
  /\ (wfValue args = true -> namesOk h = true -> namesOwn h = true ->
      Object_keys errorMap <> [] ->
      exists body fuel json,
        result = Thrown (messagePrefix +:+ body)
        /\ body = JSON_stringify errorMap
        /\ (forall fuel', fuel <= fuel' -> JSON_parse fuel' body = Some json)
        /\ (forall p, p ∈ found -> jsonGet errorMap p = Some ENull)
        /\ (forall p, p ∈ found -> nullAt json p = true)).
Proof.
  intros errorMap found result.
  assert (Hthrow : Object_keys errorMap <> [] ->
            result = Thrown (messagePrefix +:+ JSON_stringify errorMap)).
  { intros Hkeys. unfold result, fieldResolver. fold errorMap.
    destruct (Object_keys errorMap); [done|]. done. }
  assert (Hnext : Object_keys errorMap = [] ->
            result = Continued root args ctx info (next root args ctx info)).
  { intros Hkeys. unfold result, fieldResolver. fold errorMap. by rewrite Hkeys. }
  split; [|split; [|split]].
  - split.
    + intros [message Hm] Hkeys. rewrite (Hnext Hkeys) in Hm. done.
    + intros Hkeys. eexists. by apply Hthrow.
  - apply validate_args_keys.
  - exact Hnext.
  - intros Hwf Hnames _ Hkeys.
    destruct (JSON_parse_stringify errorMap) as [fuel Hfuel].
    assert (Hmarks : forall p, p ∈ found -> jsonGet errorMap p = Some ENull).
    { intros p Hp. unfold found, violations in Hp.
      apply list_elem_of_fmap in Hp as (q & -> & Hq).
      destruct (errorTree_nonempty h Hnames args _ q Hwf Hq) as [t Ht].
      unfold errorMap. rewrite (validate_errorTree h Hnames) by done.
      rewrite Ht. simpl.
      by apply (errorTree_marks h Hnames args Hwf (Some argsValidationType)). }
    exists (JSON_stringify errorMap), fuel, (toJson errorMap).
    split; [by apply Hthrow|]. split; [done|]. split; [exact Hfuel|].
    split; [exact Hmarks|].
    intros p Hp. by apply jsonGet_nullAt, Hmarks.
Qed.

Lemma fieldResolver_throws_iff_violation_witness :
  wfValue (VObject [("xs", VArray [VObject [("a", VNull)];
                                   VObject [("a", VString "x")];
                                   VObject [("a", VNull); ("b", VNull)]])])
  = true
  /\ namesOk shapeArgs = true
  /\ namesOwn shapeArgs = true
  /\ exists body fuel json,
       fieldResolver shapeArgs 2 tt
         (VObject [("xs", VArray [VObject [("a", VNull)];
                                  VObject [("a", VString "x")];
                                  VObject [("a", VNull); ("b", VNull)]])])
         tt tt (fun _ _ _ _ => tt)
       = Thrown (messagePrefix +:+ body)
       /\ (forall fuel', fuel <= fuel' -> JSON_parse fuel' body = Some json)
       /\ nullAt json ["args"; "xs"; "0"; "a"] = true
       /\ nullAt json ["args"; "xs"; "2"; "a"] = true.
Proof.
  set (args := VObject [("xs", VArray [VObject [("a", VNull)];
                                       VObject [("a", VString "x")];
                                       VObject [("a", VNull); ("b", VNull)]])]).
  assert (Hwf : wfValue args = true) by (vm_compute; reflexivity).
  assert (Hnames : namesOk shapeArgs = true) by (vm_compute; reflexivity).
  assert (Hown : namesOwn shapeArgs = true) by (vm_compute; reflexivity).
  assert (Hkeys : Object_keys (validate shapeArgs args (Some 2) ["args"] (EObject []))
                  <> []) by (vm_compute; discriminate).
  destruct (fieldResolver_throws_iff_violation
              shapeArgs 2 tt args tt tt (fun _ _ _ _ => tt))
    as (_ & _ & _ & Htext).
  destruct (Htext Hwf Hnames Hown Hkeys)
    as (body & fuel & json & Hthrown & _ & Hparse & _ & Hnull).
  split; [exact Hwf|]. split; [exact Hnames|]. split; [exact Hown|].
  exists body, fuel, json. split; [exact Hthrown|]. split; [exact Hparse|]. split.
  - apply Hnull. vm_compute. apply list_elem_of_here.
  - apply Hnull. vm_compute. apply list_elem_of_further, list_elem_of_here.
Defined.

(** The message of the thrown error for that call. *)
Example fieldResolver_message :
  fieldResolver shapeArgs 2 tt
    (VObject [("xs", VArray [VObject [("a", VNull)];
                             VObject [("a", VString "x")];
                             VObject [("a", VNull); ("b", VNull)]])])
    tt tt (fun _ _ _ _ => tt)
  = Thrown (messagePrefix
              +:+ "{" +:+ dquote +:+ "args" +:+ dquote +:+ ":{"
              +:+ dquote +:+ "xs" +:+ dquote +:+ ":[{"
              +:+ dquote +:+ "a" +:+ dquote +:+ ":null},null,{"
              +:+ dquote +:+ "a" +:+ dquote +:+ ":null}]}}").
Proof. vm_compute. reflexivity. Qed.


(** ** The walk in the heap leaves the arguments alone *)
















Lemma represents_truthy b (σ : InStore.JsStore) v t :
  InStore.represents b σ v t -> InStore.truthy v = truthy t.
Proof. by destruct 1. Qed.













(** ** Field names that every object inherits *)

(** C3, at a field named [constructor].  For the operation with the one
    argument [input : Outer], whose type has the flagged field
    [constructor] over a type with the flagged field [x], the resolver
    hook compiles the shapes [inheritedNameShapes].  Called with
    [{input: {constructor: {x: null}}}], the walk finds the violation at
    [args.input.constructor.x] and the wrapper throws, but the message
    holds [{"args":{"input":{}}}] and no marker for that path: at the
    key [constructor] of the new object for [input], [set] finds the
    function [Object], which that object inherits, keeps it, and writes
    [x] to the function. *)
Theorem inherited_field_name_is_missing_from_message :
  let argMap := [("input", NamedType "Outer")] in
  let t := VObject [("input", VObject [("constructor", VObject [("x", VNull)])])] in
  let σ := InStore.exampleRealmObjects ++ constructorArgs 5 in
  let body :=
    "{" +:+ dquote +:+ "args" +:+ dquote +:+ ":{"
        +:+ dquote +:+ "input" +:+ dquote +:+ ":{}}}" in
  (exists st,
     onCreateFieldResolver inheritedNameSchema 10 (Some argMap) initialState
     = Some (Some 4, st)
     /\ heap st = inheritedNameShapes)
  /\ InStore.realmOk InStore.exampleRealm 5 σ
  /\ InStore.represents 5 σ (InStore.SRef 5) t
  /\ violations inheritedNameShapes t (Some 4) ["args"]
     = [["args"; "input"; "constructor"; "x"]]
  /\ (forall fuel, 4 <= fuel ->
      exists σ',
        InStore.fieldResolver fuel InStore.exampleRealm inheritedNameShapes 4
          tt (InStore.SRef 5) tt tt (fun _ _ _ _ _ => tt) σ
        = Some (InStore.Thrown (messagePrefix +:+ body), σ')
        /\ σ' !! 1 = Some (InStore.SFunction [("prototype", InStore.SRef 0);
                                              ("x", InStore.SNull)])
        /\ σ' !! 8 = Some (InStore.SPlain [("args", InStore.SRef 9)])
        /\ σ' !! 9 = Some (InStore.SPlain [("input", InStore.SRef 10)])
        /\ σ' !! 10 = Some (InStore.SPlain [("constructor", InStore.SRef 1)]))
  /\ (exists json,
        JSON_parse 10 body = Some json
        /\ nullAt json ["args"; "input"; "constructor"; "x"] = false).
Proof.
  cbv zeta. split; [|split; [|split; [|split; [|split]]]].
  - eexists. split; [vm_compute; reflexivity|reflexivity].
  - split; [unfold InStore.realmBelow; simpl; lia|]. split; [simpl; lia|].
    intros a cell Ha Hcell.
    do 5 (destruct a as [|a]; [injection Hcell as <-; simpl; intros key v Hin;
      repeat (apply elem_of_cons in Hin as [[= _ ->]|Hin]; [simpl; lia|]);
      inversion Hin|]).
    lia.
  - eapply InStore.represents_object; [|reflexivity|]; [lia|].
    constructor; [|constructor]. split; [done|]. simpl.
    eapply InStore.represents_object; [|reflexivity|]; [lia|].
    constructor; [|constructor]. split; [done|]. simpl.
    eapply InStore.represents_object; [|reflexivity|]; [lia|].
    constructor; [|constructor]. split; [done|]. constructor.
  - reflexivity.
  - intros [|[|[|[|fuel]]]] Hfuel; try lia. eexists.
    split; [vm_compute; reflexivity|]. by repeat split.
  - eexists. split; [vm_compute; reflexivity|]. reflexivity.
Qed.

(** C9, at a list field named [hasOwnProperty].  For the same operation,
    called with [{input: {hasOwnProperty: [{x: 1}, {x: null}]}}], the
    only violation is in the element at index 1, at
    [args.input.hasOwnProperty.1.x], and the wrapper throws; but the
    error map has no array for the list, and the message holds
    [{"args":{"input":{}}}], with no placeholder and no marker: at the
    key [hasOwnProperty] of the new object for [input], [set] finds the
    function that object inherits, keeps it, and writes the property
    [1] to the function. *)
Theorem inherited_field_name_loses_list_from_message :
  let t :=
    VObject [("input",
              VObject [("hasOwnProperty",
                        VArray [VObject [("x", VNumber 1)];
                                VObject [("x", VNull)]])])] in
  let σ := InStore.exampleRealmObjects ++ hasOwnPropertyArgs 5 in
  let body :=
    "{" +:+ dquote +:+ "args" +:+ dquote +:+ ":{"
        +:+ dquote +:+ "input" +:+ dquote +:+ ":{}}}" in
  InStore.represents 5 σ (InStore.SRef 5) t
  /\ violations inheritedNameShapes t (Some 4) ["args"]
     = [["args"; "input"; "hasOwnProperty"; "1"; "x"]]
  /\ (forall fuel, 6 <= fuel ->
      exists σ',
        InStore.fieldResolver fuel InStore.exampleRealm inheritedNameShapes 4
          tt (InStore.SRef 5) tt tt (fun _ _ _ _ _ => tt) σ
        = Some (InStore.Thrown (messagePrefix +:+ body), σ')
        /\ σ' !! 4 = Some (InStore.SFunction [("1", InStore.SRef 13)])
        /\ σ' !! 13 = Some (InStore.SPlain [("x", InStore.SNull)])
        /\ σ' !! 12 = Some (InStore.SPlain [("hasOwnProperty", InStore.SRef 4)])
        /\ forall a items props, σ' !! a = Some (InStore.SArr items props) -> a = 7)
  /\ (exists json,
        JSON_parse 10 body = Some json
        /\ nullAt json ["args"; "input"; "hasOwnProperty"; "1"; "x"] = false
        /\ nullAt json ["args"; "input"; "hasOwnProperty"; "0"] = false).
Proof.
  cbv zeta. split; [|split; [|split]].
  - eapply InStore.represents_object; [|reflexivity|]; [lia|].
    constructor; [|constructor]. split; [done|]. simpl.
    eapply InStore.represents_object; [|reflexivity|]; [lia|].
    constructor; [|constructor]. split; [done|]. simpl.
    eapply InStore.represents_array; [|reflexivity|]; [lia|].
    constructor; [|constructor; [|constructor]].
    + eexists. split; [done|].
      eapply InStore.represents_object; [|reflexivity|]; [lia|].
      constructor; [|constructor]. split; [done|]. constructor.
    + eexists. split; [done|].
      eapply InStore.represents_object; [|reflexivity|]; [lia|].
      constructor; [|constructor]. split; [done|]. constructor.
  - reflexivity.
  - intros [|[|[|[|[|[|fuel]]]]]] Hfuel; try lia. eexists.
    split; [vm_compute; reflexivity|]. split; [done|]. split; [done|].
    split; [done|]. intros a items props Ha.
    do 14 (destruct a as [|a]; [by inversion Ha|]). by destruct a.
  - eexists. split; [vm_compute; reflexivity|]. by split.
Qed.

(** ** Shapes without inherited field names *)

Lemma namesOwn_app h1 h2 : namesOwn (h1 ++ h2) = namesOwn h1 && namesOwn h2.
Proof. unfold namesOwn. apply forallb_app. Qed.

Lemma namesOwn_insert h node cell :
  namesOwn h = true ->
  match fields cell with
  | Some fs => forallb (fun kf : string * ValidationField => negb (isInherited kf.1)) fs
  | None => true
  end = true ->
  namesOwn (<[node := cell]> h) = true.
Proof.
  unfold namesOwn. rewrite !forallb_forall. intros Hh Hcell c Hin.
  apply list_elem_of_In, list_elem_of_lookup in Hin as [i Hi].
  destruct (decide (i = node)) as [->|Hne].
  - destruct (decide (node < length h)) as [Hlt|Hge].
    + rewrite list_lookup_insert_eq in Hi by done. by injection Hi as <-.
    + rewrite list_insert_ge in Hi by lia.
      apply Hh, list_elem_of_In. by eapply list_elem_of_lookup_2.
  - rewrite list_lookup_insert_ne in Hi by done.
    apply Hh, list_elem_of_In. by eapply list_elem_of_lookup_2.
Qed.

Lemma namesOwn_cell h node fs :
  namesOwn h = true -> h !! node = Some {| fields := Some fs |} ->
  forallb (fun kf : string * ValidationField => negb (isInherited kf.1)) fs = true.
Proof.
  unfold namesOwn. rewrite forallb_forall. intros Hh Hcell.
  apply (Hh {| fields := Some fs |}), list_elem_of_In.
  by eapply list_elem_of_lookup_2.
Qed.


Lemma getValidationType_namesOwn schema fuel :
  ownNames schema ->
  forall type st node st',
    namesOwn (heap st) = true ->
    getValidationType schema fuel type st = Some (node, st') ->
    namesOwn (heap st') = true.
Proof.
  intros Hschema. induction fuel as [|fuel IH]; intros type st node st' Hok; [done|].
  simpl. unfold cacheEnhancer.
  assert (Halloc : namesOwn (heap st ++ [{| fields := None |}]) = true)
    by (by rewrite namesOwn_app, Hok).
  destruct type as [name|ofType|ofType].
  - unfold mbind, M_bind, cacheLookup. simpl.
    destruct (validationTypeCache st !! name) as [cached|] eqn:Hcache.
    { by intros [= <- <-]. }
    unfold validationMapper. simpl.
    destruct (schema !! name) as [[fs|]|] eqn:Hname;
      try (by intros [= <- <-]).
    destruct (0 <? length _)%nat; [|by intros [= <- <-]].
    unfold mbind, M_bind. simpl.
    match goal with |- context [forEachM ?f ?l ?s] =>
      destruct (forEachM f l s) as [[[] st3]|] eqn:Hloop; [|done] end.
    intros [= <- <-].
    eapply (forEachM_inv (fun s => namesOwn (heap s) = true)) in Hloop; [done| |].
    + intros key x s s' Hkey Hs. unfold mbind, M_bind.
      destruct (getValidationType schema fuel (fieldType x) s)
        as [[sub s1]|] eqn:Hsub; [|done].
      intros [= <-]. simpl. apply IH in Hsub; [|done].
      apply namesOwn_insert; [done|]. simpl.
      apply forallb_setProp.
      * destruct (heap s1 !! length (heap st)) as [[[old|]]|] eqn:Hold; try done.
        by eapply namesOwn_cell.
      * simpl. apply negb_true_iff.
        apply list_elem_of_In, filter_In in Hkey as [Hkey _].
        eapply proj1, (Hschema name fs key x Hname). by apply list_elem_of_In.
    + simpl. by apply namesOwn_insert.
  - unfold mbind, M_bind, validationMapper. simpl. by apply IH.
  - unfold mbind, M_bind, validationMapper. simpl. by apply IH.
Qed.

Lemma collectArgs_namesOwn schema fuel argMap :
  ownNames schema -> argsOwn argMap ->
  forall st fields result st',
    cacheSound schema st -> namesOwn (heap st) = true ->
    forallb (fun kf : string * ValidationField => negb (isInherited kf.1)) fields = true ->
    collectArgs schema fuel argMap fields st = Some (result, st') ->
    cacheSound schema st' /\ namesOwn (heap st') = true
    /\ forallb (fun kf : string * ValidationField => negb (isInherited kf.1)) result = true.
Proof.
  intros Hschema. induction argMap as [|[key type] argMap IH];
    intros Hargs st fields result st' Hs Hok Hfields; simpl.
  - by intros [= <- <-].
  - unfold mbind, M_bind.
    destruct (getValidationType schema fuel type st) as [[sub s1]|] eqn:Hsub; [|done].
    unfold hasFields. simpl. apply IH.
    + intros k t Hin. apply (Hargs k t). by right.
    + by eapply getValidationType_sound.
    + by eapply getValidationType_namesOwn.
    + destruct (match heap s1 !! sub with
                | Some {| fields := Some _ |} => true
                | _ => false
                end); [|done].
      apply forallb_setProp; [done|]. simpl. apply negb_true_iff.
      eapply proj1, (Hargs key type). by left.
Qed.

(** The shapes that the plugin compiles from a schema and arguments
    without inherited names have no inherited field name. *)
Lemma onCreateFieldResolver_namesOwn schema fuel args st result st' :
  ownNames schema ->
  (forall argMap, args = Some argMap -> argsOwn argMap) ->
  cacheSound schema st -> namesOwn (heap st) = true ->
  onCreateFieldResolver schema fuel args st = Some (result, st') ->
  cacheSound schema st' /\ namesOwn (heap st') = true.
Proof.
  intros Hschema Hargs Hs Hok. unfold onCreateFieldResolver, createArgsValidationType.
  destruct args as [argMap|]; unfold mbind, M_bind.
  - destruct (collectArgs schema fuel argMap [] st) as [[fs s1]|] eqn:Hcollect;
      [|done].
    apply (collectArgs_namesOwn schema fuel argMap Hschema (Hargs _ eq_refl))
      in Hcollect as (Hs1 & Hok1 & Hfs); try done.
    destruct (0 <? length fs)%nat; simpl.
    + intros [= <- <-]. simpl. split.
      * by eapply (cacheSound_alloc schema {| fields := Some fs |} s1).
      * rewrite namesOwn_app, Hok1. simpl. by rewrite Hfs.
    + by intros [= <- <-].
  - simpl. by intros [= <- <-].
Qed.

(** ** Holes below a violation in a list *)

Lemma dropTrailingHoles_app_holes {A : Type} (xs : list (option A)) k :
  dropTrailingHoles (xs ++ replicate k None) = dropTrailingHoles xs.
Proof.
  induction k as [|k IH]; [by rewrite app_nil_r|].
  rewrite replicate_S_end, app_assoc, dropTrailingHoles_snoc_None. apply IH.
Qed.

Lemma map_replicate {A B : Type} (f : A -> B) k x :
  List.map f (replicate k x) = replicate k (f x).
Proof. induction k as [|k IH]; simpl; [done|by rewrite IH]. Qed.

(** The children of a list whose only violations are in element [i]. *)
Lemma children_single {A : Type} (children : list (option A)) i t :
  children !! i = Some (Some t) ->
  (forall j, j <> i -> j < length children -> children !! j = Some None) ->
  children = replicate i None ++ Some t :: replicate (length children - S i) None.
Proof.
  intros Hi Hother. pose proof (lookup_lt_Some _ _ _ Hi) as Hlen.
  apply list_eq. intros j.
  destruct (decide (j < i)) as [Hlt|Hge].
  - rewrite lookup_app_l by (rewrite length_replicate; lia).
    rewrite lookup_replicate_2 by done. apply Hother; lia.
  - rewrite lookup_app_r; rewrite length_replicate; [|lia].
    destruct (decide (j = i)) as [->|Hne].
    + by rewrite Nat.sub_diag.
    + destruct (j - i) as [|k] eqn:Hk; [lia|]. simpl.
      destruct (decide (j < length children)) as [Hj|Hj].
      * rewrite lookup_replicate_2 by lia. apply Hother; lia.
      * rewrite lookup_ge_None_2 by lia.
        symmetry. apply lookup_ge_None_2. rewrite length_replicate. lia.
Qed.

Section holes.
Variable h : Heap.
Hypothesis Hnames : namesOk h = true.

(** The error tree of a list whose violations are all in element [i]. *)
Lemma errorTree_list_single elements vt i x t :
  wfValue (VArray elements) = true ->
  elements !! i = Some x ->
  errorTree h x (Some vt) = Some t ->
  (forall j y, j <> i -> elements !! j = Some y ->
               relViolations h y (Some vt) = []) ->
  errorTree h (VArray elements) (Some vt)
  = Some (EArray (replicate i None ++ [Some t]) []).
Proof.
  intros Hwf Hx Ht Hother. simpl in Hwf.
  apply andb_true_iff in Hwf as [Hlen Hall]. apply N.leb_le in Hlen.
  rewrite forallb_forall in Hall.
  rewrite errorTree_array.
  set (children := (fun y => errorTree h y (Some vt)) <$> elements).
  assert (Hchildren : children
            = replicate i None ++ Some t :: replicate (length children - S i) None).
  { apply children_single.
    - unfold children. by rewrite list_lookup_fmap, Hx, <- Ht.
    - intros j Hne Hj. unfold children in *. rewrite length_fmap in Hj.
      rewrite list_lookup_fmap.
      destruct (lookup_lt_is_Some_2 elements j Hj) as [y Hy]. rewrite Hy. simpl.
      f_equal. rewrite <- (setAllUnder_errorTree h Hnames).
      + by rewrite (Hother j y).
      + apply Hall, list_elem_of_In. by eapply list_elem_of_lookup_2. }
  rewrite Hchildren.
  change (Some t :: replicate (length children - S i) None)
    with ([Some t] ++ replicate (length children - S i) None).
  rewrite app_assoc, dropTrailingHoles_app_holes, dropTrailingHoles_snoc_Some.
  by rewrite arrayNode_snoc.
Qed.

(** A key at and below which the walk finds nothing adds no member. *)
Lemma errorMember_none vt key y :
  wfValue y = true ->
  keyViolations h vt key y = [] ->
  errorMember h vt (key, y) = None.
Proof.
  intros Hwf Hnone. unfold keyViolations in Hnone.
  apply app_eq_nil in Hnone as [Hhere Hbelow]. unfold errorMember. simpl.
  destruct (isNull y && flagged (lookupField h vt key)); [done|].
  apply fmap_nil_inv in Hbelow.
  rewrite <- (setAllUnder_errorTree h Hnames y Hwf), Hbelow. done.
Qed.
End holes.

Lemma omap_single {A B : Type} (f : string * A -> option B)
  (props : list (string * A)) arg v m :
  NoDup props.*1 ->
  (arg, v) ∈ props ->
  f (arg, v) = Some m ->
  (forall key y, (key, y) ∈ props -> key <> arg -> f (key, y) = None) ->
  omap f props = [m].
Proof.
  induction props as [|[k y] props IH]; intros Hnd Hin Hm Hother; [inversion Hin|].
  simpl in Hnd. apply NoDup_cons in Hnd as [Hk Hnd].
  assert (Hrest : forall props' : list (string * A),
             (forall key z, (key, z) ∈ props' -> f (key, z) = None) ->
             omap f props' = []).
  { clear. induction props' as [|[k z] props' IH]; intros Hnone; [done|].
    simpl. rewrite (Hnone k z) by (by left). apply IH.
    intros key w Hw. apply Hnone. by right. }
  apply elem_of_cons in Hin as [[= <- <-]|Hin].
  - simpl. rewrite Hm. f_equal. apply Hrest. intros key z Hz.
    apply (Hother key z); [by right|]. intros ->. apply Hk.
    apply list_elem_of_fmap. by exists (arg, z).
  - assert (Hne : k <> arg).
    { intros ->. apply Hk. apply list_elem_of_fmap. by exists (arg, v). }
    simpl. rewrite (Hother k y) by (by left || done).
    apply IH; try done. intros key z Hz. apply Hother. by right.
Qed.

Lemma ownPropertyOrder_single {A : Type} (kv : string * A) :
  ownPropertyOrder [kv] = [kv].
Proof. unfold ownPropertyOrder. simpl. by destruct (arrayIndexN kv.1). Qed.

(** X16: when, in the arguments of a request, the violations of a list are
    all in its element at index [i >= 1], the error map holds, at the path
    of the list, an array whose indices below [i] are holes and whose
    index [i] is the error tree of that element, in which the violations
    are the [null]s at their paths.  When the list is the value of an
    argument and the walk finds nothing in the other arguments, the
    message of the thrown error is the prefix followed by
    [{"args":{], the name of the argument, [:[], one [null] for each
    index below [i], the text of the tree of element [i], and []}}]. *)
Theorem list_violation_leaves_holes_below {Root Ctx Info Res : Type}
  (h : Heap) (shape : loc) (field : ValidationField)
  (props : list (string * JsValue)) (arg : string) (elements : list JsValue)
  (i : nat) (x : JsValue)
  (root : Root) (ctx : Ctx) (info : Info)
  (next : Root -> JsValue -> Ctx -> Info -> Res) :
  namesOk h = true -> namesOwn h = true ->
  wfValue (VObject props) = true ->
  lookupField h shape arg = Some field ->
  (arg, VArray elements) ∈ props ->
  (forall key y, (key, y) ∈ props -> key <> arg ->
                 keyViolations h shape key y = []) ->
  1 <= i ->
  elements !! i = Some x ->
  relViolations h x (Some (type field)) <> [] ->
  (forall j y, j <> i -> elements !! j = Some y ->
               relViolations h y (Some (type field)) = []) ->
  exists t,
    errorTree h x (Some (type field)) = Some t
    /\ (forall q, q ∈ relViolations h x (Some (type field)) ->
                  jsonGet t q = Some ENull)
    /\ isIndex (toString i) = true
    /\ (forall path, path <> [] ->
          getPath (validate h (VArray elements) (Some (type field)) path (EObject []))
            path
          = Some (EArray (replicate i None ++ [Some t]) []))
    /\ validate h (VObject props) (Some shape) ["args"] (EObject [])
       = EObject [("args",
                   EObject [(arg, EArray (replicate i None ++ [Some t]) [])])]
    /\ fieldResolver h shape root (VObject props) ctx info next
       = Thrown (messagePrefix +:+ "{" +:+ dquote +:+ "args" +:+ dquote +:+ ":"
                   +:+ "{" +:+ quote arg +:+ ":"
                   +:+ "[" +:+ String.concat ","
                                 (replicate i "null" ++ [JSON_stringify t])
                   +:+ "]" +:+ "}" +:+ "}").
Proof.
  intros Hnames _ Hwf Hfield Harg Hother Hi Hx Hrel Hrest.
  pose proof Hwf as Hwf'. simpl in Hwf'.
  apply andb_true_iff in Hwf' as [Hnd Hall]. apply bool_decide_eq_true in Hnd.
  rewrite forallb_forall in Hall.
  assert (Hwfl : wfValue (VArray elements) = true).
  { apply (Hall (arg, VArray elements)). by apply list_elem_of_In. }
  pose proof Hwfl as Hwfl'. simpl in Hwfl'.
  apply andb_true_iff in Hwfl' as [Hlen Hallx]. apply N.leb_le in Hlen.
  rewrite forallb_forall in Hallx.
  assert (Hwfx : wfValue x = true).
  { apply Hallx, list_elem_of_In. by eapply list_elem_of_lookup_2. }
  destruct (setAllUnder_nonempty None _ Hrel) as [t Ht].
  rewrite (setAllUnder_errorTree h Hnames x Hwfx) in Ht.
  pose proof (errorTree_list_single h Hnames elements (type field) i x t
                Hwfl Hx Ht Hrest) as Hlist.
  assert (Hmap : validate h (VObject props) (Some shape) ["args"] (EObject [])
                 = EObject [("args",
                             EObject [(arg, EArray (replicate i None ++ [Some t])
                                              [])])]).
  { rewrite (validate_errorTree h Hnames) by done.
    rewrite errorTree_object.
    rewrite (omap_single (errorMember h shape) props arg (VArray elements)
               (arg, EArray (replicate i None ++ [Some t]) [])); try done.
    - unfold errorMember. cbn [fst snd isNull andb]. rewrite Hfield.
      cbn [fmap option_fmap option_map]. by rewrite Hlist.
    - intros key y Hin Hne. apply (errorMember_none h Hnames).
      + apply (Hall (key, y)). by apply list_elem_of_In.
      + by apply Hother. }
  exists t. split; [done|]. split; [|split; [|split; [|split]]].
  - intros q Hq. by apply (errorTree_marks h Hnames x Hwfx (Some (type field))).
  - apply isIndex_toString. apply lookup_lt_Some in Hx. lia.
  - intros path Hpath. rewrite (validate_errorTree h Hnames) by done.
    rewrite Hlist. unfold set. simpl isObject. cbv iota.
    by apply getPath_baseSet.
  - exact Hmap.
  - unfold fieldResolver. rewrite Hmap. simpl. unfold violationMessage.
    rewrite JSON_stringify_object, ownPropertyOrder_single.
    cbn [List.map String.concat fst snd].
    rewrite JSON_stringify_object, ownPropertyOrder_single.
    cbn [List.map String.concat fst snd].
    rewrite JSON_stringify_array, List.map_app, map_replicate.
    cbn [List.map]. rewrite !append_assoc. reflexivity.
Qed.

Lemma list_violation_leaves_holes_below_witness :
  namesOk shapeArgs = true
  /\ namesOwn shapeArgs = true
  /\ wfValue (VObject [("xs", VArray [VObject [("a", VString "x")];
                                      VObject [("b", VNull)];
                                      VObject [("a", VNull)]])]) = true
  /\ exists t,
       validate shapeArgs
         (VObject [("xs", VArray [VObject [("a", VString "x")];
                                  VObject [("b", VNull)];
                                  VObject [("a", VNull)]])])
         (Some 2) ["args"] (EObject [])
       = EObject [("args", EObject [("xs", EArray [None; None; Some t] [])])]
       /\ fieldResolver shapeArgs 2 tt
            (VObject [("xs", VArray [VObject [("a", VString "x")];
                                     VObject [("b", VNull)];
                                     VObject [("a", VNull)]])])
            tt tt (fun _ _ _ _ => tt)
          = Thrown (messagePrefix +:+ "{" +:+ dquote +:+ "args" +:+ dquote +:+ ":"
                      +:+ "{" +:+ quote "xs" +:+ ":"
                      +:+ "[" +:+ String.concat "," ["null"; "null"; JSON_stringify t]
                      +:+ "]" +:+ "}" +:+ "}").
Proof.
  set (elements := [VObject [("a", VString "x")]; VObject [("b", VNull)];
                    VObject [("a", VNull)]]).
  assert (Hnames : namesOk shapeArgs = true) by reflexivity.
  assert (Hown : namesOwn shapeArgs = true) by reflexivity.
  assert (Hwf : wfValue (VObject [("xs", VArray elements)]) = true) by reflexivity.
  split; [exact Hnames|]. split; [exact Hown|]. split; [exact Hwf|].
  destruct (list_violation_leaves_holes_below
              shapeArgs 2 {| config := None; type := 0 |}
              [("xs", VArray elements)] "xs" elements 2 (VObject [("a", VNull)])
              tt tt tt (fun _ _ _ _ => tt) Hnames Hown Hwf)
    as (t & _ & _ & _ & _ & Hmap & Hthrown).
  - reflexivity.
  - by left.
  - intros key y Hin Hne. apply list_elem_of_singleton in Hin as [= -> _]. done.
  - lia.
  - reflexivity.
  - vm_compute. discriminate.
  - intros [|[|[|j]]] y Hne Hy; try done; injection Hy as <-; reflexivity.
  - exists t. split; [exact Hmap|exact Hthrown].
Defined.

(** ** The input-field hook *)

Lemma getProp_setProp_ne {A : Type} (props : list (string * A)) key key' v :
  key <> key' -> getProp (setProp props key v) key' = getProp props key'.
Proof.
  intros Hne. induction props as [|[k w] props IH]; simpl.
  - destruct (String.eqb_spec key key'); [done|done].
  - destruct (String.eqb_spec k key) as [->|Hk]; simpl.
    + destruct (String.eqb_spec key key'); [done|done].
    + destruct (String.eqb_spec k key'); [done|apply IH].
Qed.

Lemma setProp_keys_present {A : Type} (props : list (string * A)) key v :
  key ∈ props.*1 -> (setProp props key v).*1 = props.*1.
Proof.
  induction props as [|[k w] props IH]; simpl; [by inversion 1|].
  destruct (String.eqb_spec k key) as [->|Hk]; [done|].
  intros Hin. apply elem_of_cons in Hin as [->|Hin]; [done|].
  cbn [fmap list_fmap fst]. f_equal. by apply IH.
Qed.

Lemma setProp_keys_absent {A : Type} (props : list (string * A)) key v :
  key ∉ props.*1 -> (setProp props key v).*1 = props.*1 ++ [key].
Proof.
  intros Hnot. apply getProp_None in Hnot.
  by rewrite setProp_fresh, fmap_app.
Qed.

Lemma containsNonNullOptional_setProp field v :
  containsNonNullOptional (setProp field "extensions" v)
  = containsNonNullOptional field.
Proof.
  unfold containsNonNullOptional. apply bool_decide_ext.
  destruct (decide ("extensions" ∈ field.*1)) as [Hin|Hnot].
  - by rewrite setProp_keys_present.
  - rewrite setProp_keys_absent, elem_of_app by done.
    split; [|by left]. intros [H|H]; [done|].
    by apply list_elem_of_singleton in H.
Qed.

(** X1: when the field has the key [nonNullOptional], the field returned
    by [onAddInputField] carries the value of that key at
    [extensions.nexus.config.nonNullOptional], where [getValidationType]
    reads it: the flag is set there exactly when the field declared a
    truthy value. *)
Theorem onAddInputField_writes_the_flag (field : NexusInputFieldDef) :
  containsNonNullOptional field = true ->
  readNonNullOptional (VObject (onAddInputField field))
  = getMember (VObject field) "nonNullOptional"
  /\ (truthy (readNonNullOptional (VObject (onAddInputField field))) = true
      <-> exists v, ("nonNullOptional", v) ∈ field
                    /\ getProp field "nonNullOptional" = Some v /\ truthy v = true).
Proof.
  intros Hkey.
  assert (Hread : readNonNullOptional (VObject (onAddInputField field))
                  = getMember (VObject field) "nonNullOptional").
  { unfold onAddInputField, readNonNullOptional. rewrite Hkey.
    cbn [getMember]. rewrite getProp_setProp_eq. cbn [from_option id getMember].
    rewrite getProp_setProp_eq. cbn [from_option id getMember].
    rewrite getProp_setProp_eq. cbn [from_option id getMember].
    by rewrite getProp_setProp_eq. }
  split; [exact Hread|]. rewrite Hread. simpl.
  destruct (getProp field "nonNullOptional") as [v|] eqn:Hget; simpl.
  - split.
    + intros Hv. exists v. split; [by apply getProp_Some_elem|done].
    + by intros (w & _ & [= <-] & Hw).
  - split; [done|]. by intros (w & _ & ? & _).
Qed.

Lemma onAddInputField_writes_the_flag_witness :
  containsNonNullOptional
    [("name", VString "some"); ("nonNullOptional", VBool true)] = true
  /\ readNonNullOptional
       (VObject (onAddInputField
                   [("name", VString "some"); ("nonNullOptional", VBool true)]))
     = VBool true.
Proof.
  assert (Hkey : containsNonNullOptional
                   [("name", VString "some"); ("nonNullOptional", VBool true)]
                 = true) by reflexivity.
  split; [exact Hkey|].
  exact (proj1 (onAddInputField_writes_the_flag _ Hkey)).
Defined.

(** X2: [onAddInputField] changes nothing else.  A field without the key
    [nonNullOptional] is returned as it is.  Otherwise every property of
    the field but [extensions] keeps its value, and so does every property
    of [extensions] but [nexus], of [extensions.nexus] but [config], and
    of [extensions.nexus.config] but [nonNullOptional]; the field keeps its
    keys in their order, with [extensions] added last when it had none. *)
Theorem onAddInputField_keeps_the_rest (field : NexusInputFieldDef) :
  let field' := onAddInputField field in
  let extensions := getMember (VObject field) "extensions" in
  let extensions' := getMember (VObject field') "extensions" in
  let nexus := getMember extensions "nexus" in
  let nexus' := getMember extensions' "nexus" in
  let config := getMember nexus "config" in
  let config' := getMember nexus' "config" in
  (containsNonNullOptional field = false -> field' = field)
  /\ (forall key, key <> "extensions" -> getProp field' key = getProp field key)
  /\ (containsNonNullOptional field = true ->
      (forall key, key <> "nexus" ->
         getProp (spread extensions') key = getProp (spread extensions) key)
      /\ (forall key, key <> "config" ->
            getProp (spread nexus') key = getProp (spread nexus) key)
      /\ (forall key, key <> "nonNullOptional" ->
            getProp (spread config') key = getProp (spread config) key)
      /\ field'.*1 = (if bool_decide ("extensions" ∈ field.*1)
                      then field.*1 else field.*1 ++ ["extensions"])).
Proof.
  intros field' extensions extensions' nexus nexus' config config'.
  unfold field', onAddInputField in *.
  destruct (containsNonNullOptional field) eqn:Hkey.
  - split; [done|]. split.
    + intros key Hne. by apply getProp_setProp_ne.
    + intros _.
      assert (Hext : extensions'
                = VObject (setProp (spread extensions) "nexus"
                    (VObject (setProp (spread nexus) "config"
                       (VObject (setProp (spread config) "nonNullOptional"
                          (getMember (VObject field) "nonNullOptional"))))))).
      { unfold extensions'. cbn [getMember]. by rewrite getProp_setProp_eq. }
      assert (Hnexus : nexus'
                = VObject (setProp (spread nexus) "config"
                    (VObject (setProp (spread config) "nonNullOptional"
                       (getMember (VObject field) "nonNullOptional"))))).
      { unfold nexus'. rewrite Hext. cbn [getMember].
        by rewrite getProp_setProp_eq. }
      assert (Hconfig : config'
                = VObject (setProp (spread config) "nonNullOptional"
                    (getMember (VObject field) "nonNullOptional"))).
      { unfold config'. rewrite Hnexus. cbn [getMember].
        by rewrite getProp_setProp_eq. }
      split; [|split; [|split]].
      * intros key Hne. rewrite Hext. by apply getProp_setProp_ne.
      * intros key Hne. rewrite Hnexus. by apply getProp_setProp_ne.
      * intros key Hne. rewrite Hconfig. by apply getProp_setProp_ne.
      * case_bool_decide as Hin.
        -- by apply setProp_keys_present.
        -- by apply setProp_keys_absent.
  - split; [done|]. split; [done|]. done.
Qed.

Lemma onAddInputField_keeps_the_rest_witness :
  let field :=
    [("name", VString "some");
     ("extensions", VObject [("other", VNumber 1);
                             ("nexus", VObject [("config", VObject [("x", VBool false)])])]);
     ("nonNullOptional", VBool true)] in
  containsNonNullOptional field = true
  /\ getProp (spread (getMember (VObject (onAddInputField field)) "extensions"))
       "other" = Some (VNumber 1)
  /\ (onAddInputField field).*1 = ["name"; "extensions"; "nonNullOptional"].
Proof.
  intros field.
  assert (Hkey : containsNonNullOptional field = true) by reflexivity.
  destruct (onAddInputField_keeps_the_rest field) as (_ & _ & Hrest).
  destruct (Hrest Hkey) as (Hext & _ & _ & Hkeys).
  split; [exact Hkey|]. split.
  - rewrite (Hext "other"); [reflexivity|discriminate].
  - rewrite Hkeys. reflexivity.
Defined.

(** X3: [onAddInputField] is idempotent: applied to a field it has
    returned, it returns that field again. *)
Theorem onAddInputField_idempotent (field : NexusInputFieldDef) :
  onAddInputField (onAddInputField field) = onAddInputField field.
Proof.
  unfold onAddInputField at 2.
  destruct (containsNonNullOptional field) eqn:Hkey.
  - unfold onAddInputField. rewrite containsNonNullOptional_setProp, Hkey.
    cbn [getMember]. rewrite getProp_setProp_eq. cbn [from_option id getMember spread].
    rewrite getProp_setProp_eq. cbn [from_option id getMember spread].
    rewrite getProp_setProp_eq. cbn [from_option id getMember spread].
    rewrite (getProp_setProp_ne field "extensions" "nonNullOptional") by done.
    by rewrite !setProp_setProp.
  - unfold onAddInputField. by rewrite Hkey.
Qed.

(** ** What the walk reports, read off the value and the shape *)

Lemma join_imap_nil {A B : Type} (g : nat -> A -> list B) (l : list A) :
  (forall i x, l !! i = Some x -> g i x = []) -> mjoin (imap g l) = [].
Proof.
  revert g. induction l as [|x l IH]; intros g Hg; [done|].
  rewrite imap_cons. simpl. rewrite (Hg 0 x eq_refl). simpl.
  apply IH. intros i y Hy. by apply (Hg (S i)).
Qed.

Lemma join_fmap_nil {A B : Type} (g : A -> list B) (l : list A) :
  (forall x, x ∈ l -> g x = []) -> mjoin (g <$> l) = [].
Proof.
  induction l as [|x l IH]; intros Hg; [done|]. simpl.
  rewrite (Hg x) by (by left). simpl. apply IH. intros y Hy. apply Hg. by right.
Qed.

Lemma arrayIndex_Some key i : arrayIndex key = Some i -> key = toString i.
Proof.
  unfold arrayIndex, arrayIndexN.
  destruct (parseUint key) as [n|] eqn:Hn; [|done].
  destruct (n <? 4294967295)%N; [|done]. simpl. intros [= <-].
  apply parseUint_Some in Hn. unfold toString. by rewrite N2Nat.id.
Qed.

Lemma relViolations_noNull h value :
  forall validationType,
    containsNull value = false -> relViolations h value validationType = [].
Proof.
  induction value as [| | b | n | s | elements IH | props IH]
    using JsValue_nested_ind; intros [vt|] Hnone;
    try (simpl; repeat case_match; done).
  - rewrite relViolations_array. apply join_imap_nil. intros i x Hx.
    assert (Hin : x ∈ elements) by (by eapply list_elem_of_lookup_2).
    rewrite Forall_forall in IH. rewrite (IH x Hin); [done|].
    simpl in Hnone. destruct (containsNull x) eqn:Hx'; [|done].
    assert (existsb containsNull elements = true); [|congruence].
    apply existsb_exists. exists x. split; [by apply list_elem_of_In|done].
  - rewrite relViolations_object. apply join_fmap_nil. intros [key x] Hin.
    simpl in *. assert (Hx : containsNull x = false).
    { destruct (containsNull x) eqn:Hx'; [|done].
      assert (existsb (fun kv : string * JsValue => containsNull kv.2) props = true);
        [|congruence].
      apply existsb_exists. exists (key, x). split; [by apply list_elem_of_In|done]. }
    unfold keyViolations. rewrite Forall_forall in IH.
    rewrite (IH (key, x) Hin) by done.
    destruct x; try done.
Qed.

(** X4: arguments without an explicit [null] anywhere in them are never
    rejected, whatever the shape: the walk finds no violation, leaves the
    error map empty, and the wrapper calls the continuation. *)
Theorem no_null_no_violation {Root Ctx Info Res : Type}
  (h : Heap) (argsValidationType : loc) (root : Root) (args : JsValue)
  (ctx : Ctx) (info : Info) (next : Root -> JsValue -> Ctx -> Info -> Res) :
  containsNull args = false ->
  (forall validationType path, violations h args validationType path = [])
  /\ (forall validationType path errorMap,
         validate h args validationType path errorMap = errorMap)
  /\ fieldResolver h argsValidationType root args ctx info next
     = Continued root args ctx info (next root args ctx info).
Proof.
  intros Hnone.
  assert (Hv : forall validationType path,
             violations h args validationType path = []).
  { intros validationType path. unfold violations.
    by rewrite relViolations_noNull. }
  split; [done|]. split.
  - intros validationType path errorMap. by rewrite validate_violations, Hv.
  - unfold fieldResolver. by rewrite validate_violations, Hv.
Qed.

Lemma no_null_no_violation_witness :
  containsNull (VObject [("xs", VArray [VObject [("a", VString "x")]; VUndefined])])
  = false
  /\ fieldResolver shapeArgs 2 tt
       (VObject [("xs", VArray [VObject [("a", VString "x")]; VUndefined])])
       tt tt (fun _ _ _ _ => 7)
     = Continued tt
         (VObject [("xs", VArray [VObject [("a", VString "x")]; VUndefined])])
         tt tt 7.
Proof.
  assert (Hnone : containsNull
                    (VObject [("xs", VArray [VObject [("a", VString "x")];
                                             VUndefined])]) = false)
    by reflexivity.
  split; [exact Hnone|].
  exact (proj2 (proj2 (no_null_no_violation shapeArgs 2 tt _ tt tt
                         (fun _ _ _ _ => 7) Hnone))).
Defined.

Lemma valueAt_object props key rest :
  valueAt (VObject props) (key :: rest)
  = x ← getProp props key; valueAt x rest.
Proof. simpl. by destruct (getProp props key). Qed.

Lemma valueAt_array elements key rest :
  valueAt (VArray elements) (key :: rest)
  = i ← arrayIndex key; x ← elements !! i; valueAt x rest.
Proof.
  simpl. destruct (arrayIndex key) as [i|]; [|done]. simpl.
  by destruct (elements !! i).
Qed.

Lemma fieldAt_object_last h vt props key :
  fieldAt h (Some vt) (VObject props) [key] = lookupField h vt key.
Proof. done. Qed.

Lemma fieldAt_object_below h vt props key k r :
  fieldAt h (Some vt) (VObject props) (key :: k :: r)
  = x ← getProp props key; fieldAt h (type <$> lookupField h vt key) x (k :: r).
Proof. cbn [fieldAt]. by destruct (getProp props key). Qed.

Lemma fieldAt_array h vt elements key rest :
  fieldAt h (Some vt) (VArray elements) (key :: rest)
  = i ← arrayIndex key; x ← elements !! i; fieldAt h (Some vt) x rest.
Proof.
  simpl. destruct (arrayIndex key) as [i|]; [|done]. simpl.
  by destruct (elements !! i).
Qed.

Lemma relViolations_spec h value :
  wfValue value = true ->
  forall validationType q,
    q ∈ relViolations h value validationType
    <-> valueAt value q = Some VNull
        /\ flagged (fieldAt h validationType value q) = true.
Proof.
  induction value as [| | b | n | s | elements IH | props IH]
    using JsValue_nested_ind; intros Hwf [vt|] q;
    try (split; [simpl; repeat case_match; by inversion 1
                |destruct q; simpl; by intros [? ?]]).
  - (* a list *)
    rewrite relViolations_array. simpl in Hwf.
    apply andb_true_iff in Hwf as [Hlen Hwf]. apply N.leb_le in Hlen.
    rewrite forallb_forall in Hwf. rewrite Forall_forall in IH. split.
    + intros Hq. apply list_elem_of_join in Hq as (l & Hq & Hl).
      apply elem_of_lookup_imap in Hl as (i & x & -> & Hx).
      apply list_elem_of_fmap in Hq as (q' & -> & Hq').
      assert (Hin : x ∈ elements) by (by eapply list_elem_of_lookup_2).
      rewrite valueAt_array, fieldAt_array.
      rewrite arrayIndex_toString by (apply lookup_lt_Some in Hx; lia).
      cbn [mbind option_bind]. rewrite Hx. cbn [mbind option_bind]. apply (IH x Hin); [|done]. by apply Hwf, list_elem_of_In.
    + destruct q as [|key rest]; [by intros [_ ?]|].
      rewrite valueAt_array, fieldAt_array.
      destruct (arrayIndex key) as [i|] eqn:Hi; [|by intros [? _]]. cbn [mbind option_bind].
      destruct (elements !! i) as [x|] eqn:Hx; [|by intros [? _]]. cbn [mbind option_bind].
      intros Hspec. apply arrayIndex_Some in Hi as ->.
      assert (Hin : x ∈ elements) by (by eapply list_elem_of_lookup_2).
      apply (IH x Hin) in Hspec; [|by apply Hwf, list_elem_of_In].
      apply list_elem_of_join.
      exists ((toString i ::.) <$> relViolations h x (Some vt)). split.
      * apply list_elem_of_fmap. by exists rest.
      * apply (elem_of_lookup_imap_2
                 (fun index subValue =>
                    (toString index ::.) <$> relViolations h subValue (Some vt))
                 elements x i Hx).
  - (* an object *)
    rewrite relViolations_object. simpl in Hwf.
    apply andb_true_iff in Hwf as [Hnd Hwf]. apply bool_decide_eq_true in Hnd.
    rewrite forallb_forall in Hwf. rewrite Forall_forall in IH. split.
    + intros Hq. apply list_elem_of_join in Hq as (l & Hq & Hl).
      apply list_elem_of_fmap in Hl as ([key x] & -> & Hin). simpl in Hq.
      pose proof (getProp_NoDup _ _ _ Hnd Hin) as Hget.
      unfold keyViolations in Hq. apply elem_of_app in Hq as [Hq|Hq].
      * destruct (isNull x) eqn:Hnull; simpl in Hq; [|by inversion Hq].
        destruct (flagged _) eqn:Hflag; [|by inversion Hq].
        apply list_elem_of_singleton in Hq as ->.
        rewrite valueAt_object, fieldAt_object_last, Hget. cbn [mbind option_bind].
        by destruct x.
      * apply list_elem_of_fmap in Hq as (q' & -> & Hq').
        destruct (relViolations_cons _ _ _ _ Hq') as (k' & r' & ->).
        rewrite valueAt_object, fieldAt_object_below, Hget. cbn [mbind option_bind].
        apply (IH (key, x) Hin); [|done]. by apply (Hwf (key, x)), list_elem_of_In.
    + destruct q as [|key rest]; [by intros [_ ?]|].
      rewrite valueAt_object.
      destruct (getProp props key) as [x|] eqn:Hget; [|by intros [? _]].
      pose proof (getProp_Some_elem _ _ _ Hget) as Hin. cbn [mbind option_bind].
      intros [Hvalue Hfield].
      apply list_elem_of_join. exists (keyViolations h vt key x). split.
      * unfold keyViolations. apply elem_of_app. destruct rest as [|k' r'].
        -- left. simpl in Hvalue. injection Hvalue as ->. simpl.
           rewrite fieldAt_object_last in Hfield. rewrite Hfield. by left.
        -- right. rewrite fieldAt_object_below, Hget in Hfield. cbn [mbind option_bind] in Hfield. apply list_elem_of_fmap. exists (k' :: r'). split; [done|].
           apply (IH (key, x) Hin); [|done].
           by apply (Hwf (key, x)), list_elem_of_In.
      * apply list_elem_of_fmap. by exists (key, x).
Qed.



(** X6: against a shape without fields no value has a violation, however
    deep its lists and objects go. *)
Theorem empty_shape_finds_nothing h vt value path :
  (forall key, lookupField h vt key = None) ->
  violations h value (Some vt) path = []
  /\ forall errorMap, validate h value (Some vt) path errorMap = errorMap.
Proof.
  intros Hempty.
  assert (Hrel : relViolations h value (Some vt) = []).
  { induction value as [| | b | n | s | elements IH | props IH]
      using JsValue_nested_ind; try (simpl; repeat case_match; done).
    - rewrite relViolations_array. apply join_imap_nil. intros i x Hx.
      rewrite Forall_forall in IH. rewrite IH; [done|].
      by eapply list_elem_of_lookup_2.
    - rewrite relViolations_object. apply join_fmap_nil. intros [key x] _.
      unfold keyViolations. simpl. rewrite Hempty. simpl.
      rewrite relViolations_no_shape. by rewrite andb_false_r. }
  assert (Hv : violations h value (Some vt) path = [])
    by (unfold violations; by rewrite Hrel).
  split; [done|]. intros errorMap. by rewrite validate_violations, Hv.
Qed.

Lemma empty_shape_finds_nothing_witness :
  (forall key, lookupField shapeAB 1 key = None)
  /\ violations shapeAB (VObject [("a", VNull)]) (Some 1) ["args"] = [].
Proof.
  assert (Hempty : forall key, lookupField shapeAB 1 key = None)
    by (intros key; reflexivity).
  split; [exact Hempty|].
  exact (proj1 (empty_shape_finds_nothing shapeAB 1 _ ["args"] Hempty)).
Defined.

Lemma setAllUnder_isObject cur qs t :
  qs <> [] -> Forall (fun q : list string => q <> []) qs ->
  setAllUnder cur qs = Some t -> isObject t = true.
Proof.
  destruct qs as [|q qs _] using rev_ind; [done|]. intros _ Hne.
  unfold setAllUnder. rewrite fold_left_app. simpl. intros [= <-].
  apply isObject_setUnder.
  apply Forall_app in Hne as [_ Hq]. by apply List.Forall_inv in Hq.
Qed.

Lemma JSON_stringify_args t :
  JSON_stringify (EObject [("args", t)])
  = "{" +:+ quote "args" +:+ ":" +:+ JSON_stringify t +:+ "}".
Proof. reflexivity. Qed.

(** X7: the error map that the wrapper serializes has the one key [args]:
    when the walk finds a violation, the map is [{args: t}] for an object
    or array [t] that holds every violation at its path below [args], and
    the message is the prefix followed by [{"args":], the serialization
    of [t], and [}]. *)
Theorem thrown_message_is_rooted_at_args {Root Ctx Info Res : Type}
  (h : Heap) (argsValidationType : loc) (root : Root) (args : JsValue)
  (ctx : Ctx) (info : Info) (next : Root -> JsValue -> Ctx -> Info -> Res) :
  violations h args (Some argsValidationType) ["args"] <> [] ->
  exists t,
    isObject t = true
    /\ validate h args (Some argsValidationType) ["args"] (EObject [])
       = EObject [("args", t)]
    /\ fieldResolver h argsValidationType root args ctx info next
       = Thrown (messagePrefix +:+ "{" +:+ quote "args" +:+ ":"
                   +:+ JSON_stringify t +:+ "}").
Proof.
  intros Hfound.
  assert (Hrel : relViolations h args (Some argsValidationType) <> [])
    by (intros Hnil; by apply Hfound, violations_nil).
  destruct (setAllUnder_nonempty None _ Hrel) as [t Ht].
  exists t.
  assert (Hmap : validate h args (Some argsValidationType) ["args"] (EObject [])
                 = EObject [("args", t)]) by (by rewrite validate_args, Ht).
  split; [|split; [done|]].
  - apply (setAllUnder_isObject None _ t Hrel); [|done].
    apply Forall_forall. intros q Hq.
    by destruct (relViolations_cons _ _ _ _ Hq) as (k & r & ->).
  - unfold fieldResolver. rewrite Hmap. unfold violationMessage.
    by rewrite JSON_stringify_args.
Qed.

Lemma thrown_message_is_rooted_at_args_witness :
  violations shapeArgs (VObject [("xs", VArray [VObject [("a", VNull)]])])
    (Some 2) ["args"] <> []
  /\ exists t,
       isObject t = true
       /\ validate shapeArgs (VObject [("xs", VArray [VObject [("a", VNull)]])])
            (Some 2) ["args"] (EObject [])
          = EObject [("args", t)]
       /\ fieldResolver shapeArgs 2 tt
            (VObject [("xs", VArray [VObject [("a", VNull)]])]) tt tt
            (fun _ _ _ _ => 0)
          = Thrown (messagePrefix +:+ "{" +:+ quote "args" +:+ ":"
                      +:+ JSON_stringify t +:+ "}").
Proof.
  assert (Hfound : violations shapeArgs
                     (VObject [("xs", VArray [VObject [("a", VNull)]])])
                     (Some 2) ["args"] <> []) by (vm_compute; discriminate).
  split; [exact Hfound|].
  exact (thrown_message_is_rooted_at_args shapeArgs 2 tt _ tt tt
           (fun _ _ _ _ => 0) Hfound).
Defined.

(** ** The shape compiler fills every shape it caches *)

Lemma forEachM_inv_prefix {A : Type} (I : list (string * A) -> State -> Prop)
  (f : string -> A -> M unit) (props : list (string * A)) :
  forall done st st',
    (forall d key x r s s',
        done ++ props = d ++ (key, x) :: r ->
        I d s -> f key x s = Some (tt, s') -> I (d ++ [(key, x)]) s') ->
    I done st -> forEachM f props st = Some (tt, st') -> I (done ++ props) st'.
Proof.
  induction props as [|[key x] props IH]; intros done st st' Hf HI; simpl.
  - intros [= <-]. by rewrite app_nil_r.
  - unfold mbind, M_bind. destruct (f key x st) as [[[] st1]|] eqn:Hfx; [|done].
    intros Hrest. rewrite cons_middle, app_assoc.
    apply (IH (done ++ [(key, x)]) st1 st'); [| |done].
    + intros d k y r s s' Heq. apply (Hf d k y r). by rewrite <- Heq, <- app_assoc.
    + by apply (Hf done key x props st st1).
Qed.

Lemma cacheSound_bounded schema st : cacheSound schema st -> cacheBounded st.
Proof. intros Hs name node H. by destruct (Hs _ _ H). Qed.

Lemma lookupField_prefix (h h' : Heap) node key :
  h `prefix_of` h' -> node < length h ->
  lookupField h' node key = lookupField h node key.
Proof.
  intros Hpre Hlt. unfold lookupField.
  by rewrite (prefix_lookup_lt h h' node Hlt Hpre).
Qed.

Lemma lookupField_insert_ne (h : Heap) l0 cell node key :
  node <> l0 -> lookupField (<[l0 := cell]> h) node key = lookupField h node key.
Proof. intros Hne. unfold lookupField. by rewrite list_lookup_insert_ne. Qed.

Lemma lookupField_elem (h : Heap) node key field :
  lookupField h node key = Some field ->
  exists fs, h !! node = Some {| fields := Some fs |} /\ (key, field) ∈ fs.
Proof.
  unfold lookupField. destruct (h !! node) as [[[fs|]]|]; try done.
  intros Hget. exists fs. split; [done|]. by apply getProp_Some_elem.
Qed.

Lemma lookupField_assignField st node key field st' k :
  node < length (heap st) ->
  assignField node key field st = Some (tt, st') ->
  lookupField (heap st') node k
  = if String.eqb k key then Some field else lookupField (heap st) node k.
Proof.
  intros Hlt [= <-]. simpl. unfold lookupField at 1.
  rewrite list_lookup_insert_eq by done.
  destruct (String.eqb_spec k key) as [->|Hne].
  - apply getProp_setProp_eq.
  - rewrite getProp_setProp_ne by done. unfold lookupField.
    by destruct (heap st !! node) as [[[fs|]]|].
Qed.

Lemma heapClosed_app (h : Heap) cell :
  heapClosed h ->
  (forall fs key field, fields cell = Some fs -> (key, field) ∈ fs ->
                        type field < length h) ->
  heapClosed (h ++ [cell]).
Proof.
  intros Hc Hcell node fs key field Hnode Hin. rewrite length_app. simpl.
  destruct (decide (node < length h)) as [Hlt|Hge].
  - rewrite lookup_app_l in Hnode by done.
    pose proof (Hc _ _ _ _ Hnode Hin). lia.
  - rewrite lookup_app_r in Hnode by lia.
    destruct (node - length h) as [|n]; [|done]. injection Hnode as Hnode.
    assert (type field < length h); [|lia].
    apply (Hcell fs key); [by rewrite Hnode|done].
Qed.

Lemma heapClosed_insert (h : Heap) l0 cell :
  heapClosed h ->
  (forall fs key field, fields cell = Some fs -> (key, field) ∈ fs ->
                        type field < length h) ->
  heapClosed (<[l0 := cell]> h).
Proof.
  intros Hc Hcell node fs key field Hnode Hin. rewrite length_insert.
  destruct (decide (node = l0)) as [->|Hne].
  - apply list_lookup_insert_Some in Hnode as [(_ & Heq & _)|[? _]]; [|done].
    apply (Hcell fs key); [by rewrite Heq|done].
  - rewrite list_lookup_insert_ne in Hnode by done. by eapply Hc.
Qed.

Lemma heapClosed_assignField st node key field st' :
  heapClosed (heap st) -> type field < length (heap st) ->
  assignField node key field st = Some (tt, st') -> heapClosed (heap st').
Proof.
  intros Hc Hfield [= <-]. simpl. apply heapClosed_insert; [done|].
  intros fs k f [= <-] Hin. apply setProp_elem in Hin as [Hin|[_ ->]]; [|done].
  destruct (heap st !! node) as [[[old|]]|] eqn:Hold; try (by inversion Hin).
  by eapply Hc.
Qed.

Lemma completeCell_mono schema st st' name node :
  completeCell schema st name node ->
  validationTypeCache st ⊆ validationTypeCache st' ->
  (forall key, lookupField (heap st') node key = lookupField (heap st) node key) ->
  completeCell schema st' name node.
Proof.
  intros Hcell Hcache Hsame fs key field Hschema Hin Hflag.
  destruct (Hcell fs key field Hschema Hin Hflag) as (sub & Hsub & Hfield).
  exists sub. split; [by eapply lookup_weaken|]. by rewrite Hsame.
Qed.

Lemma NoDup_keys_filter {A : Type} (P : string * A -> bool) (l : list (string * A)) :
  NoDup l.*1 -> NoDup (List.filter P l).*1.
Proof.
  induction l as [|[k x] l IH]; simpl; [done|]. intros Hnd.
  apply NoDup_cons in Hnd as [Hk Hnd]. destruct (P (k, x)); [|by apply IH].
  simpl. apply NoDup_cons. split; [|by apply IH].
  intros Hin. apply Hk. apply list_elem_of_fmap in Hin as ([k' y] & -> & Hin).
  apply list_elem_of_In, filter_In in Hin as [Hin _].
  apply list_elem_of_fmap. exists (k', y). split; [done|by apply list_elem_of_In].
Qed.

Lemma NoDup_keys_middle {A : Type} (d r : list (string * A)) key x k y :
  NoDup (d ++ (key, x) :: r).*1 -> (k, y) ∈ d -> k <> key.
Proof.
  rewrite fmap_app. intros Hnd Hin ->. apply NoDup_app in Hnd as (_ & Hdis & _).
  apply (Hdis key).
  - apply list_elem_of_fmap. by exists (key, y).
  - simpl. by left.
Qed.

(** A run of [getValidationType] keeps the cache within the store and the
    store closed, and leaves every shape that it put into the cache
    complete; [pending] are the types whose shapes a caller is filling. *)
Lemma getValidationType_complete schema :
  schemaWf schema ->
  forall fuel type pending st node st',
    cacheBounded st -> heapClosed (heap st) -> cacheComplete schema pending st ->
    getValidationType schema fuel type st = Some (node, st') ->
    cacheBounded st' /\ heapClosed (heap st') /\ cacheComplete schema pending st'.
Proof.
  intros Hwf.
  assert (Hfresh : forall pending st,
             cacheBounded st -> heapClosed (heap st) ->
             cacheComplete schema pending st ->
             let st1 := {| heap := heap st ++ [{| fields := None |}];
                           validationTypeCache := validationTypeCache st |} in
             cacheBounded st1 /\ heapClosed (heap st1)
             /\ cacheComplete schema pending st1).
  { intros pending st Hb Hc Hcomp. simpl. split; [|split].
    - intros m n Hm. simpl in *. rewrite length_app. simpl.
      pose proof (Hb _ _ Hm). lia.
    - simpl. by apply heapClosed_app.
    - intros m n Hm Hnp. simpl in Hm.
      apply (completeCell_mono schema st _ m n); [by apply Hcomp|done|].
      intros key. simpl. apply lookupField_prefix; [by apply prefix_app_r|].
      by eapply Hb. }
  induction fuel as [|fuel IH]; intros type pending st node st' Hb Hc Hcomp; [done|].
  simpl. unfold cacheEnhancer.
  destruct type as [name|ofType|ofType].
  2,3: unfold mbind, M_bind, validationMapper; simpl;
       destruct (Hfresh pending st Hb Hc Hcomp) as (Hb1 & Hc1 & Hcomp1);
       by apply IH.
  unfold mbind, M_bind, cacheLookup. simpl.
  destruct (validationTypeCache st !! name) as [cached|] eqn:Hcache.
  { by intros [= <- <-]. }
  unfold validationMapper. simpl.
  set (l0 := length (heap st)).
  set (st2 := {| heap := heap st ++ [{| fields := None |}];
                 validationTypeCache := <[name := l0]> (validationTypeCache st) |}).
  assert (Honly : forall m, validationTypeCache st2 !! m = Some l0 -> m = name).
  { intros m. simpl. destruct (decide (name = m)) as [->|Hne]; [done|].
    rewrite lookup_insert_ne by done. intros Hm.
    pose proof (Hb _ _ Hm). unfold l0 in *. lia. }
  assert (Hb2 : cacheBounded st2).
  { intros m n. simpl. rewrite length_app. simpl.
    destruct (decide (name = m)) as [->|Hne].
    - rewrite lookup_insert_eq. intros [= <-]. unfold l0. lia.
    - rewrite lookup_insert_ne by done. intros Hm. pose proof (Hb _ _ Hm). lia. }
  assert (Hc2 : heapClosed (heap st2)) by (simpl; by apply heapClosed_app).
  assert (Hcomp2 : cacheComplete schema (pending ∪ {[name]}) st2).
  { intros m n Hm Hnp. simpl in Hm.
    assert (Hne : name <> m).
    { intros ->. apply Hnp, elem_of_union_r. by apply elem_of_singleton. }
    rewrite lookup_insert_ne in Hm by done.
    apply (completeCell_mono schema st _ m n).
    - apply Hcomp; [done|]. intros Hp. by apply Hnp, elem_of_union_l.
    - simpl. by apply insert_subseteq.
    - intros key. simpl. apply lookupField_prefix; [by apply prefix_app_r|].
      by eapply Hb. }
  assert (Hdone : forall st3,
             cacheBounded st3 -> heapClosed (heap st3) ->
             cacheComplete schema (pending ∪ {[name]}) st3 ->
             validationTypeCache st3 !! name = Some l0 ->
             completeCell schema st3 name l0 ->
             cacheBounded st3 /\ heapClosed (heap st3)
             /\ cacheComplete schema pending st3).
  { intros st3 Hb3 Hc3 Hcomp3 Hname3 Hcell3. split; [done|]. split; [done|].
    intros m n Hm Hnp. destruct (decide (m = name)) as [->|Hne].
    - rewrite Hname3 in Hm. by injection Hm as <-.
    - apply Hcomp3; [done|]. intros [Hp|Hs]%elem_of_union; [done|].
      by apply elem_of_singleton in Hs. }
  assert (Hname2 : validationTypeCache st2 !! name = Some l0)
    by apply lookup_insert_eq.
  destruct (schema !! name) as [[fs|]|] eqn:Hschema.
  2,3: intros [= <- <-]; apply Hdone; try done;
       intros fs' key field Hfs'; congruence.
  rewrite existsb_filter_length.
  destruct (existsb _ fs) eqn:Hflag.
  2:{ intros [= <- <-]. apply Hdone; try done.
      intros fs' key field Hfs' Hin Hfield.
      assert (fs' = fs) as -> by congruence.
      assert (existsb (fun kf : string * InputField =>
                         flagSet (extNonNullOptional kf.2)) fs = true);
        [|congruence].
      apply existsb_exists. exists (key, field).
      split; [by apply list_elem_of_In|done]. }
  unfold mbind, M_bind. simpl.
  match goal with |- context [forEachM ?f ?l ?s] =>
    destruct (forEachM f l s) as [[[] st3]|] eqn:Hloop; [|done] end.
  intros [= <- <-].
  pose proof (NoDup_keys_filter
                (fun kf : string * InputField => flagSet (extNonNullOptional kf.2))
                fs (Hwf _ _ Hschema)) as Hnd.
  eapply (forEachM_inv_prefix
            (fun done s =>
               cacheBounded s /\ heapClosed (heap s)
               /\ cacheComplete schema (pending ∪ {[name]}) s
               /\ (forall m, validationTypeCache s !! m = Some l0 -> m = name)
               /\ validationTypeCache s !! name = Some l0
               /\ l0 < length (heap s)
               /\ (forall key field, (key, field) ∈ done ->
                     exists sub,
                       validationTypeCache s !! typeName (fieldType field) = Some sub
                       /\ lookupField (heap s) l0 key
                          = Some {| config := Some {| nonNullOptional :=
                                                        extNonNullOptional field |};
                                    type := sub |}))
            _ _ []) in Hloop.
  - simpl in Hloop. destruct Hloop as (Hb3 & Hc3 & Hcomp3 & _ & Hname3 & _ & Hall).
    apply Hdone; try done.
    intros fs' key field Hfs' Hin Hfield.
    assert (fs' = fs) as -> by congruence.
    apply Hall. apply list_elem_of_In, filter_In. split; [by apply list_elem_of_In|done].
  - simpl. intros d key x r s s' Heq (Hbs & Hcs & Hcomps & Hso & Hsn & Hsl & Hall).
    unfold mbind, M_bind.
    destruct (getValidationType schema fuel (fieldType x) s)
      as [[sub s1]|] eqn:Hsub; [|done].
    intros Hassign.
    destruct (IH _ _ _ _ _ Hbs Hcs Hcomps Hsub) as (Hb1 & Hc1 & Hcomp1).
    apply getValidationType_extends in Hsub as [(Hgrow & Hheap & Hnew) Hsubnode].
    assert (Hlt1 : l0 < length (heap s1)) by (apply prefix_length in Hheap; lia).
    assert (Honly1 : forall m, validationTypeCache s1 !! m = Some l0 -> m = name).
    { intros m Hm. destruct (Hnew _ _ Hm) as [Hold|Hge]; [by apply Hso|lia]. }
    assert (Hcache' : validationTypeCache s' = validationTypeCache s1)
      by (by injection Hassign as <-).
    assert (Hheap' : heap s' = <[l0 := {| fields := Some (setProp
                        match heap s1 !! l0 with
                        | Some {| fields := Some fs0 |} => fs0
                        | _ => []
                        end key
                        {| config := Some {| nonNullOptional := extNonNullOptional x |};
                           type := sub |}) |}]> (heap s1))
      by (by injection Hassign as <-).
    split; [|split; [|split; [|split; [|split; [|split]]]]].
    + intros m n. rewrite Hcache', Hheap', length_insert. apply Hb1.
    + eapply heapClosed_assignField; [exact Hc1| |exact Hassign].
      simpl. by eapply Hb1.
    + intros m n Hm Hnp. rewrite Hcache' in Hm.
      apply (completeCell_mono schema s1 _ m n); [by apply Hcomp1|by rewrite Hcache'|].
      intros k. rewrite Hheap'. apply lookupField_insert_ne.
      intros ->. apply Honly1 in Hm. apply Hnp, elem_of_union_r.
      by apply elem_of_singleton.
    + intros m. rewrite Hcache'. apply Honly1.
    + rewrite Hcache'. by eapply lookup_weaken.
    + by rewrite Hheap', length_insert.
    + intros k f Hin. rewrite Hcache'.
      rewrite (lookupField_assignField s1 l0 key _ s' k Hlt1 Hassign).
      apply elem_of_app in Hin as [Hin|Hin].
      * destruct (Hall _ _ Hin) as (sub' & Hsub' & Hfield').
        exists sub'. split; [by eapply lookup_weaken|].
        assert (Hne : k <> key).
        { eapply NoDup_keys_middle; [|exact Hin]. rewrite <- Heq. exact Hnd. }
        apply String.eqb_neq in Hne. rewrite Hne.
        by rewrite (lookupField_prefix (heap s) (heap s1)).
      * apply list_elem_of_singleton in Hin as [= -> ->].
        exists sub. split; [done|]. by rewrite String.eqb_refl.
  - simpl. split; [|split; [|split; [|split; [|split; [|split]]]]].
    + intros m n. simpl. rewrite length_insert. apply Hb2.
    + apply heapClosed_insert; [done|]. intros fs' k f [= <-] Hin. inversion Hin.
    + intros m n Hm Hnp. simpl in Hm.
      apply (completeCell_mono schema st2 _ m n); [by apply Hcomp2|done|].
      intros k. simpl. apply lookupField_insert_ne.
      intros ->. apply Honly in Hm. apply Hnp, elem_of_union_r.
      by apply elem_of_singleton.
    + done.
    + done.
    + rewrite length_insert, length_app. simpl. unfold l0. lia.
    + intros k f Hin. inversion Hin.
Qed.

(** ** The state between two calls of the plugin *)

Lemma stateOk_initial schema : stateOk schema initialState.
Proof.
  split; [apply cacheSound_initial|]. split.
  - intros node fs key field H. simpl in H. by rewrite lookup_nil in H.
  - intros name node H. simpl in H. by rewrite lookup_empty in H.
Qed.

Lemma getValidationType_stateOk schema fuel type st node st' :
  schemaWf schema -> stateOk schema st ->
  getValidationType schema fuel type st = Some (node, st') ->
  stateOk schema st'.
Proof.
  intros Hwf (Hs & Hc & Hcomp) Hrun. split; [by eapply getValidationType_sound|].
  destruct (getValidationType_complete schema Hwf fuel type ∅ st node st')
    as (_ & Hc' & Hcomp'); try done.
  by eapply cacheSound_bounded.
Qed.

Lemma stateOk_alloc schema st cell node st' :
  stateOk schema st ->
  (forall fs key field, fields cell = Some fs -> (key, field) ∈ fs ->
                        type field < length (heap st)) ->
  alloc cell st = Some (node, st') -> stateOk schema st'.
Proof.
  intros (Hs & Hc & Hcomp) Hcell Halloc.
  split; [by eapply cacheSound_alloc|]. injection Halloc as <- <-. simpl. split.
  - by apply heapClosed_app.
  - intros m n Hm Hnp. simpl in Hm.
    apply (completeCell_mono schema st _ m n); [by apply Hcomp|done|].
    intros key. simpl. apply lookupField_prefix; [by apply prefix_app_r|].
    by destruct (Hs _ _ Hm).
Qed.

Lemma hasFlag_flaggedField schema name :
  hasFlag schema name = true <-> exists key, flaggedField schema name key.
Proof.
  unfold hasFlag, flaggedField. split.
  - destruct (schema !! name) as [[fs|]|]; try done.
    intros Hex. apply existsb_exists in Hex as ([key field] & Hin & Hflag).
    exists key, fs, field. split; [done|]. split; [by apply list_elem_of_In|done].
  - intros (key & fs & field & -> & Hin & Hflag).
    apply existsb_exists. exists (key, field).
    split; [by apply list_elem_of_In|done].
Qed.

Lemma flagSet_flagged flag sub :
  flagSet flag = true ->
  flagged (Some {| config := Some {| nonNullOptional := flag |}; type := sub |})
  = true.
Proof. by destruct flag as [[]|]. Qed.

(** What the test [subValidationType.fields] of [createArgsValidationType]
    finds on a shape that [getValidationType] returned. *)
Lemma getValidationType_hasFields schema fuel type st node st' :
  schemaWf schema -> stateOk schema st ->
  getValidationType schema fuel type st = Some (node, st') ->
  hasFields node st' = Some (hasFlag schema (typeName type), st').
Proof.
  intros Hwf Hok Hrun.
  destruct (getValidationType_stateOk _ _ _ _ _ _ Hwf Hok Hrun) as (Hs & _ & Hcomp).
  apply getValidationType_extends in Hrun as [_ Hnode].
  destruct (Hs _ _ Hnode) as [Hlt Hfs]. unfold hasFields. f_equal. f_equal.
  destruct (lookup_lt_is_Some_2 _ _ Hlt) as [[[fs|]] Hcell]; rewrite Hcell.
  - symmetry. by apply (Hfs fs).
  - destruct (hasFlag schema (typeName type)) eqn:Hflag; [|done].
    apply hasFlag_flaggedField in Hflag as (key & fs & field & Hschema & Hin & Hflag).
    destruct (Hcomp _ _ Hnode (not_elem_of_empty _) fs key field Hschema Hin Hflag)
      as (sub & _ & Hfield).
    unfold lookupField in Hfield. by rewrite Hcell in Hfield.
Qed.

Lemma collectArgs_spec schema fuel :
  schemaWf schema ->
  forall argMap fields st fields' st',
    stateOk schema st -> NoDup argMap.*1 ->
    (forall key f, (key, f) ∈ fields -> type f < length (heap st)) ->
    collectArgs schema fuel argMap fields st = Some (fields', st') ->
    stateOk schema st' /\ extends st st'
    /\ (forall key f, (key, f) ∈ fields' -> type f < length (heap st'))
    /\ (forall key, key ∉ argMap.*1 -> getProp fields' key = getProp fields key)
    /\ (forall key argType, (key, argType) ∈ argMap ->
          if hasFlag schema (typeName argType)
          then exists sub,
                 validationTypeCache st' !! typeName argType = Some sub
                 /\ getProp fields' key = Some {| config := None; type := sub |}
          else getProp fields' key = getProp fields key).
Proof.
  intros Hwf. induction argMap as [|[key argType] argMap IH];
    intros fields st fields' st' Hok Hnd Hbound; simpl.
  - intros [= <- <-]. split; [done|]. split; [apply extends_refl|].
    split; [done|]. split; [done|]. intros key argType Hin. inversion Hin.
  - unfold mbind, M_bind.
    destruct (getValidationType schema fuel argType st) as [[sub s1]|] eqn:Hsub; [|done].
    rewrite (getValidationType_hasFields _ _ _ _ _ _ Hwf Hok Hsub).
    pose proof (getValidationType_stateOk _ _ _ _ _ _ Hwf Hok Hsub) as Hok1.
    apply getValidationType_extends in Hsub as [Hext Hnode].
    apply NoDup_cons in Hnd as [Hkey Hnd].
    set (fields1 := if hasFlag schema (typeName argType)
                    then setProp fields key {| type := sub; config := None |}
                    else fields).
    intros Hrest.
    assert (Hbound1 : forall k f, (k, f) ∈ fields1 -> type f < length (heap s1)).
    { intros k f Hin.
      assert (Hold : (k, f) ∈ fields -> type f < length (heap s1)).
      { intros Hin'. pose proof (Hbound _ _ Hin').
        destruct Hext as (_ & Hpre & _). apply prefix_length in Hpre. lia. }
      unfold fields1 in Hin. destruct (hasFlag schema (typeName argType)); [|by apply Hold].
      apply setProp_elem in Hin as [Hin|[_ ->]]; [by apply Hold|].
      simpl. destruct Hok1 as (Hs1 & _). by destruct (Hs1 _ _ Hnode). }
    destruct (IH fields1 s1 fields' st' Hok1 Hnd Hbound1 Hrest)
      as (Hok' & Hext' & Hbound' & Hframe & Hentries).
    split; [done|]. split; [by eapply extends_trans|]. split; [done|]. split.
    + intros k Hk. apply not_elem_of_cons in Hk as [Hne Hk].
      rewrite (Hframe k Hk). unfold fields1.
      destruct (hasFlag schema (typeName argType)); [|done].
      by apply getProp_setProp_ne.
    + intros k t Hin. apply elem_of_cons in Hin as [[= -> ->]|Hin].
      * rewrite (Hframe key Hkey). unfold fields1.
        destruct (hasFlag schema (typeName argType)); [|done].
        exists sub. split; [|apply getProp_setProp_eq].
        destruct Hext' as (Hcache & _). by eapply lookup_weaken.
      * pose proof (Hentries k t Hin) as Hentry.
        destruct (hasFlag schema (typeName t)); [done|].
        rewrite Hentry. unfold fields1.
        destruct (hasFlag schema (typeName argType)); [|done].
        apply getProp_setProp_ne. intros Heq. apply Hkey.
        apply list_elem_of_fmap. exists (k, t). by split.
Qed.

Lemma getProp_is_Some {A : Type} (props : list (string * A)) key :
  is_Some (getProp props key) <-> key ∈ props.*1.
Proof.
  induction props as [|[k v] props IH]; simpl.
  - split; [by intros [? ?]|by inversion 1].
  - destruct (String.eqb_spec k key) as [->|Hne].
    + split; [intros _; by left|by eexists].
    + rewrite IH. split; [by right|].
      intros Hin. by apply elem_of_cons in Hin as [?|?].
Qed.

(** The shape of the arguments, when [createArgsValidationType] makes one. *)
Lemma createArgsValidationType_spec schema fuel argMap st result st' :
  schemaWf schema -> stateOk schema st -> NoDup argMap.*1 ->
  createArgsValidationType schema fuel (Some argMap) st = Some (result, st') ->
  stateOk schema st' /\ extends st st'
  /\ (is_Some result
      <-> exists key argType, (key, argType) ∈ argMap
                           /\ hasFlag schema (typeName argType) = true)
  /\ forall shape, result = Some shape ->
       shape < length (heap st')
       /\ (forall key, key ∉ argMap.*1 -> lookupField (heap st') shape key = None)
       /\ (forall key argType, (key, argType) ∈ argMap ->
             if hasFlag schema (typeName argType)
             then exists sub,
                    validationTypeCache st' !! typeName argType = Some sub
                    /\ lookupField (heap st') shape key
                       = Some {| config := None; type := sub |}
             else lookupField (heap st') shape key = None).
Proof.
  intros Hwf Hok Hnd. unfold createArgsValidationType, mbind, M_bind.
  destruct (collectArgs schema fuel argMap [] st) as [[fs s1]|] eqn:Hcollect; [|done].
  destruct (collectArgs_spec schema fuel Hwf argMap [] st fs s1 Hok Hnd)
    as (Hok1 & Hext1 & Hbound1 & Hframe & Hentries); [by inversion 1|done|].
  assert (Hiff : fs <> []
                 <-> exists key argType, (key, argType) ∈ argMap
                                      /\ hasFlag schema (typeName argType) = true).
  { split.
    - destruct fs as [|[k f] fs]; [done|]. intros _.
      assert (Hk : is_Some (getProp ((k, f) :: fs) k))
        by (apply getProp_is_Some; by left).
      destruct (decide (k ∈ argMap.*1)) as [Hin|Hout].
      + apply list_elem_of_fmap in Hin as ([k' t] & -> & Hin). simpl in *.
        exists k', t. split; [done|]. pose proof (Hentries _ _ Hin) as Hentry.
        destruct (hasFlag schema (typeName t)); [done|].
        rewrite Hentry in Hk. by destruct Hk.
      + rewrite (Hframe _ Hout) in Hk. by destruct Hk.
    - intros (key & argType & Hin & Hflag) ->. pose proof (Hentries _ _ Hin) as Hentry.
      rewrite Hflag in Hentry. by destruct Hentry as (sub & _ & Hsub). }
  destruct fs as [|kf fs]; simpl.
  - intros [= <- <-]. split; [done|]. split; [done|]. split.
    + rewrite <- Hiff. split; [by intros [? ?]|done].
    + by intros shape.
  - intros [= <- <-]. split.
    { eapply (stateOk_alloc schema s1 {| fields := Some (kf :: fs) |});
        [done| |done].
      intros fs' key field [= <-]. apply Hbound1. }
    split.
    { eapply extends_trans; [exact Hext1|]. by eapply extends_alloc. }
    split.
    { rewrite <- Hiff. split; [done|by eexists]. }
    intros shape [= <-]. simpl.
    assert (Hshape : forall key,
               lookupField (heap s1 ++ [{| fields := Some (kf :: fs) |}])
                 (length (heap s1)) key
               = getProp (kf :: fs) key).
    { intros key. unfold lookupField. by rewrite list_lookup_middle. }
    split; [rewrite length_app; simpl; lia|]. split.
    + intros key Hout. by rewrite Hshape, (Hframe _ Hout).
    + intros key argType Hin. rewrite Hshape. apply (Hentries _ _ Hin).
Qed.



(** ** What the compiled shapes hold *)

Lemma nestedSchema_wf : schemaWf nestedSchema.
Proof.
  intros name fs Hschema. unfold nestedSchema in Hschema.
  repeat (apply lookup_insert_Some in Hschema as [[_ [= <-]]|[_ Hschema]];
          [apply NoDup_singleton|]).
  apply lookup_singleton_Some in Hschema as [_ [= <-]]. apply NoDup_singleton.
Qed.

Lemma nestedSchema_ownNames : ownNames nestedSchema.
Proof.
  intros name fs key field Hschema Hin. unfold nestedSchema in Hschema.
  repeat (apply lookup_insert_Some in Hschema as [[_ [= <-]]|[_ Hschema]];
          [apply list_elem_of_singleton in Hin as [= -> ->]; by split|]).
  apply lookup_singleton_Some in Hschema as [_ [= <-]].
  apply list_elem_of_singleton in Hin as [= -> ->]. by split.
Qed.

Lemma nodeSchema_wf : schemaWf nodeSchema.
Proof.
  intros name fs Hschema. unfold nodeSchema in Hschema.
  apply lookup_singleton_Some in Hschema as [_ [= <-]]. apply NoDup_singleton.
Qed.

Lemma nodeSchema_ownNames : ownNames nodeSchema.
Proof.
  intros name fs key field Hschema Hin. unfold nodeSchema in Hschema.
  apply lookup_singleton_Some in Hschema as [_ [= <-]].
  apply list_elem_of_singleton in Hin as [= -> ->]. by split.
Qed.

(** X9: for a schema whose field and type names are not inherited names
    ([constructor], [toString], ...), the shape that [getValidationType]
    returns for a type has an entry exactly for the fields of the named
    type that carry the flag; the entry of a field holds the flag of the
    field and, as its shape, the cached shape of the named type of the
    field. *)
Theorem shape_entries_are_the_flagged_fields schema fuel type st node st' :
  schemaWf schema -> ownNames schema -> isInherited (typeName type) = false ->
  stateOk schema st ->
  getValidationType schema fuel type st = Some (node, st') ->
  (forall key, is_Some (lookupField (heap st') node key)
               <-> flaggedField schema (typeName type) key)
  /\ (forall fs key field,
         schema !! typeName type = Some (InputObjectType fs) ->
         (key, field) ∈ fs ->
         flagSet (extNonNullOptional field) = true ->
         exists sub,
           validationTypeCache st' !! typeName (fieldType field) = Some sub
           /\ lookupField (heap st') node key
              = Some {| config := Some {| nonNullOptional :=
                                            extNonNullOptional field |};
                        type := sub |}).
Proof.
  intros Hwf _ _ Hok Hrun.
  destruct (getValidationType_stateOk _ _ _ _ _ _ Hwf Hok Hrun) as (Hs & _ & Hcomp).
  apply getValidationType_extends in Hrun as [_ Hnode].
  pose proof (Hcomp _ _ Hnode (not_elem_of_empty _)) as Hcell.
  split; [|exact Hcell]. intros key. split.
  - intros [f Hf]. apply lookupField_elem in Hf as (fs & Hfs & Hin).
    destruct (Hs _ _ Hnode) as [_ Hsound].
    by apply (proj2 (Hsound fs Hfs) key f).
  - intros (fs & field & Hschema & Hin & Hflag).
    destruct (Hcell fs key field Hschema Hin Hflag) as (sub & _ & Hfield).
    by eexists.
Qed.

Lemma shape_entries_are_the_flagged_fields_witness :
  schemaWf nestedSchema
  /\ ownNames nestedSchema
  /\ isInherited "Inner" = false
  /\ stateOk nestedSchema initialState
  /\ (is_Some (lookupField (heap innerState) 0 "x")
      <-> flaggedField nestedSchema "Inner" "x")
  /\ ~ is_Some (lookupField (heap innerState) 0 "y").
Proof.
  assert (Hwf : schemaWf nestedSchema) by apply nestedSchema_wf.
  assert (Hown : ownNames nestedSchema) by apply nestedSchema_ownNames.
  assert (Hname : isInherited "Inner" = false) by reflexivity.
  assert (Hok : stateOk nestedSchema initialState) by apply stateOk_initial.
  assert (Hrun : getValidationType nestedSchema 3 (NamedType "Inner") initialState
                 = Some (0, innerState)) by reflexivity.
  pose proof (shape_entries_are_the_flagged_fields nestedSchema 3 (NamedType "Inner")
                initialState 0 innerState Hwf Hown Hname Hok Hrun) as [Hiff _].
  split; [exact Hwf|]. split; [exact Hown|]. split; [exact Hname|].
  split; [exact Hok|]. split; [exact (Hiff "x")|].
  intros Hy. apply (Hiff "y") in Hy as (fs & field & Hschema & Hin & _).
  simpl in Hschema. unfold nestedSchema in Hschema.
  rewrite lookup_insert_ne in Hschema by done.
  rewrite lookup_insert_eq in Hschema. injection Hschema as <-.
  apply list_elem_of_singleton in Hin. discriminate Hin.
Defined.

(** X10: for a schema whose field and type names are not inherited names,
    the shape that [getValidationType] returns has a [fields] object
    exactly when the named type has a field with the flag: for a scalar,
    an enum, or an input object none of whose own fields is flagged, it
    is the empty shape. *)
Theorem shape_has_fields_iff_flag schema fuel type st node st' :
  schemaWf schema -> ownNames schema -> isInherited (typeName type) = false ->
  stateOk schema st ->
  getValidationType schema fuel type st = Some (node, st') ->
  exists cell,
    heap st' !! node = Some cell
    /\ (is_Some (fields cell) <-> hasFlag schema (typeName type) = true)
    /\ (fields cell = None <-> hasFlag schema (typeName type) = false).
Proof.
  intros Hwf _ _ Hok Hrun.
  pose proof (getValidationType_hasFields _ _ _ _ _ _ Hwf Hok Hrun) as Htest.
  destruct (getValidationType_stateOk _ _ _ _ _ _ Hwf Hok Hrun) as (Hs & _ & _).
  apply getValidationType_extends in Hrun as [_ Hnode].
  destruct (Hs _ _ Hnode) as [Hlt _].
  destruct (lookup_lt_is_Some_2 _ _ Hlt) as [cell Hcell].
  exists cell. split; [done|].
  unfold hasFields in Htest. rewrite Hcell in Htest.
  destruct cell as [[fs|]]; injection Htest as <-; simpl.
  - split; [split; [done|by eexists]|split; done].
  - split; [split; [by intros [? ?]|done]|split; done].
Qed.

Lemma shape_has_fields_iff_flag_witness :
  schemaWf nestedSchema
  /\ ownNames nestedSchema
  /\ isInherited "Plain" = false
  /\ stateOk nestedSchema initialState
  /\ exists cell,
       [{| fields := None |}; {| fields := None |}] !! 1 = Some cell
       /\ (is_Some (fields cell) <-> hasFlag nestedSchema "Plain" = true)
       /\ (fields cell = None <-> hasFlag nestedSchema "Plain" = false).
Proof.
  assert (Hwf : schemaWf nestedSchema) by apply nestedSchema_wf.
  assert (Hown : ownNames nestedSchema) by apply nestedSchema_ownNames.
  assert (Hname : isInherited "Plain" = false) by reflexivity.
  assert (Hok : stateOk nestedSchema initialState) by apply stateOk_initial.
  assert (Hrun : getValidationType nestedSchema 3 (ListType (NamedType "Plain"))
                   initialState
                 = Some (1, {| heap := [{| fields := None |}; {| fields := None |}];
                               validationTypeCache := {[ "Plain" := 1 ]} |}))
    by reflexivity.
  split; [exact Hwf|]. split; [exact Hown|]. split; [exact Hname|].
  split; [exact Hok|].
  exact (shape_has_fields_iff_flag nestedSchema 3 (ListType (NamedType "Plain"))
           initialState 1 _ Hwf Hown Hname Hok Hrun).
Defined.

(** X11: for a schema and arguments whose names and type names are not
    inherited names, [createArgsValidationType] makes a shape exactly when
    the named type of some argument has a field with the flag; the shape
    has an entry, without a config, for each such argument, holding the
    cached shape of the named type of the argument, and no other entry. *)
Theorem args_shape_is_made_of_the_flagged_arguments schema fuel argMap st result st' :
  schemaWf schema -> ownNames schema -> argsOwn argMap ->
  stateOk schema st -> NoDup argMap.*1 ->
  createArgsValidationType schema fuel (Some argMap) st = Some (result, st') ->
  (is_Some result
   <-> exists key argType, (key, argType) ∈ argMap
                           /\ hasFlag schema (typeName argType) = true)
  /\ forall shape, result = Some shape ->
       (forall key, key ∉ argMap.*1 -> lookupField (heap st') shape key = None)
       /\ (forall key argType, (key, argType) ∈ argMap ->
             if hasFlag schema (typeName argType)
             then exists sub,
                    validationTypeCache st' !! typeName argType = Some sub
                    /\ lookupField (heap st') shape key
                       = Some {| config := None; type := sub |}
             else lookupField (heap st') shape key = None).
Proof.
  intros Hwf _ _ Hok Hnd Hrun.
  destruct (createArgsValidationType_spec schema fuel argMap st result st'
              Hwf Hok Hnd Hrun) as (_ & _ & Hiff & Hshape).
  split; [exact Hiff|]. intros shape Hresult.
  by destruct (Hshape shape Hresult) as (_ & Hout & Hin).
Qed.

Lemma args_shape_is_made_of_the_flagged_arguments_witness :
  schemaWf nestedSchema
  /\ ownNames nestedSchema
  /\ argsOwn [("o", NamedType "Outer"); ("i", ListType (NamedType "Inner"))]
  /\ stateOk nestedSchema initialState
  /\ NoDup [("o", NamedType "Outer"); ("i", ListType (NamedType "Inner"))].*1
  /\ lookupField
       [ {| fields := None |}; {| fields := None |};
         {| fields :=
              Some [("x", {| config := Some {| nonNullOptional := Some true |};
                             type := 3 |})] |};
         {| fields := None |};
         {| fields := Some [("i", {| config := None; type := 2 |})] |} ] 4 "o"
     = None.
Proof.
  assert (Hwf : schemaWf nestedSchema) by apply nestedSchema_wf.
  assert (Hown : ownNames nestedSchema) by apply nestedSchema_ownNames.
  assert (Hargs : argsOwn [("o", NamedType "Outer");
                           ("i", ListType (NamedType "Inner"))]).
  { intros key argType Hin.
    apply elem_of_cons in Hin as [[= -> ->]|Hin]; [by split|].
    apply list_elem_of_singleton in Hin as [= -> ->]. by split. }
  assert (Hok : stateOk nestedSchema initialState) by apply stateOk_initial.
  assert (Hnd : NoDup [("o", NamedType "Outer");
                       ("i", ListType (NamedType "Inner"))].*1).
  { simpl. apply NoDup_cons. split; [|apply NoDup_singleton].
    intros Hin. apply list_elem_of_singleton in Hin. discriminate Hin. }
  assert (Hrun :
            createArgsValidationType nestedSchema 4
              (Some [("o", NamedType "Outer"); ("i", ListType (NamedType "Inner"))])
              initialState
            = Some (Some 4,
                    {| heap :=
                         [ {| fields := None |}; {| fields := None |};
                           {| fields :=
                                Some [("x", {| config :=
                                                 Some {| nonNullOptional := Some true |};
                                               type := 3 |})] |};
                           {| fields := None |};
                           {| fields := Some [("i", {| config := None; type := 2 |})] |} ];
                       validationTypeCache :=
                         <[ "Outer" := 0 ]> (<[ "Inner" := 2 ]> {[ "String" := 3 ]}) |}))
    by reflexivity.
  split; [exact Hwf|]. split; [exact Hown|]. split; [exact Hargs|].
  split; [exact Hok|]. split; [exact Hnd|].
  destruct (args_shape_is_made_of_the_flagged_arguments nestedSchema 4 _
              initialState _ _ Hwf Hown Hargs Hok Hnd Hrun) as [_ Hshape].
  destruct (Hshape 4 eq_refl) as [_ Hentries].
  exact (Hentries "o" (NamedType "Outer") ltac:(by left)).
Defined.

(** ** Shapes made earlier keep their meaning *)

Lemma relViolations_prefix (h h' : Heap) value :
  h `prefix_of` h' -> heapClosed h ->
  forall validationType,
    (forall l, validationType = Some l -> l < length h) ->
    relViolations h' value validationType = relViolations h value validationType.
Proof.
  intros Hpre Hc.
  induction value as [| | b | n | s | elements IH | props IH]
    using JsValue_nested_ind; intros [vt|] Hvt;
    try (by rewrite !relViolations_no_shape); try done.
  - rewrite !relViolations_array. f_equal. apply imap_ext. intros i x Hx. simpl.
    f_equal. rewrite Forall_forall in IH. apply IH; [|done].
    by eapply list_elem_of_lookup_2.
  - rewrite !relViolations_object. f_equal. apply list_fmap_ext.
    intros i [key x] Hx. simpl. unfold keyViolations.
    rewrite (lookupField_prefix h h') by (done || by apply Hvt).
    f_equal. f_equal. rewrite Forall_forall in IH.
    apply (IH (key, x)); [by eapply list_elem_of_lookup_2|].
    intros l Hl. destruct (lookupField h vt key) as [f|] eqn:Hf; [|done].
    injection Hl as <-. apply lookupField_elem in Hf as (fs & Hfs & Hin).
    by eapply Hc.
Qed.

Lemma fieldResolver_prefix {Root Ctx Info Res : Type} (h h' : Heap)
  (shape : loc) (root : Root) (args : JsValue) (ctx : Ctx) (info : Info)
  (next : Root -> JsValue -> Ctx -> Info -> Res) :
  h `prefix_of` h' -> heapClosed h -> shape < length h ->
  fieldResolver h' shape root args ctx info next
  = fieldResolver h shape root args ctx info next.
Proof.
  intros Hpre Hc Hlt. unfold fieldResolver. rewrite !validate_violations.
  unfold violations. rewrite (relViolations_prefix h h'); try done.
  by intros l [= <-].
Qed.

Lemma onCreateFieldResolver_extends schema fuel args st result st' :
  onCreateFieldResolver schema fuel args st = Some (result, st') -> extends st st'.
Proof.
  unfold onCreateFieldResolver, createArgsValidationType, mbind, M_bind.
  destruct args as [argMap|]; [|simpl; intros [= _ <-]; apply extends_refl].
  destruct (collectArgs schema fuel argMap [] st) as [[fs s]|] eqn:Hcollect;
    [|done].
  assert (Hs : extends st s).
  { clear -Hcollect. revert Hcollect. generalize (@nil (string * ValidationField)).
    revert st. induction argMap as [|[key argType] argMap IH];
      intros st fields; simpl.
    - intros [= _ <-]. apply extends_refl.
    - unfold mbind, M_bind.
      destruct (getValidationType schema fuel argType st)
        as [[sub s1]|] eqn:Hsub; [|done].
      unfold hasFields. simpl. intros Hrest. apply IH in Hrest.
      apply getValidationType_extends in Hsub as [Hsub _].
      by eapply extends_trans. }
  destruct (0 <? length fs)%nat; simpl.
  - intros [= _ <-]. eapply extends_trans; [exact Hs|].
    by eapply (extends_alloc {| fields := Some fs |} s).
  - by intros [= _ <-].
Qed.

Lemma hookCalls_extends schema st st' : hookCalls schema st st' -> extends st st'.
Proof.
  induction 1 as [st|st fuel args result st' st'' Hcall _ IH];
    [apply extends_refl|].
  eapply extends_trans; [|exact IH]. by eapply onCreateFieldResolver_extends.
Qed.

(** X12: what a wrapper does is fixed when it is made: after any number of
    later calls of the hook, for any fields, which compile more shapes
    into the same store and cache, the wrapper gives the same result on
    every request as it gave when it was made. *)
Theorem wrapper_is_unchanged_by_later_hook_calls {Root Ctx Info Res : Type}
  schema fuel argMap st shape st1 st2
  (root : Root) (args : JsValue) (ctx : Ctx) (info : Info)
  (next : Root -> JsValue -> Ctx -> Info -> Res) :
  schemaWf schema -> stateOk schema st -> NoDup argMap.*1 ->
  onCreateFieldResolver schema fuel (Some argMap) st = Some (Some shape, st1) ->
  hookCalls schema st1 st2 ->
  fieldResolver (heap st2) shape root args ctx info next
  = fieldResolver (heap st1) shape root args ctx info next.
Proof.
  intros Hwf Hok Hnd Hfirst Hlater.
  apply hookCalls_extends in Hlater as (_ & Hpre & _).
  unfold onCreateFieldResolver, mbind, M_bind in Hfirst.
  destruct (createArgsValidationType schema fuel (Some argMap) st)
    as [[r s1]|] eqn:Hcreate; [|done].
  destruct (createArgsValidationType_spec schema fuel argMap st r s1 Hwf Hok
              Hnd Hcreate) as ((_ & Hc1 & _) & _ & _ & Hshape).
  destruct r as [shape'|]; [|done]. injection Hfirst as -> ->.
  destruct (Hshape shape eq_refl) as (Hlt & _).
  by apply fieldResolver_prefix.
Qed.

Lemma wrapper_is_unchanged_by_later_hook_calls_witness :
  schemaWf nodeSchema
  /\ stateOk nodeSchema initialState
  /\ NoDup [("a", NamedType "Node")].*1
  /\ fieldResolver
       (heap nodeState
        ++ [{| fields := Some [("a", {| config := None; type := 0 |})] |};
            {| fields := Some [("b", {| config := None; type := 0 |})] |};
            {| fields := None |};
            {| fields := Some [("c", {| config := None; type := 0 |})] |}])
       1 tt (VObject [("a", VObject [("next", VNull)])]) tt tt (fun _ _ _ _ => 0)
     = fieldResolver
         (heap nodeState
          ++ [{| fields := Some [("a", {| config := None; type := 0 |})] |}])
         1 tt (VObject [("a", VObject [("next", VNull)])]) tt tt (fun _ _ _ _ => 0).
Proof.
  assert (Hwf : schemaWf nodeSchema) by apply nodeSchema_wf.
  assert (Hok : stateOk nodeSchema initialState) by apply stateOk_initial.
  assert (Hnd : NoDup [("a", NamedType "Node")].*1) by apply NoDup_singleton.
  set (st1 := {| heap := heap nodeState
                         ++ [{| fields :=
                                  Some [("a", {| config := None; type := 0 |})] |}];
                 validationTypeCache := validationTypeCache nodeState |}).
  set (st2 := {| heap := heap nodeState
                         ++ [{| fields :=
                                  Some [("a", {| config := None; type := 0 |})] |};
                             {| fields :=
                                  Some [("b", {| config := None; type := 0 |})] |}];
                 validationTypeCache := validationTypeCache nodeState |}).
  set (st3 := {| heap := heap nodeState
                         ++ [{| fields :=
                                  Some [("a", {| config := None; type := 0 |})] |};
                             {| fields :=
                                  Some [("b", {| config := None; type := 0 |})] |};
                             {| fields := None |};
                             {| fields :=
                                  Some [("c", {| config := None; type := 0 |})] |}];
                 validationTypeCache := validationTypeCache nodeState |}).
  assert (Hfirst : onCreateFieldResolver nodeSchema 3
                     (Some [("a", NamedType "Node")]) initialState
                   = Some (Some 1, st1)) by reflexivity.
  assert (Hsecond : onCreateFieldResolver nodeSchema 3
                      (Some [("b", NamedType "Node")]) st1
                    = Some (Some 2, st2)) by reflexivity.
  assert (Hthird : onCreateFieldResolver nodeSchema 3
                     (Some [("c", ListType (NamedType "Node"))]) st2
                   = Some (Some 4, st3)) by reflexivity.
  assert (Hlater : hookCalls nodeSchema st1 st3).
  { eapply hookCalls_call; [exact Hsecond|].
    eapply hookCalls_call; [exact Hthird|]. apply hookCalls_none. }
  split; [exact Hwf|]. split; [exact Hok|]. split; [exact Hnd|].
  exact (wrapper_is_unchanged_by_later_hook_calls nodeSchema 3
           [("a", NamedType "Node")] initialState 1 st1 st3
           tt (VObject [("a", VObject [("next", VNull)])]) tt tt
           (fun _ _ _ _ => 0) Hwf Hok Hnd Hfirst Hlater).
Defined.

(** ** From the flag on a field to the rejected request *)

Lemma fieldResolver_thrown {Root Ctx Info Res : Type} (h : Heap) (shape : loc)
  (root : Root) (args : JsValue) (ctx : Ctx) (info : Info)
  (next : Root -> JsValue -> Ctx -> Info -> Res) q :
  q ∈ relViolations h args (Some shape) ->
  exists message, fieldResolver h shape root args ctx info next = Thrown message.
Proof.
  intros Hq.
  assert (Hkeys : Object_keys (validate h args (Some shape) ["args"] (EObject []))
                  <> []).
  { apply validate_args_keys. rewrite violations_nil. intros Hnil.
    rewrite Hnil in Hq. inversion Hq. }
  unfold fieldResolver.
  destruct (Object_keys (validate h args (Some shape) ["args"] (EObject [])));
    [done|]. by eexists.
Qed.

(** X13: from the schema to the request, for a schema and arguments whose
    names and type names are not inherited names: when an argument of a
    field has an input object type with a flagged field, the hook
    installs a wrapper, and the wrapper rejects every request in which
    that argument is an object holding [null] at the flagged field. *)
Theorem null_at_flagged_field_of_argument_is_rejected {Root Ctx Info Res : Type}
  schema fuel argMap st result st' arg argType fs key field props inner
  (root : Root) (ctx : Ctx) (info : Info)
  (next : Root -> JsValue -> Ctx -> Info -> Res) :
  schemaWf schema -> ownNames schema -> argsOwn argMap ->
  stateOk schema st -> NoDup argMap.*1 ->
  (arg, argType) ∈ argMap ->
  schema !! typeName argType = Some (InputObjectType fs) ->
  (key, field) ∈ fs ->
  flagSet (extNonNullOptional field) = true ->
  wfValue (VObject props) = true ->
  getProp props arg = Some (VObject inner) ->
  getProp inner key = Some VNull ->
  onCreateFieldResolver schema fuel (Some argMap) st = Some (result, st') ->
  exists shape message,
    result = Some shape
    /\ fieldResolver (heap st') shape root (VObject props) ctx info next
       = Thrown message.
Proof.
  intros Hwf _ _ Hok Hnd Harg Hschema Hkey Hflag Hvalue Hprops Hinner.
  unfold onCreateFieldResolver, mbind, M_bind.
  destruct (createArgsValidationType schema fuel (Some argMap) st)
    as [[r s1]|] eqn:Hcreate; [|done].
  destruct (createArgsValidationType_spec schema fuel argMap st r s1 Hwf Hok
              Hnd Hcreate) as ((_ & _ & Hcomp) & _ & Hiff & Hshape).
  assert (Hhas : hasFlag schema (typeName argType) = true).
  { apply hasFlag_flaggedField. by exists key, fs, field. }
  assert (Hsome : is_Some r) by (apply Hiff; by exists arg, argType).
  destruct Hsome as [shape ->]. intros [= <- <-].
  destruct (Hshape shape eq_refl) as (_ & _ & Hentries).
  pose proof (Hentries arg argType Harg) as Hentry. rewrite Hhas in Hentry.
  destruct Hentry as (sub & Hsub & Hfield).
  destruct (Hcomp _ _ Hsub (not_elem_of_empty _) fs key field Hschema Hkey Hflag)
    as (sub' & _ & Hfield').
  destruct (fieldResolver_thrown (heap s1) shape root (VObject props) ctx info next
              [arg; key]) as [message Hthrown].
  { apply relViolations_spec; [done|]. split.
    - rewrite valueAt_object, Hprops. cbn [mbind option_bind].
      rewrite valueAt_object, Hinner. done.
    - rewrite fieldAt_object_below, Hprops. cbn [mbind option_bind].
      rewrite Hfield. cbn [fmap option_fmap option_map type].
      rewrite fieldAt_object_last, Hfield'. by apply flagSet_flagged. }
  by exists shape, message.
Qed.

Lemma null_at_flagged_field_of_argument_is_rejected_witness :
  schemaWf nodeSchema
  /\ ownNames nodeSchema
  /\ argsOwn [("a", NamedType "Node")]
  /\ stateOk nodeSchema initialState
  /\ wfValue (VObject [("a", VObject [("next", VNull)])]) = true
  /\ exists shape message,
    Some 1 = Some shape
    /\ fieldResolver
         (heap nodeState
          ++ [{| fields := Some [("a", {| config := None; type := 0 |})] |}])
         shape tt (VObject [("a", VObject [("next", VNull)])]) tt tt
         (fun _ _ _ _ => 0)
       = Thrown message.
Proof.
  assert (Hwf : schemaWf nodeSchema) by apply nodeSchema_wf.
  assert (Hown : ownNames nodeSchema) by apply nodeSchema_ownNames.
  assert (Hargs : argsOwn [("a", NamedType "Node")]).
  { intros key argType Hin.
    apply list_elem_of_singleton in Hin as [= -> ->]. by split. }
  assert (Hrun : onCreateFieldResolver nodeSchema 3
                   (Some [("a", NamedType "Node")]) initialState
                 = Some (Some 1,
                         {| heap := heap nodeState
                                    ++ [{| fields :=
                                             Some [("a", {| config := None;
                                                            type := 0 |})] |}];
                            validationTypeCache := validationTypeCache nodeState |}))
    by reflexivity.
  split; [exact Hwf|]. split; [exact Hown|]. split; [exact Hargs|].
  split; [exact (stateOk_initial nodeSchema)|].
  split; [reflexivity|].
  exact (null_at_flagged_field_of_argument_is_rejected nodeSchema 3
           [("a", NamedType "Node")] initialState _ _ "a" (NamedType "Node")
           [("next", {| fieldType := NamedType "Node";
                        extNonNullOptional := Some true |})]
           "next" _ [("a", VObject [("next", VNull)])] [("next", VNull)]
           tt tt tt (fun _ _ _ _ => 0)
           Hwf Hown Hargs (stateOk_initial nodeSchema) (NoDup_singleton _)
           ltac:(by left) eq_refl ltac:(by left) eq_refl eq_refl eq_refl eq_refl
           Hrun).
Defined.

(** ** The hook returns *)

Lemma collectArgs_total schema fuel argMap :
  forall fields st,
    2 * uncached schema st + 2 <= fuel ->
    is_Some (collectArgs schema fuel argMap fields st).
Proof.
  induction argMap as [|[key argType] argMap IH]; intros fields st Hfuel; simpl;
    [done|].
  unfold mbind, M_bind.
  destruct (getValidationType_total schema argType st fuel Hfuel)
    as [[sub s1] Hsub].
  rewrite Hsub. unfold hasFields. simpl. apply IH.
  apply getValidationType_extends in Hsub as [Hsub _].
  apply (uncached_extends schema) in Hsub. lia.
Qed.

(** X14: the resolver hook returns for every schema and every argument
    map, recursive input types included: from any state enough fuel gives
    a result and a new state, the same for any larger fuel. *)
Theorem resolver_hook_terminates schema args st :
  exists fuel result st', forall fuel', fuel <= fuel' ->
    onCreateFieldResolver schema fuel' args st = Some (result, st').
Proof.
  destruct args as [argMap|].
  - destruct (collectArgs_total schema (2 * uncached schema st + 2) argMap [] st)
      as [[fs s1] Hcollect]; [done|].
    exists (2 * uncached schema st + 2).
    destruct (0 <? length fs)%nat eqn:Hfs.
    + exists (Some (length (heap s1))),
        {| heap := heap s1 ++ [{| fields := Some fs |}];
           validationTypeCache := validationTypeCache s1 |}.
      intros fuel' Hfuel.
      unfold onCreateFieldResolver, createArgsValidationType, mbind, M_bind.
      rewrite (collectArgs_fuel_mono _ _ _ _ Hfuel _ _ _ Hcollect).
      by rewrite Hfs.
    + exists None, s1. intros fuel' Hfuel.
      unfold onCreateFieldResolver, createArgsValidationType, mbind, M_bind.
      rewrite (collectArgs_fuel_mono _ _ _ _ Hfuel _ _ _ Hcollect).
      by rewrite Hfs.
  - exists 0, None, st. by intros fuel' _.
Qed.
